(** * Sudoku.go: a shallow embedding of the solver and its properties

    The first part follows the layout of [Sudoku.go]: constants and the
    topology tables built by [init], the propagation routines ([fill],
    [eliminate], [arcConsistent], [dualConsistent]), the search
    ([selectSquare], [search]), [verify], the input side ([parseGrid],
    [initialize], [reverse], [readFile]) and [rowString].  The second part
    defines the words the properties are stated in, the third proves the
    properties of the model, the fourth states the claims C1 to C10 about
    the program, and the last adds the further properties X1 to X16.

    Go [int] values are modelled as [Z]; the only arithmetic that can leave
    the 64-bit range is written with [wrap64].  A slice index out of range,
    which makes the Go program panic, yields [Panic].  [OutOfFuel] is the
    answer of a recursive function cut off by its fuel; [fill_total] and
    [search_total] show that the fuel given to [fill] and [search] is never
    used up on the grids of the program. *)

From Stdlib Require Import String Ascii.
From Stdlib Require Import ZArith List Bool Lia.
Import ListNotations.
Open Scope Z_scope.

Set Implicit Arguments.

(** ** Results of running Go code *)

Inductive result (A : Type) : Type :=
| Done (a : A)
| Panic
| OutOfFuel.

Arguments Done {A} a.
Arguments Panic {A}.
Arguments OutOfFuel {A}.

Definition rbind {A B : Type} (r : result A) (k : A -> result B) : result B :=
  match r with
  | Done a => k a
  | Panic => Panic
  | OutOfFuel => OutOfFuel
  end.

(** A computation over a mutable store of type [S]. *)
Definition ST (S A : Type) : Type := S -> result (A * S).

Definition ret {S A : Type} (a : A) : ST S A := fun st => Done (a, st).

Definition bind {S A B : Type} (m : ST S A) (k : A -> ST S B) : ST S B :=
  fun st => match m st with
            | Done (a, st') => k a st'
            | Panic => Panic
            | OutOfFuel => OutOfFuel
            end.

Definition lift {S A : Type} (r : result A) : ST S A :=
  fun st => match r with
            | Done a => Done (a, st)
            | Panic => Panic
            | OutOfFuel => OutOfFuel
            end.

Declare Scope go_scope.
Delimit Scope go_scope with go.
Notation "x <- m ;; k" := (bind m (fun x => k))
  (at level 61, m at next level, right associativity) : go_scope.
Notation "m ;;; k" := (bind m (fun _ => k))
  (at level 61, right associativity) : go_scope.
Notation "x <~ r ;; k" := (rbind r (fun x => k))
  (at level 61, r at next level, right associativity) : go_scope.
Open Scope go_scope.

(** ** Machine integers and slices *)

Definition wrap64 (x : Z) : Z := (x + 2 ^ 63) mod 2 ^ 64 - 2 ^ 63.

(** [l[i]] for a Go [int] index. *)
Definition index {A : Type} (l : list A) (i : Z) : result A :=
  if (0 <=? i) && (i <? Z.of_nat (length l)) then
    match nth_error l (Z.to_nat i) with
    | Some x => Done x
    | None => Panic
    end
  else Panic.

Fixpoint upd {A : Type} (l : list A) (i : nat) (x : A) : list A :=
  match l, i with
  | [], _ => []
  | _ :: tl, O => x :: tl
  | y :: tl, S i' => y :: upd tl i' x
  end.

(** [l[i] = x]. *)
Definition store {A : Type} (l : list A) (i : Z) (x : A) : result (list A) :=
  if (0 <=? i) && (i <? Z.of_nat (length l)) then Done (upd l (Z.to_nat i) x)
  else Panic.

(** [copy(dst, src)]: the first [min (len dst) (len src)] elements. *)
Definition copy_slice {A : Type} (dst src : list A) : list A :=
  firstn (length dst) src ++ skipn (length src) dst.

(** [l[d:]]. *)
Definition slice_from {A : Type} (l : list A) (d : Z) : result (list A) :=
  if (0 <=? d) && (d <=? Z.of_nat (length l)) then Done (skipn (Z.to_nat d) l)
  else Panic.

(** [0, 1, ..., n-1] as Go ints. *)
Definition upto (n : nat) : list Z := map Z.of_nat (seq 0 n).

(** ** Constants *)

Definition N : Z := 9.
Definition ALL_DIGITS : Z := 511.
Definition DIGITS : list Z :=
  [Z.shiftl 1 0; Z.shiftl 1 1; Z.shiftl 1 2; Z.shiftl 1 3; Z.shiftl 1 4;
   Z.shiftl 1 5; Z.shiftl 1 6; Z.shiftl 1 7; Z.shiftl 1 8].
Definition ROWS : list Z := [0; 1; 2; 3; 4; 5; 6; 7; 8].
Definition COLS : list Z := ROWS.
Definition BLOCKS : list (list Z) := [[0; 1; 2]; [3; 4; 5]; [6; 7; 8]].

(** A grid is the backing array of a [[]int]. *)
Definition grid : Type := list Z.

Definition cross (rows cols : list Z) : list Z :=
  flat_map (fun r => map (fun c => N * r + c) cols) rows.

Definition member (item : Z) (array : list Z) : bool :=
  existsb (fun x => x =? item) array.

(** *** The tables filled by [init] *)

Definition SQUARES : list Z := Eval vm_compute in upto 81.

Definition ALL_UNITS_init : list (list Z) :=
  map (fun r => cross [r] COLS) ROWS
  ++ map (fun c => cross ROWS [c]) COLS
  ++ flat_map (fun rb => map (fun cb => cross rb cb) BLOCKS) BLOCKS.

Definition ALL_UNITS : list (list Z) := Eval vm_compute in ALL_UNITS_init.

Definition UNITS_init (s : Z) : list (list Z) :=
  filter (fun u => member s u) ALL_UNITS.

Definition UNITS : list (list (list Z)) :=
  Eval vm_compute in map UNITS_init SQUARES.

Definition PEERS_init (s : Z) : list Z :=
  fold_left
    (fun peers s2 =>
       if negb (s2 =? s) && negb (member s2 peers) then peers ++ [s2]
       else peers)
    (concat (UNITS_init s)) [].

Definition PEERS : list (list Z) :=
  Eval vm_compute in map PEERS_init SQUARES.

(** [bits.OnesCount] on a non-negative value. *)
Fixpoint ones_pos (p : positive) : Z :=
  match p with
  | xH => 1
  | xO q => ones_pos q
  | xI q => 1 + ones_pos q
  end.

Definition OnesCount (v : Z) : Z :=
  match v with
  | Zpos p => ones_pos p
  | _ => 0
  end.

Definition NUM_DIGITS : list Z :=
  Eval vm_compute in map OnesCount (upto 512).

(** ** Constraint propagation

    [fill], [eliminate], [arcConsistent] and [dualConsistent] call each other
    and work in place on the grid they are given.  The model threads the
    backing array through [ST grid]; the boolean returned by [fill] says
    whether the Go function returned the grid ([true]) or [nil] ([false]).
    The recursive call to [fill] is the section variable [fill_rec], tied by
    [fill_fuel] below.

    [fill] also answers nil when it is handed the nil slice.  No call in the
    program does so: [initialize] passes the slice it has just made, [search]
    passes [gridpool[level][:]], and [arcConsistent] and [dualConsistent]
    pass on the grid they have just read from.  The store of the model is
    therefore always an array, and that first test of [fill] has no
    counterpart here. *)

Definition read (s : Z) : ST grid Z := fun g => lift (index g s) g.

Definition write (s : Z) (v : Z) : ST grid unit :=
  fun g => match store g s v with
           | Done g' => Done (tt, g')
           | Panic => Panic
           | OutOfFuel => OutOfFuel
           end.

Section Propagation.

Variable fill_rec : Z -> Z -> ST grid bool.

Definition arcConsistent (s : Z) : ST grid bool :=
  v <- read s ;;
  count <- lift (index NUM_DIGITS v) ;;
  if 2 <=? count then ret true
  else if count =? 1 then (v' <- read s ;; fill_rec s v')
  else ret false.

(** The inner loop of [dualConsistent]: returns [(dPlaces, dplace)]. *)
Fixpoint dual_places (u : list Z) (d dPlaces dplace : Z) : ST grid (Z * Z) :=
  match u with
  | [] => ret (dPlaces, dplace)
  | s2 :: u' =>
      v <- read s2 ;;
      if 0 <? Z.land v d then
        if 1 <? dPlaces + 1 then ret (dPlaces + 1, dplace)
        else dual_places u' d (dPlaces + 1) s2
      else dual_places u' d dPlaces dplace
  end.

Fixpoint dual_units (us : list (list Z)) (d : Z) : ST grid bool :=
  match us with
  | [] => ret true
  | u :: us' =>
      pl <- dual_places u d 0 (-1) ;;
      if fst pl =? 0 then ret false
      else if fst pl =? 1 then
        (ok <- fill_rec (snd pl) d ;;
         if ok then dual_units us' d else ret false)
      else dual_units us' d
  end.

Definition dualConsistent (s d : Z) : ST grid bool :=
  us <- lift (index UNITS s) ;;
  dual_units us d.

Definition eliminate (s d : Z) : ST grid bool :=
  v <- read s ;;
  if Z.land v d =? 0 then ret true
  else
    v1 <- read s ;;
    write s (wrap64 (v1 - d)) ;;;
    arc <- arcConsistent s ;;
    if arc then dualConsistent s d else ret false.

(** The loop of [fill] over [PEERS[s]]. *)
Fixpoint fill_peers (ps : list Z) (d : Z) : ST grid bool :=
  match ps with
  | [] => ret true
  | p :: ps' =>
      ok <- eliminate p d ;;
      if ok then fill_peers ps' d else ret false
  end.

Definition fill_body (s d : Z) : ST grid bool :=
  v <- read s ;;
  if Z.land v d =? 0 then ret false
  else
    write s d ;;;
    ps <- lift (index PEERS s) ;;
    fill_peers ps d.

End Propagation.

Fixpoint fill_fuel (n : nat) : Z -> Z -> ST grid bool :=
  match n with
  | O => fun _ _ _ => OutOfFuel
  | S n' => fill_body (fill_fuel n')
  end.

(** A grid of candidate sets holds at most [81 * 9] candidate bits, and every
    nested call of [fill] is preceded by the removal of one
    ([fill_total] below), so this much fuel is never used up. *)
Definition FUEL : nat := 730.

Definition fill (s d : Z) : ST grid bool := fill_fuel FUEL s d.

(** ** Search *)

(** A [[]int] value as [search] and [verify] see it: [nil], a slice with a
    backing array of its own (what [initialize] returns), or the slice
    [gridpool[k][:]], which shares its array with slot [k] of the pool. *)
Inductive slice : Type :=
| Nil
| Fresh (g : grid)
| Slot (k : Z).

(** What [search] mutates: the grid pool and the global counter. *)
Record world : Type := World {
  gridpool : list grid;
  backtracks : Z
}.

(** The contents of a non-nil slice. *)
Definition deref (h : slice) : ST world grid :=
  fun w => match h with
           | Nil => Panic
           | Fresh g => Done (g, w)
           | Slot k => lift (index (gridpool w) k) w
           end.

Fixpoint selectSquare_loop (ss : list Z) (g : grid) (square mint : Z)
  : result Z :=
  match ss with
  | [] => Done square
  | s :: ss' =>
      v <~ index g s ;;
      c <~ index NUM_DIGITS v ;;
      if c =? 2 then Done s
      else if (1 <? c) && (c <? mint) then selectSquare_loop ss' g s c
      else selectSquare_loop ss' g square mint
  end.

Definition selectSquare (g : grid) : result Z :=
  selectSquare_loop SQUARES g (-1) (N + 1).

(** [copy(gridpool[level][:], grid)] *)
Definition copy_to_pool (level : Z) (h : slice) : ST world unit :=
  dst <- (fun w => lift (index (gridpool w) level) w) ;;
  src <- deref h ;;
  fun w => match store (gridpool w) level (copy_slice dst src) with
           | Done p => Done (tt, World p (backtracks w))
           | Panic => Panic
           | OutOfFuel => OutOfFuel
           end.

(** [fill(gridpool[level][:], s, d)]: runs [fill] in place on the slot. *)
Definition fill_in_pool (level s d : Z) : ST world slice :=
  g <- (fun w => lift (index (gridpool w) level) w) ;;
  fun w => match fill s d g with
           | Done (ok, g') =>
               match store (gridpool w) level g' with
               | Done p => Done (if ok then Slot level else Nil,
                                 World p (backtracks w))
               | Panic => Panic
               | OutOfFuel => OutOfFuel
               end
           | Panic => Panic
           | OutOfFuel => OutOfFuel
           end.

(** [backtracks += 1] *)
Definition count_backtrack : ST world unit :=
  fun w => Done (tt, World (gridpool w) (wrap64 (backtracks w + 1))).

Section SearchLoop.

Variable search_rec : slice -> Z -> ST world slice.

(** The loop of [search] over [DIGITS]. *)
Fixpoint search_digits (ds : list Z) (h : slice) (s level : Z)
  : ST world slice :=
  match ds with
  | [] => ret Nil
  | d :: ds' =>
      g <- deref h ;;
      v <- lift (index g s) ;;
      if 0 <? Z.land d v then
        copy_to_pool level h ;;;
        filled <- fill_in_pool level s d ;;
        res <- search_rec filled (level + 1) ;;
        match res with
        | Nil => count_backtrack ;;; search_digits ds' h s level
        | _ => ret res
        end
      else search_digits ds' h s level
  end.

Definition search_body (h : slice) (level : Z) : ST world slice :=
  match h with
  | Nil => ret Nil
  | _ =>
      g <- deref h ;;
      s <- lift (selectSquare g) ;;
      if s =? -1 then ret h
      else search_digits DIGITS h s level
  end.

End SearchLoop.

Fixpoint search_fuel (n : nat) : slice -> Z -> ST world slice :=
  match n with
  | O => fun _ _ _ => OutOfFuel
  | S n' => search_body (search_fuel n')
  end.

(** Every level of the recursion determines one more of the 81 cells
    ([search_total] below). *)
Definition search (h : slice) (level : Z) : ST world slice :=
  search_fuel 82 h level.

(** ** Verification *)

Fixpoint verify_squares (ss : list Z) (g puzzle : grid) : result bool :=
  match ss with
  | [] => Done true
  | s :: ss' =>
      v <~ index g s ;;
      c <~ index NUM_DIGITS v ;;
      if negb (c =? 1) then Done false
      else
        p <~ index puzzle s ;;
        cp <~ index NUM_DIGITS p ;;
        if cp =? 1 then
          v2 <~ index g s ;;
          p2 <~ index puzzle s ;;
          if negb (v2 =? p2) then Done false
          else verify_squares ss' g puzzle
        else verify_squares ss' g puzzle
  end.

(** [for s := range u { unit_digits |= grid[s] }]: with a single loop
    variable, [range] yields the positions [0 .. len(u)-1] of [u]. *)
Fixpoint unit_or (positions : list Z) (g : grid) (unit_digits : Z)
  : result Z :=
  match positions with
  | [] => Done unit_digits
  | s :: rest =>
      v <~ index g s ;;
      unit_or rest g (Z.lor unit_digits v)
  end.

Fixpoint verify_units (us : list (list Z)) (g : grid) : result bool :=
  match us with
  | [] => Done true
  | u :: us' =>
      unit_digits <~ unit_or (upto (length u)) g 0 ;;
      if negb (unit_digits =? ALL_DIGITS) then Done false
      else verify_units us' g
  end.

(** [verify] only reads; it is given the contents of its two slices, with
    [None] for a nil [grid]. *)
Definition verify (g : option grid) (puzzle : grid) : result bool :=
  match g with
  | None => Done false
  | Some g =>
      ok <~ verify_squares SQUARES g puzzle ;;
      if ok then verify_units ALL_UNITS g else Done false
  end.

(** ** Input

    A line is taken as its sequence of code points, the slice
    [[]rune(gridString)] that [parseGrid] works on. *)

Definition rune : Type := Z.

(** The ASCII text of a Go string literal as [[]rune]. *)
Definition runes (s : String.string) : list rune :=
  map (fun c => Z.of_N (Ascii.N_of_ascii c)) (String.list_ascii_of_string s).

Definition r_0 : rune := 48.
Definition r_1 : rune := 49.
Definition r_9 : rune := 57.
Definition r_dot : rune := 46.

(** The two [errors.New] of [parseGrid], with the values they format. *)
Inductive FormatError : Type :=
| TooFewDigits (line : list rune) (digits want : Z)
| TooManyDigits (line : list rune) (want : Z).

(** The loop of [parseGrid]; [i] is the position of [r].  Returns
    [(s, d, grid)]. *)
Fixpoint parse_loop (rs : list rune) (i s d : Z) (g : grid)
  : result (Z * Z * grid) :=
  match rs with
  | [] => Done (s, d, g)
  | r :: rs' =>
      if s =? N * N then Done (s, d, g)
      else if (r_1 <=? r) && (r <=? r_9) then
        let c := r - r_0 in
        dg <~ index DIGITS (c - 1) ;;
        g' <~ store g s dg ;;
        parse_loop rs' (i + 1) (s + 1) i g'
      else if (r =? r_0) || (r =? r_dot) then
        g' <~ store g s ALL_DIGITS ;;
        parse_loop rs' (i + 1) (s + 1) i g'
      else parse_loop rs' (i + 1) s i g
  end.

(** [strings.ContainsAny(string(rs), ".0123456789")] *)
Definition ContainsAny_digits (rs : list rune) : bool :=
  existsb (fun r => (r =? r_dot) || ((r_0 <=? r) && (r <=? r_9))) rs.

(** [parseGrid] on [[]rune(gridString)]; [inl] is [(grid, nil)] and [inr] is
    [(nil, err)]. *)
Definition parseGrid (gridRunes : list rune) : result (grid + FormatError) :=
  let n2 := N * N in
  st <~ parse_loop gridRunes 0 0 0 (repeat 0 (Z.to_nat n2)) ;;
  let '(s, d, g) := st in
  let d := d + 1 in
  if s <? n2 then Done (inr (TooFewDigits gridRunes s n2))
  else
    rest <~ slice_from gridRunes d ;;
    if ContainsAny_digits rest then Done (inr (TooManyDigits gridRunes n2))
    else Done (inl g).

(** The loop of [initialize].  Beside the grid it keeps a ghost log of the
    calls of [fill] it makes: the cell, the digit and whether [fill] returned
    the grid.  The Go code drops that return value. *)
Fixpoint initialize_loop (ss : list Z) (puzzle : grid)
  (log : list (Z * Z * bool)) : ST grid (list (Z * Z * bool)) :=
  match ss with
  | [] => ret log
  | s :: ss' =>
      p <- lift (index puzzle s) ;;
      if negb (p =? ALL_DIGITS) then
        p' <- lift (index puzzle s) ;;
        ok <- fill s p' ;;
        initialize_loop ss' puzzle (log ++ [(s, p', ok)])
      else initialize_loop ss' puzzle log
  end.

Definition initialize_run (puzzle : grid)
  : result (list (Z * Z * bool) * grid) :=
  initialize_loop (upto (length SQUARES)) puzzle []
    (repeat ALL_DIGITS (Z.to_nat (N * N))).

(** [initialize]: the slice returned. *)
Definition initialize (puzzle : grid) : result slice :=
  st <~ initialize_run puzzle ;;
  Done (Fresh (snd st)).

(** The calls of [fill] made by [initialize], in order. *)
Definition initialize_calls (puzzle : grid) : result (list (Z * Z * bool)) :=
  st <~ initialize_run puzzle ;;
  Done (fst st).

(** [gridpool := make([][N * N]int, N*N)] in [solveList]. *)
Definition new_gridpool : list grid :=
  repeat (repeat 0 (Z.to_nat (N * N))) (Z.to_nat (N * N)).

(** The two lines of [solveList] that do the work, with [runSearch] on:
    [solution := initialize(grid); solution = search(solution, gridpool, 0)]. *)
Definition solve (puzzle : grid) : ST world slice :=
  solution <- lift (initialize puzzle) ;;
  search solution 0.

(** ** [reverse] and [readFile]

    [reverse] works on [[]rune(s)] and returns [string(r)]; as for
    [parseGrid], the string is taken as its sequence of code points.  The
    loop is cut off by its fuel; [reverse_is_rev] shows that the fuel given
    to it is never used up. *)
Fixpoint reverse_loop (fuel : nat) (i j : Z) (r : list rune)
  : result (list rune) :=
  match fuel with
  | O => OutOfFuel
  | S fuel' =>
      if i <? Z.quot (Z.of_nat (length r)) 2 then
        rj <~ index r j ;;
        ri <~ index r i ;;
        r1 <~ store r i rj ;;
        r2 <~ store r1 j ri ;;
        reverse_loop fuel' (i + 1) (j - 1) r2
      else Done r
  end.

Definition reverse (s : list rune) : result (list rune) :=
  reverse_loop (S (length s)) 0 (Z.of_nat (length s) - 1) s.



(** ** Output *)

(** [bits.TrailingZeros(uint(x))] on a 64-bit machine. *)
Fixpoint zeros_pos (p : positive) : Z :=
  match p with
  | xO q => 1 + zeros_pos q
  | _ => 0
  end.

Definition TrailingZeros (x : Z) : Z :=
  match x mod 2 ^ 64 with
  | Zpos p => zeros_pos p
  | _ => 64
  end.

(** [strconv.Itoa]: the decimal digits of an [int], at most 19 of them. *)
Fixpoint Itoa_digits (fuel : nat) (n : Z) (acc : list rune) : list rune :=
  match fuel with
  | O => acc
  | S fuel' =>
      let acc' := (r_0 + Z.rem n 10) :: acc in
      if n <? 10 then acc' else Itoa_digits fuel' (Z.quot n 10) acc'
  end.

Definition Itoa (n : Z) : list rune :=
  if n <? 0 then 45 :: Itoa_digits 20 (- n) [] else Itoa_digits 20 n [].

Definition r_question : rune := 63.
Definition r_space : rune := 32.
Definition r_bar : rune := 124.

(** The loop of [rowString], from square [s] up to square [hi]. *)
Fixpoint rowString_loop (fuel : nat) (s hi : Z) (g : grid) (row : list rune)
  : result (list rune) :=
  match fuel with
  | O => OutOfFuel
  | S fuel' =>
      if s <? hi then
        v <~ index g s ;;
        c <~ index NUM_DIGITS v ;;
        row1 <~ (if c =? 9 then Done (row ++ [r_dot])
                 else
                   v1 <~ index g s ;;
                   c1 <~ index NUM_DIGITS v1 ;;
                   if negb (c1 =? 1) then Done (row ++ [r_question])
                   else
                     v2 <~ index g s ;;
                     Done (row ++ Itoa (wrap64 (TrailingZeros v2 + 1)))) ;;
        let row2 :=
          if (Z.rem s 9 =? 2) || (Z.rem s 9 =? 5)
          then row1 ++ [r_space; r_bar; r_space]
          else row1 ++ [r_space] in
        rowString_loop fuel' (wrap64 (s + 1)) hi g row2
      else Done row
  end.

(** [rowString(grid, r)]; the loop runs nine times. *)
Definition rowString (g : grid) (r : Z) : result (list rune) :=
  rowString_loop 10 (wrap64 (r * 9)) (wrap64 (wrap64 (r + 1) * 9)) g [].

(** * Vocabulary of the properties *)

(** ** Candidate sets *)

(** A candidate set: nine bits. *)
Definition in_cell (x : Z) : Prop := 0 <= x <= 511.

(** [x'] is a candidate set included in the candidate set [x]. *)
Definition cell_le (x' x : Z) : Prop :=
  in_cell x' /\ in_cell x /\ Z.land x' x = x'.

(** One of the nine single-bit sets. *)
Definition is_digit (d : Z) : Prop := In d DIGITS.

(** The number of bits set among the bits 0 to 8. *)
Definition bitsum (x : Z) : Z :=
  fold_right (fun k acc => Z.b2z (Z.testbit x k) + acc) 0 (upto 9).

(** ** Grids *)

Definition in_square (s : Z) : Prop := 0 <= s < 81.

(** The candidate set in square [s]. *)
Definition cell (g : grid) (s : Z) : Z := nth (Z.to_nat s) g 0.

(** The grids of the program: 81 candidate sets. *)
Definition wf (g : grid) : Prop :=
  length g = 81%nat /\ forall i : nat, in_cell (nth i g 0).

(** [g'] has no candidate that [g] does not have. *)
Definition le_grid (g' g : grid) : Prop :=
  length g' = length g /\ forall i : nat, cell_le (nth i g' 0) (nth i g 0).

(** No cell of [g] that has a candidate is empty in [g']. *)
Definition keeps (g g' : grid) : Prop :=
  forall i : nat, nth i g 0 <> 0 -> nth i g' 0 <> 0.

Definition total_of (f : Z -> Z) (g : grid) : Z :=
  fold_right (fun x acc => f x + acc) 0 g.

(** The number of candidates left in the grid. *)
Definition bits (g : grid) : Z := total_of OnesCount g.

(** The number of cells with two candidates or more. *)
Definition open_cells (g : grid) : Z :=
  total_of (fun x => if 2 <=? OnesCount x then 1 else 0) g.

(** The number of cells with exactly one candidate. *)
Definition determined (g : grid) : Z :=
  total_of (fun x => if OnesCount x =? 1 then 1 else 0) g.

(** ** The topology tables *)

Definition squares_ok (l : list Z) : bool :=
  forallb (fun t => (0 <=? t) && (t <? 81)) l.

Fixpoint nodupb (l : list Z) : bool :=
  match l with
  | [] => true
  | x :: tl => negb (member x tl) && nodupb tl
  end.

(** ** Total correctness *)

(** [m] run from [st] ends without panic and its result satisfies [Q]. *)
Definition total {S A : Type} (m : ST S A) (st : S) (Q : A -> S -> Prop)
  : Prop :=
  exists a st', m st = Done (a, st') /\ Q a st'.

(** ** What propagation leaves *)

(** What a call [fill(grid, s, d)] leaves: [ok] tells whether the grid was
    returned, [g'] is the array afterwards. *)
Definition fill_post (g : grid) (s d : Z) (ok : bool) (g' : grid) : Prop :=
  if Z.land (cell g s) d =? 0 then ok = false /\ g' = g
  else
    le_grid g' (upd g (Z.to_nat s) d) /\
    (ok = true ->
     keeps (upd g (Z.to_nat s) d) g' /\
     forall ps p, index PEERS s = Done ps -> In p ps ->
                  Z.land (cell g' p) d = 0).

Definition elim_post (g : grid) (s d : Z) (ok : bool) (g' : grid) : Prop :=
  le_grid g' g /\ Z.land (cell g' s) d = 0 /\ (ok = true -> keeps g g').

(** [rec] behaves as [fill] on the grids with fewer than [n] candidates. *)
Definition fill_ok (n : Z) (rec : Z -> Z -> ST grid bool) : Prop :=
  forall g s d, wf g -> in_square s -> is_digit d -> bits g < n ->
    total (rec s d) g (fill_post g s d).

  (** What the scan of a unit knows about the place it found. *)
Definition place_ok (g : grid) (d dPlaces dplace : Z) : Prop :=
    dPlaces = 1 -> in_square dplace /\ Z.land (cell g dplace) d <> 0.

(** ** [selectSquare] *)

(** The number of candidates of square [t]. *)
Definition cands (g : grid) (t : Z) : Z := OnesCount (cell g t).

(** What the loop of [selectSquare] knows after the squares below [a]. *)
Definition select_inv (g : grid) (a square mint : Z) : Prop :=
  (forall t, 0 <= t < a -> cands g t <> 2) /\
  ((square = -1 /\ mint = N + 1 /\ forall t, 0 <= t < a -> cands g t <= 1) \/
   (0 <= square < a /\ cands g square = mint /\ 2 <= mint /\
    (forall t, 0 <= t < a -> 2 <= cands g t -> mint <= cands g t) /\
    (forall t, 0 <= t < square -> 2 <= cands g t -> mint < cands g t))).

(** The square [selectSquare] answers with. *)
Definition selected (g : grid) (r : Z) : Prop :=
  (r = -1 /\ forall t, in_square t -> cands g t <= 1) \/
  (in_square r /\ 2 <= cands g r /\
   (forall t, in_square t -> 2 <= cands g t -> cands g r <= cands g t) /\
   (forall t, in_square t -> t < r -> 2 <= cands g t -> cands g r < cands g t)).

(** ** The grid pool *)

(** The pool of [solveList]: 81 arrays of 81 cells. *)
Definition pool_ok (w : world) : Prop :=
  length (gridpool w) = 81%nat /\
  forall k : nat, (k < 81)%nat -> length (nth k (gridpool w) []) = 81%nat.

Definition slot (w : world) (k : Z) : grid := nth (Z.to_nat k) (gridpool w) [].

(** At recursion level [level], the slice [h] holds [g] and does not share its
    array with a pool slot from [level] on. *)
Definition holds (w : world) (h : slice) (level : Z) (g : grid) : Prop :=
  match h with
  | Nil => False
  | Fresh g0 => g0 = g
  | Slot k => 0 <= k < level /\ slot w k = g
  end.

(** The slots below [level] are untouched. *)
Definition same_below (level : Z) (w w' : world) : Prop :=
  forall k, 0 <= k < level -> slot w' k = slot w k.

Definition set_slot (w : world) (k : Z) (g : grid) : world :=
  World (upd (gridpool w) (Z.to_nat k) g) (backtracks w).

(** ** Refinement *)

(** Whatever [m] returns, [m'] returns as well. *)
Definition refines {S A : Type} (m m' : ST S A) : Prop :=
  forall st r, m st = Done r -> m' st = Done r.

(** ** [search] as the specification words it *)

(** The candidate digits of square [s], in increasing digit order. *)
Definition spec_candidates (g : grid) (s : Z) : list Z :=
  filter (fun d => 0 <? Z.land d (cell g s)) DIGITS.

(** Copy the current grid into the pool slot of this depth. *)
Definition spec_copy (level : Z) (g : grid) : ST world unit :=
  fun w => match store (gridpool w) level g with
           | Done p => Done (tt, World p (backtracks w))
           | Panic => Panic
           | OutOfFuel => OutOfFuel
           end.

(** Call Fill on the pool slot of this depth: afterwards the slot holds the
    grid as Fill has left it, and the working grid is that slot, or no grid
    when Fill has failed. *)
Definition spec_fill (level s d : Z) : ST world slice :=
  fun w =>
    st <~ fill s d (slot w level) ;;
    Done (if fst st then Slot level else Nil, set_slot w level (snd st)).

(** Increment the global backtrack counter, a Go [int]. *)
Definition spec_count : ST world unit :=
  fun w => Done (tt, World (gridpool w) (wrap64 (backtracks w + 1))).

Section SearchSpec.

Variable explore : slice -> Z -> ST world slice.

(** For each candidate [d]: copy the grid into the slot, fill there; if the
    fill succeeds explore the next depth on that slot, and hand a solution up
    at once; otherwise count a backtrack and try the next candidate.  With no
    candidate left, report failure. *)
Fixpoint spec_try_candidates (cs : list Z) (g : grid) (s level : Z)
  : ST world slice :=
  match cs with
  | [] => ret Nil
  | d :: cs' =>
      spec_copy level g ;;;
      filled <- spec_fill level s d ;;
      res <- match filled with
             | Nil => ret Nil
             | _ => explore filled (level + 1)
             end ;;
      match res with
      | Nil => spec_count ;;; spec_try_candidates cs' g s level
      | _ => ret res
      end
  end.

End SearchSpec.

(** ** What [search] leaves *)

(** What [search] called on a slice holding [g] leaves. *)
Definition search_post (g : grid) (level : Z) (w : world) (r : slice)
  (w' : world) : Prop :=
  pool_ok w' /\ same_below level w w' /\
  (r = Nil \/
   exists g', deref r w' = Done (g', w') /\ le_grid g' g /\ open_cells g' = 0).

(** [rec] behaves as [search] on the grids with fewer than [n] open cells. *)
Definition search_ok (n : Z) (rec : slice -> Z -> ST world slice) : Prop :=
  (0 < n -> forall level w, rec Nil level w = Done (Nil, w)) /\
  forall h level w g,
    pool_ok w -> holds w h level g -> wf g -> 0 <= level ->
    level + open_cells g <= 81 -> open_cells g < n ->
    total (rec h level) w (search_post g level w).

(** ** [parseGrid] *)

(** The characters that count: the digits ['1'-'9'] and the blanks ['0'], ['.']. *)
Definition meaningful (r : rune) : bool :=
  ((r_1 <=? r) && (r <=? r_9)) || ((r =? r_0) || (r =? r_dot)).

(** The candidate set a meaningful character stands for. *)
Definition cell_of_rune (r : rune) : Z :=
  if (r_1 <=? r) && (r <=? r_9) then Z.shiftl 1 (r - r_1) else ALL_DIGITS.

Definition meaningful_count (rs : list rune) : nat :=
  length (filter meaningful rs).

(** What follows the [k]-th meaningful character of [rs]. *)
Fixpoint rest_after (rs : list rune) (k : nat) : list rune :=
  match rs with
  | [] => []
  | r :: rs' =>
      match k with
      | O => rs
      | S k' => if meaningful r then rest_after rs' k' else rest_after rs' k
      end
  end.

(** The value of [d] when the loop of [parseGrid] ends: the position of the
    last character looked at, if any. *)
Definition last_pos (rs : list rune) (k : nat) (i d : Z) : Z :=
  match k, rs with
  | O, _ => d
  | _, [] => d
  | _, _ => i + Z.of_nat (length rs - length (rest_after rs k)) - 1
  end.

(** ** [initialize] *)

(** A puzzle as [parseGrid] makes it: 81 cells, each one digit or blank. *)
Definition puzzle_ok (p : grid) : Prop :=
  length p = 81%nat /\
  forall s, in_square s -> is_digit (cell p s) \/ cell p s = ALL_DIGITS.

(** The squares the puzzle gives a digit for. *)
Definition given (p : grid) (s : Z) : bool := negb (cell p s =? ALL_DIGITS).

(** ** [verify] *)

(** The test [verify] makes on every square. *)
Definition square_ok (g p : grid) (s : Z) : bool :=
  (cands g s =? 1) && (negb (cands p s =? 1) || (cell g s =? cell p s)).

(** What the inner loop of [verify] computes for a unit of [n] squares: the
    union of the cells [0 .. n-1] of the grid. *)
Definition first_cells_or (n : nat) (g : grid) : Z :=
  fold_left (fun acc s => Z.lor acc (cell g s)) (upto n) 0.

(** The union of the cells of the unit [u]. *)
Definition unit_union (g : grid) (u : list Z) : Z :=
  fold_left (fun acc s => Z.lor acc (cell g s)) u 0.

(** ** Checks that run *)

Definition wfb (g : grid) : bool :=
  (length g =? 81)%nat && forallb (fun x => (0 <=? x) && (x <=? 511)) g.

Definition puzzleb (p : grid) : bool :=
  (length p =? 81)%nat && forallb (fun x => member x DIGITS || (x =? ALL_DIGITS)) p.

(** ** Solved grids *)

(** A solved grid: every cell holds one digit and every one of the 27 units
    holds all nine digits. *)
Definition solved (g : grid) : Prop :=
  wf g /\ (forall s, in_square s -> is_digit (cell g s)) /\
  forall u, In u ALL_UNITS -> unit_union g u = ALL_DIGITS.

(** [sol] is a solution of the puzzle [p]: a solved grid that shows the
    digit of every given square. *)
Definition solves (sol p : grid) : Prop := solved sol /\ le_grid sol p.

(** No square holds the same value as one of its peers. *)
Definition distinct_peers (g : grid) : Prop :=
  forall s ps p, in_square s -> index PEERS s = Done ps -> In p ps ->
                 cell g p <> cell g s.

(** No square is left without a candidate. *)
Definition nonempty (g : grid) : Prop :=
  forall s, in_square s -> cell g s <> 0.

(** The value of square [t] is a candidate of none of its peers. *)
Definition propagated (g : grid) (t : Z) : Prop :=
  forall ps p, index PEERS t = Done ps -> In p ps ->
               Z.land (cell g p) (cell g t) = 0.

(** Every determined square has been propagated to its peers. *)
Definition consistent (g : grid) : Prop :=
  forall t, in_square t -> cands g t = 1 -> propagated g t.

(** Every square determined in [g'] was determined in [g] already or is
    propagated in [g']. *)
Definition settles (g g' : grid) : Prop :=
  forall t, in_square t -> cands g' t = 1 -> cands g t = 1 \/ propagated g' t.

(** The same after a [fill] of square [s], which is propagated whatever it
    was before. *)
Definition fill_settles (g : grid) (s : Z) (g' : grid) : Prop :=
  forall t, in_square t -> cands g' t = 1 ->
            (t <> s /\ cands g t = 1) \/ propagated g' t.

Definition solvedb (g : grid) : bool :=
  wfb g && forallb (fun s => member (cell g s) DIGITS) SQUARES
  && forallb (fun u => unit_union g u =? ALL_DIGITS) ALL_UNITS.

(** What the scan of a unit [u] for the places of [d] has found. *)
Definition place_exact (g : grid) (u : list Z) (d : Z) (pl : Z * Z) : Prop :=
  (fst pl = 0 -> forall t, In t u -> Z.land (cell g t) d = 0) /\
  (fst pl = 1 ->
   In (snd pl) u /\ Z.land (cell g (snd pl)) d <> 0 /\
   forall t, In t u -> Z.land (cell g t) d <> 0 -> t = snd pl).

(** What a call [fill(grid, s, d)] leaves, in full: beside [fill_post], a
    successful call settles the squares it has determined, and a call that
    agrees with a solved grid inside [g] succeeds and keeps that grid. *)
Definition fill_facts (g : grid) (s d : Z) (ok : bool) (g' : grid) : Prop :=
  fill_post g s d ok g' /\
  (ok = true -> fill_settles g s g') /\
  (forall sol, solved sol -> le_grid sol g -> cell sol s = d ->
               ok = true /\ le_grid sol g').

Definition fill_knows (n : Z) (rec : Z -> Z -> ST grid bool) : Prop :=
  forall g s d, wf g -> in_square s -> is_digit d -> bits g < n ->
    total (rec s d) g (fill_facts g s d).

(** ** Search on private copies

    The reference the pool-based [search] is compared with: the same
    backtracking, but every level works on a grid of its own and nothing is
    shared. *)

Section PlainSearch.

Variable explore : grid -> result (option grid).

Fixpoint plain_try (cs : list Z) (g : grid) (s : Z) : result (option grid) :=
  match cs with
  | [] => Done None
  | d :: cs' =>
      st <~ fill s d g ;;
      r <~ (if fst st then explore (snd st) else Done None) ;;
      match r with
      | Some sol => Done (Some sol)
      | None => plain_try cs' g s
      end
  end.

Definition plain_body (g : grid) : result (option grid) :=
  s <~ selectSquare g ;;
  if s =? -1 then Done (Some g) else plain_try (spec_candidates g s) g s.

End PlainSearch.

Fixpoint plain_search (n : nat) : grid -> result (option grid) :=
  match n with
  | O => fun _ => OutOfFuel
  | S n' => plain_body (plain_search n')
  end.

(** The grid a slice shows, if it is not nil. *)
Definition contents (r : slice) (w : world) : option grid :=
  match r with
  | Nil => None
  | Fresh g => Some g
  | Slot k => Some (slot w k)
  end.

(** [rec] returns what [explore] returns on the grid it is given. *)
Definition search_as (n : Z) (rec : slice -> Z -> ST world slice)
  (explore : grid -> result (option grid)) : Prop :=
  forall h level w g r w',
    pool_ok w -> holds w h level g -> wf g -> 0 <= level ->
    level + open_cells g <= 81 -> open_cells g < n ->
    rec h level w = Done (r, w') -> explore g = Done (contents r w').

(** Every [fill] of the log returned the grid. *)
Definition all_ok (log : list (Z * Z * bool)) : Prop :=
  forallb (fun e => snd e) log = true.

(** ** Rows, columns and blocks *)

(** The squares of the row, the column and the block of [s], [s] apart. *)
Definition shares_unit (s p : Z) : bool :=
  negb (p =? s) &&
  ((p / 9 =? s / 9) || (p mod 9 =? s mod 9)
   || ((p / 27 =? s / 27) && ((p mod 9) / 3 =? (s mod 9) / 3))).

Definition insideb (g' g : grid) : bool :=
  wfb g' && wfb g &&
  forallb (fun s => Z.land (cell g' s) (cell g s) =? cell g' s) SQUARES.

(** [l] holds exactly the squares that satisfy [P]. *)
Definition squares_where (P : Z -> bool) (l : list Z) : bool :=
  squares_ok l && forallb (fun t => Bool.eqb (member t l) (P t)) SQUARES.

(** ** Lines of text *)

(** What [parseGrid] answers for a line, by its meaningful characters. *)
Definition parse_answer (l : list rune) : grid + FormatError :=
  if (meaningful_count l <? 81)%nat
  then inr (TooFewDigits l (Z.of_nat (meaningful_count l)) 81)
  else if (81 <? meaningful_count l)%nat
       then inr (TooManyDigits l 81)
       else inl (map cell_of_rune (filter meaningful l)).


(** What the reversing loop has done after [i] rounds. *)
Definition reversed_to (s r : list rune) (i : Z) : Prop :=
  length r = length s /\
  forall t : nat, (t < length s)%nat ->
    nth t r 0
    = if (Z.of_nat t <? i) || (Z.of_nat (length s) - i <=? Z.of_nat t)
      then nth (length s - S t) s 0
      else nth t s 0.

(** The nine rows of a grid as [rowString] writes them, one after the
    other. *)
Fixpoint rows_text (rs : list Z) (g : grid) : result (list rune) :=
  match rs with
  | [] => Done []
  | r :: rs' =>
      row <~ rowString g r ;;
      rest <~ rows_text rs' g ;;
      Done (row ++ rest)
  end.

(** The character [rowString] writes for a cell of a puzzle. *)
Definition rune_of_cell (x : Z) : rune :=
  if x =? ALL_DIGITS then r_dot else r_0 + TrailingZeros x + 1.

(** ** Definitions for the claims *)

(** The example puzzle and its solution, as lines of text. *)
Definition puzzle1 : String.string :=
  "003020600900305001001806400008102900700000008006708200002609500800203009005010300"%string.

Definition solution1 : String.string :=
  "483921657967345821251876493548132976729564138136798245372689514814253769695417382"%string.

(** The grid [parseGrid] makes of a line it accepts. *)
Definition parsed (s : String.string) : grid :=
  match parseGrid (runes s) with
  | Done (inl g) => g
  | _ => []
  end.

(** *** C1 *)

(** The verifier as the specification words it: every cell has one digit,
    the givens are kept, and the cells of each of the 27 units together hold
    all nine digits. *)
Definition spec_verify (g p : grid) : bool :=
  forallb (fun s => cands g s =? 1) SQUARES
  && forallb (fun s => negb (cands p s =? 1) || (cell g s =? cell p s)) SQUARES
  && forallb (fun u => unit_union g u =? ALL_DIGITS) ALL_UNITS.

(** Nine rows that each read 1 2 3 4 5 6 7 8 9: every column repeats one
    digit nine times. *)
Definition rows_1_to_9 : grid := concat (repeat DIGITS 9).

Definition blank_puzzle : grid := repeat ALL_DIGITS 81.

(** *** C2 *)

(** The claim: when a [fill] of [initialize] fails, no later [fill] is
    attempted and the nil slice is returned. *)
Definition halts_when_fill_fails (p : grid) : Prop :=
  forall log before s d after,
    initialize_calls p = Done log ->
    log = before ++ (s, d, false) :: after ->
    after = [] /\ initialize p = Done Nil.

(** The puzzle [1 1 2] followed by 78 blanks. *)
Definition puzzle_112 : grid :=
  [1; 1; 2] ++ repeat ALL_DIGITS 78.

(** *** C3 *)

(** The solved grid of the example with its second digit, an 8, replaced by
    a second 4: two 4s in the first row. *)
Definition puzzle_two_fours : string :=
  "443921657967345821251876493548132976729564138136798245372689514814253769695417382".

(** *** C4 *)

(** A character among ['0'-'9'] or ['.']. *)
Definition digit_or_blank (r : rune) : Prop := r = r_dot \/ r_0 <= r <= r_9.

(** *** C8 *)

(** Eliminate [d] from the squares [ps] in turn: the first elimination that
    fails ends the loop with a failure; at the end of the list the grid is
    returned. *)
Fixpoint spec_eliminate_each (ps : list Z) (d : Z) (g : grid)
  : result (bool * grid) :=
  match ps with
  | [] => Done (true, g)
  | p :: ps' =>
      st <~ eliminate fill p d g ;;
      if fst st then spec_eliminate_each ps' d (snd st)
      else Done (false, snd st)
  end.

(** Fill as the claim words it: fail when [d] is not a candidate of [s];
    otherwise set the cell to exactly [d] and eliminate [d] from the peers
    of [s]. *)
Definition spec_fill_cell (s d : Z) (g : grid) : result (bool * grid) :=
  if Z.land (cell g s) d =? 0 then Done (false, g)
  else
    ps <~ index PEERS s ;;
    spec_eliminate_each ps d (upd g (Z.to_nat s) d).

(** *** C9 *)

(** The digit a determined cell shows (as [rowString] prints it), 0 for a
    cell that is not determined. *)
Definition digit_of_cell (x : Z) : Z :=
  if OnesCount x =? 1 then Z.log2 x + 1 else 0.

Definition digits_of_string (s : string) : list Z :=
  map (fun r => r - r_0) (runes s).

(** * Properties *)

(** ** Slices *)

Lemma index_Done (A : Type) (l : list A) (i : Z) (dflt : A) :
  0 <= i < Z.of_nat (length l) ->
  index l i = Done (nth (Z.to_nat i) l dflt).
Proof.
  intros Hi. unfold index.
  replace ((0 <=? i) && (i <? Z.of_nat (length l))) with true
    by (symmetry; apply andb_true_iff; split; [apply Z.leb_le | apply Z.ltb_lt]; lia).
  destruct (nth_error l (Z.to_nat i)) as [x|] eqn:E.
  - f_equal. symmetry. apply nth_error_nth. exact E.
  - apply nth_error_None in E. lia.
Qed.

Lemma store_Done (A : Type) (l : list A) (i : Z) (x : A) :
  0 <= i < Z.of_nat (length l) ->
  store l i x = Done (upd l (Z.to_nat i) x).
Proof.
  intros Hi. unfold store.
  replace ((0 <=? i) && (i <? Z.of_nat (length l))) with true
    by (symmetry; apply andb_true_iff; split; [apply Z.leb_le | apply Z.ltb_lt]; lia).
  reflexivity.
Qed.

Lemma length_upd (A : Type) (l : list A) (i : nat) (x : A) :
  length (upd l i x) = length l.
Proof.
  revert i. induction l as [|y l IH]; intros i; [reflexivity|].
  destruct i; simpl; [reflexivity | now rewrite IH].
Qed.

Lemma nth_upd_same (A : Type) (l : list A) (i : nat) (x dflt : A) :
  (i < length l)%nat -> nth i (upd l i x) dflt = x.
Proof.
  revert i. induction l as [|y l IH]; intros i Hi; simpl in Hi; [lia|].
  destruct i; simpl; [reflexivity | apply IH; lia].
Qed.

Lemma nth_upd_other (A : Type) (l : list A) (i j : nat) (x dflt : A) :
  i <> j -> nth j (upd l i x) dflt = nth j l dflt.
Proof.
  revert i j. induction l as [|y l IH]; intros i j Hij; [reflexivity|].
  destruct i, j; simpl; try reflexivity; try lia.
  apply IH. lia.
Qed.

Lemma copy_slice_same_length (A : Type) (dst src : list A) :
  length dst = length src -> copy_slice dst src = src.
Proof.
  intros H. unfold copy_slice. rewrite H, firstn_all, skipn_all2 by lia.
  apply app_nil_r.
Qed.

(** Checking a property of all small numbers by running it. *)
Lemma upto_all (n : nat) (P : Z -> bool) :
  forallb P (upto n) = true ->
  forall x, 0 <= x < Z.of_nat n -> P x = true.
Proof.
  intros H x Hx. rewrite forallb_forall in H. apply H.
  unfold upto. apply in_map_iff. exists (Z.to_nat x). split; [lia|].
  apply in_seq. lia.
Qed.

Lemma In_upto (n : nat) (x : Z) : In x (upto n) <-> 0 <= x < Z.of_nat n.
Proof.
  unfold upto. rewrite in_map_iff. split.
  - intros [k [<- Hk]]. apply in_seq in Hk. lia.
  - intros Hx. exists (Z.to_nat x). split; [lia|]. apply in_seq. lia.
Qed.

(** ** Candidate sets

    A candidate set is a number in [0, 511].  The facts about single cells
    are finite, and are checked by running them over all candidate sets. *)

Lemma in_cell_upto (x : Z) : in_cell x -> 0 <= x < Z.of_nat 512.
Proof. unfold in_cell. lia. Qed.

Lemma num_digits_at (x : Z) :
  in_cell x -> index NUM_DIGITS x = Done (OnesCount x).
Proof.
  intros Hx.
  assert (H := @upto_all 512
    (fun x => match index NUM_DIGITS x with
              | Done c => c =? OnesCount x
              | _ => false
              end) ltac:(vm_compute; reflexivity) x (in_cell_upto Hx)).
  cbv beta in H. destruct (index NUM_DIGITS x); try discriminate.
  apply Z.eqb_eq in H. now subst.
Qed.

Lemma ones_range (x : Z) : in_cell x -> 0 <= OnesCount x <= 9.
Proof.
  intros Hx.
  assert (H := @upto_all 512
    (fun x => (0 <=? OnesCount x) && (OnesCount x <=? 9))
    ltac:(vm_compute; reflexivity) x (in_cell_upto Hx)).
  cbv beta in H. apply andb_true_iff in H. destruct H as [H1 H2].
  apply Z.leb_le in H1. apply Z.leb_le in H2. lia.
Qed.

Lemma ones_zero (x : Z) : in_cell x -> OnesCount x = 0 -> x = 0.
Proof.
  intros Hx.
  assert (H := @upto_all 512
    (fun x => negb (OnesCount x =? 0) || (x =? 0))
    ltac:(vm_compute; reflexivity) x (in_cell_upto Hx)).
  cbv beta in H. intros E. rewrite E in H.
  change (negb (0 =? 0) || (x =? 0)) with (x =? 0) in H.
  now apply Z.eqb_eq in H.
Qed.

Lemma ones_one (x : Z) : in_cell x -> OnesCount x = 1 -> is_digit x.
Proof.
  intros Hx.
  assert (H := @upto_all 512
    (fun x => negb (OnesCount x =? 1) || member x DIGITS)
    ltac:(vm_compute; reflexivity) x (in_cell_upto Hx)).
  cbv beta in H. intros E. rewrite E in H.
  change (negb (1 =? 1) || member x DIGITS) with (member x DIGITS) in H.
  unfold member in H. apply existsb_exists in H.
  destruct H as [y [Hy Hxy]]. apply Z.eqb_eq in Hxy. now subst.
Qed.

Lemma digit_facts (d : Z) :
  is_digit d -> in_cell d /\ OnesCount d = 1 /\ d <> 0.
Proof.
  unfold is_digit, in_cell.
  intros H. simpl in H.
  repeat (destruct H as [H|H]; [subst d; cbn; repeat split; lia|]).
  contradiction.
Qed.

(** Removing a candidate that is present: what [grid[s] -= d] does. *)
Lemma drop_digit (x d : Z) :
  in_cell x -> is_digit d -> Z.land x d <> 0 ->
  in_cell (x - d) /\ wrap64 (x - d) = x - d /\
  Z.land (x - d) x = x - d /\ Z.land (x - d) d = 0 /\
  OnesCount (x - d) = OnesCount x - 1 /\
  Z.land d x = d /\ 0 < Z.land x d /\ 0 < Z.land d x.
Proof.
  intros Hx Hd Hn.
  assert (H := @upto_all 512
    (fun x => forallb (fun d =>
       (Z.land x d =? 0) ||
       ((0 <=? x - d) && (x - d <=? 511) && (wrap64 (x - d) =? x - d)
        && (Z.land (x - d) x =? x - d) && (Z.land (x - d) d =? 0)
        && (OnesCount (x - d) =? OnesCount x - 1)
        && (Z.land d x =? d) && (0 <? Z.land x d) && (0 <? Z.land d x)))
       DIGITS)
    ltac:(vm_compute; reflexivity) x (in_cell_upto Hx)).
  cbv beta in H. rewrite forallb_forall in H. specialize (H d Hd).
  apply orb_true_iff in H. destruct H as [H|H].
  - apply Z.eqb_eq in H. contradiction.
  - repeat (apply andb_true_iff in H; destruct H as [H ?]).
    repeat match goal with
           | E : (_ =? _) = true |- _ => apply Z.eqb_eq in E
           | E : (_ <=? _) = true |- _ => apply Z.leb_le in E
           | E : (_ <? _) = true |- _ => apply Z.ltb_lt in E
           end.
    unfold in_cell. repeat split; assumption || lia.
Qed.

(** A candidate set inside [{d}] is empty or [{d}]. *)
Lemma below_digit (x d : Z) :
  in_cell x -> is_digit d -> Z.land x d = x -> x = 0 \/ x = d.
Proof.
  intros Hx Hd.
  assert (H := @upto_all 512
    (fun x => forallb (fun d =>
       negb (Z.land x d =? x) || (x =? 0) || (x =? d)) DIGITS)
    ltac:(vm_compute; reflexivity) x (in_cell_upto Hx)).
  cbv beta in H. rewrite forallb_forall in H. specialize (H d Hd).
  intros E. rewrite E, Z.eqb_refl in H.
  change (negb true || (x =? 0) || (x =? d)) with ((x =? 0) || (x =? d)) in H.
  apply orb_true_iff in H. destruct H as [H|H]; apply Z.eqb_eq in H; auto.
Qed.

Lemma ones_bitsum (x : Z) : in_cell x -> OnesCount x = bitsum x.
Proof.
  intros Hx.
  assert (H := @upto_all 512 (fun x => OnesCount x =? bitsum x)
    ltac:(vm_compute; reflexivity) x (in_cell_upto Hx)).
  now apply Z.eqb_eq in H.
Qed.

Lemma cell_le_ones (x' x : Z) : cell_le x' x -> OnesCount x' <= OnesCount x.
Proof.
  intros (Hx' & Hx & E).
  rewrite (ones_bitsum Hx'), (ones_bitsum Hx). unfold bitsum.
  assert (Hk : forall k, Z.b2z (Z.testbit x' k) <= Z.b2z (Z.testbit x k)).
  { intros k. rewrite <- E at 1. rewrite Z.land_spec.
    destruct (Z.testbit x' k), (Z.testbit x k); simpl; lia. }
  induction (upto 9) as [|k ks IH]; simpl; [lia|].
  specialize (Hk k). lia.
Qed.

Lemma cell_le_refl (x : Z) : in_cell x -> cell_le x x.
Proof. intros H. repeat split; try apply H. apply Z.land_diag. Qed.

Lemma cell_le_trans (x y z : Z) : cell_le x y -> cell_le y z -> cell_le x z.
Proof.
  intros (Hx & _ & Exy) (_ & Hz & Eyz). repeat split; try apply Hx; try apply Hz.
  rewrite <- Exy at 1. rewrite <- Z.land_assoc, Eyz. exact Exy.
Qed.

Lemma cell_le_without (x y d : Z) :
  cell_le x y -> Z.land y d = 0 -> Z.land x d = 0.
Proof.
  intros (_ & _ & E) H. rewrite <- E, <- Z.land_assoc, H. apply Z.land_0_r.
Qed.

(** ** Grids *)

Lemma in_cell_0 : in_cell 0.
Proof. unfold in_cell. lia. Qed.

Lemma wf_cell (g : grid) (s : Z) : wf g -> in_cell (cell g s).
Proof. intros [_ H]. apply H. Qed.

Lemma wf_upd (g : grid) (i : nat) (v : Z) :
  wf g -> in_cell v -> wf (upd g i v).
Proof.
  intros [Hl Hc] Hv. split; [now rewrite length_upd|].
  intros j. destruct (Nat.eq_dec i j) as [->|Hij].
  - destruct (Nat.lt_ge_cases j (length g)).
    + now rewrite nth_upd_same.
    + rewrite nth_overflow; [apply in_cell_0 | now rewrite length_upd].
  - rewrite nth_upd_other by assumption. apply Hc.
Qed.

Lemma wf_repeat (v : Z) : in_cell v -> wf (repeat v 81).
Proof.
  intros Hv. split; [apply repeat_length|].
  intros i. destruct (nth_in_or_default i (repeat v 81) 0) as [H|H].
  - apply repeat_spec in H. now rewrite H.
  - rewrite H. apply in_cell_0.
Qed.

Lemma read_spec (g : grid) (s : Z) :
  wf g -> in_square s -> read s g = Done (cell g s, g).
Proof.
  intros [Hl _] Hs. unfold read, cell.
  rewrite (@index_Done _ g s 0) by (unfold in_square in Hs; lia).
  reflexivity.
Qed.

Lemma write_spec (g : grid) (s v : Z) :
  wf g -> in_square s -> write s v g = Done (tt, upd g (Z.to_nat s) v).
Proof.
  intros [Hl _] Hs. unfold write.
  rewrite store_Done by (unfold in_square in Hs; lia). reflexivity.
Qed.

Lemma cell_upd_same (g : grid) (s v : Z) :
  wf g -> in_square s -> cell (upd g (Z.to_nat s) v) s = v.
Proof.
  intros [Hl _] Hs. unfold cell. apply nth_upd_same.
  unfold in_square in Hs. lia.
Qed.

Lemma le_grid_refl (g : grid) : wf g -> le_grid g g.
Proof. intros [_ H]. split; [reflexivity|]. intros i. apply cell_le_refl, H. Qed.

Lemma le_grid_trans (g1 g2 g3 : grid) :
  le_grid g1 g2 -> le_grid g2 g3 -> le_grid g1 g3.
Proof.
  intros [L1 H1] [L2 H2]. split; [congruence|].
  intros i. eapply cell_le_trans; [apply H1 | apply H2].
Qed.

Lemma le_grid_wf (g' g : grid) : le_grid g' g -> wf g -> wf g'.
Proof.
  intros [L H] [Hl _]. split; [congruence|]. intros i. apply (H i).
Qed.

Lemma le_grid_cell (g' g : grid) (s : Z) :
  le_grid g' g -> cell_le (cell g' s) (cell g s).
Proof. intros [_ H]. apply H. Qed.

Lemma le_grid_upd (g : grid) (i : nat) (v : Z) :
  wf g -> cell_le v (nth i g 0) -> le_grid (upd g i v) g.
Proof.
  intros Hwf Hv. split; [apply length_upd|].
  intros j. destruct (Nat.eq_dec i j) as [->|Hij].
  - destruct (Nat.lt_ge_cases j (length g)).
    + now rewrite nth_upd_same.
    + rewrite (nth_overflow g) by lia.
      rewrite nth_overflow by (rewrite length_upd; lia).
      apply cell_le_refl, in_cell_0.
  - rewrite nth_upd_other by assumption. apply cell_le_refl, Hwf.
Qed.

Lemma keeps_refl (g : grid) : keeps g g.
Proof. intros i H. exact H. Qed.

Lemma keeps_trans (g1 g2 g3 : grid) : keeps g1 g2 -> keeps g2 g3 -> keeps g1 g3.
Proof. intros H1 H2 i H. apply H2, H1, H. Qed.

Lemma keeps_upd (g : grid) (i : nat) (v : Z) :
  v <> 0 -> keeps g (upd g i v).
Proof.
  intros Hv j Hj. destruct (Nat.eq_dec i j) as [->|Hij].
  - destruct (Nat.lt_ge_cases j (length g)).
    + now rewrite nth_upd_same.
    + rewrite nth_overflow in Hj by lia. contradiction.
  - now rewrite nth_upd_other.
Qed.

(** *** Sums over the cells *)

Lemma total_of_le (f : Z -> Z) (g' g : grid) :
  length g' = length g ->
  (forall i : nat, (i < length g)%nat -> f (nth i g' 0) <= f (nth i g 0)) ->
  total_of f g' <= total_of f g.
Proof.
  revert g. induction g' as [|x' g' IH]; intros [|x g] L H;
    try discriminate; simpl; try lia.
  assert (H0 := H 0%nat ltac:(simpl; lia)). simpl in H0.
  assert (IH' : total_of f g' <= total_of f g).
  { apply IH; [simpl in L; lia|]. intros i Hi.
    apply (H (S i)). simpl. lia. }
  lia.
Qed.

Lemma total_of_lt (f : Z -> Z) (g' g : grid) (k : nat) :
  length g' = length g ->
  (forall i : nat, (i < length g)%nat -> f (nth i g' 0) <= f (nth i g 0)) ->
  (k < length g)%nat -> f (nth k g' 0) < f (nth k g 0) ->
  total_of f g' < total_of f g.
Proof.
  revert g k. induction g' as [|x' g' IH]; intros [|x g] k L H Hk Hlt;
    try discriminate; simpl in *; try lia.
  assert (H0 := H 0%nat ltac:(lia)). simpl in H0.
  assert (Hrest : forall i, (i < length g)%nat -> f (nth i g' 0) <= f (nth i g 0)).
  { intros i Hi. apply (H (S i)). lia. }
  destruct k as [|k].
  - assert (total_of f g' <= total_of f g) by (apply total_of_le; [lia | exact Hrest]).
    lia.
  - assert (total_of f g' < total_of f g).
    { apply (IH g k); [lia | exact Hrest | lia | exact Hlt]. }
    lia.
Qed.

Lemma total_of_bound (f : Z -> Z) (g : grid) (hi : Z) :
  (forall i : nat, 0 <= f (nth i g 0) <= hi) ->
  0 <= total_of f g <= hi * Z.of_nat (length g).
Proof.
  induction g as [|x g IH]; intros H; simpl; [lia|].
  assert (H0 := H 0%nat). simpl in H0.
  assert (IH' := IH (fun i => H (S i))). lia.
Qed.

Lemma bits_le (g' g : grid) : le_grid g' g -> bits g' <= bits g.
Proof.
  intros [L H]. apply total_of_le; [exact L|].
  intros i _. apply cell_le_ones, H.
Qed.

Lemma bits_bound (g : grid) : wf g -> 0 <= bits g <= 729.
Proof.
  intros [L H].
  assert (B := @total_of_bound OnesCount g 9 (fun i => ones_range (H i))).
  fold (bits g) in B. rewrite L in B. lia.
Qed.

Lemma bits_drop (g : grid) (s v : Z) :
  wf g -> in_square s -> cell_le v (cell g s) ->
  OnesCount v < OnesCount (cell g s) ->
  bits (upd g (Z.to_nat s) v) < bits g.
Proof.
  intros Hwf Hs Hv Hlt. destruct Hwf as [L Hc].
  assert (Hk : (Z.to_nat s < length g)%nat) by (unfold in_square in Hs; lia).
  apply (@total_of_lt OnesCount _ g (Z.to_nat s)).
  - apply length_upd.
  - intros i _. apply cell_le_ones.
    apply (proj2 (@le_grid_upd g (Z.to_nat s) v (conj L Hc) Hv)).
  - exact Hk.
  - rewrite nth_upd_same by exact Hk. exact Hlt.
Qed.

Lemma open_cells_lt (g' g : grid) (s : Z) :
  le_grid g' g -> in_square s -> length g = 81%nat ->
  OnesCount (cell g' s) <= 1 -> 2 <= OnesCount (cell g s) ->
  open_cells g' < open_cells g.
Proof.
  intros [L H] Hs Hl H1 H2.
  apply (@total_of_lt _ g' g (Z.to_nat s)); [exact L | |
    unfold in_square in Hs; lia |].
  - intros i _. assert (Hi := cell_le_ones (H i)).
    destruct (Z.leb_spec 2 (OnesCount (nth i g' 0)));
      destruct (Z.leb_spec 2 (OnesCount (nth i g 0))); lia.
  - fold (cell g' s). fold (cell g s).
    destruct (Z.leb_spec 2 (OnesCount (cell g' s)));
      destruct (Z.leb_spec 2 (OnesCount (cell g s))); lia.
Qed.

Lemma open_cells_bound (g : grid) : wf g -> 0 <= open_cells g <= 81.
Proof.
  intros [L H].
  assert (B := @total_of_bound
                 (fun x => if 2 <=? OnesCount x then 1 else 0) g 1).
  fold (open_cells g) in B. rewrite L in B.
  assert (forall i : nat,
    0 <= (if 2 <=? OnesCount (nth i g 0) then 1 else 0) <= 1).
  { intros i. destruct (2 <=? OnesCount (nth i g 0)); lia. }
  specialize (B H0). lia.
Qed.

(** An open cell exists as soon as the count is positive, and conversely. *)
Lemma open_cells_pos (g : grid) (s : Z) :
  wf g -> in_square s -> 2 <= OnesCount (cell g s) -> 1 <= open_cells g.
Proof.
  intros Hwf Hs H2.
  assert (Hwf0 : wf (upd g (Z.to_nat s) 0)) by (apply wf_upd; [exact Hwf | apply in_cell_0]).
  assert (Hle : le_grid (upd g (Z.to_nat s) 0) g).
  { apply le_grid_upd; [exact Hwf|].
    split; [apply in_cell_0|]. split; [apply Hwf | reflexivity]. }
  assert (Hlt := @open_cells_lt _ g s Hle Hs (proj1 Hwf)).
  rewrite cell_upd_same in Hlt by assumption.
  specialize (Hlt ltac:(simpl; lia) H2).
  assert (B := open_cells_bound Hwf0). lia.
Qed.

(** ** The topology tables *)

Lemma squares_ok_spec (l : list Z) (t : Z) :
  squares_ok l = true -> In t l -> in_square t.
Proof.
  unfold squares_ok. rewrite forallb_forall. intros H Ht.
  specialize (H t Ht). apply andb_true_iff in H. destruct H as [H1 H2].
  apply Z.leb_le in H1. apply Z.ltb_lt in H2. unfold in_square. lia.
Qed.

Lemma member_spec (x : Z) (l : list Z) : member x l = true <-> In x l.
Proof.
  unfold member. rewrite existsb_exists. split.
  - intros [y [Hy E]]. apply Z.eqb_eq in E. now subst.
  - intros H. exists x. split; [exact H | apply Z.eqb_refl].
Qed.

Lemma nodupb_spec (l : list Z) : nodupb l = true -> NoDup l.
Proof.
  induction l as [|x l IH]; simpl; intros H; [constructor|].
  apply andb_true_iff in H. destruct H as [H1 H2].
  constructor; [|now apply IH].
  intros Hin. apply member_spec in Hin. rewrite Hin in H1. discriminate.
Qed.

(** The tables are the ones [init] computes. *)
Lemma tables_init :
  SQUARES = upto 81 /\ ALL_UNITS = ALL_UNITS_init /\
  UNITS = map UNITS_init SQUARES /\ PEERS = map PEERS_init SQUARES /\
  NUM_DIGITS = map OnesCount (upto 512).
Proof.
  split; [vm_compute; reflexivity|].
  split; [vm_compute; reflexivity|].
  split; [vm_compute; reflexivity|].
  split; vm_compute; reflexivity.
Qed.

(** Every square has 3 units of 9 squares, each containing it. *)
Lemma units_at (s : Z) :
  in_square s ->
  exists us, index UNITS s = Done us /\ length us = 3%nat /\
    forall u, In u us ->
      length u = 9%nat /\ In s u /\ forall t, In t u -> in_square t.
Proof.
  intros Hs.
  assert (H := @upto_all 81
    (fun s => match index UNITS s with
              | Done us =>
                  (length us =? 3)%nat &&
                  forallb (fun u => (length u =? 9)%nat && member s u
                                    && squares_ok u) us
              | _ => false
              end) ltac:(vm_compute; reflexivity) s Hs).
  cbv beta in H. destruct (index UNITS s) as [us| |]; try discriminate.
  exists us. apply andb_true_iff in H. destruct H as [H1 H2].
  apply Nat.eqb_eq in H1. split; [reflexivity|]. split; [exact H1|].
  intros u Hu. rewrite forallb_forall in H2. specialize (H2 u Hu).
  apply andb_true_iff in H2. destruct H2 as [H2 H3].
  apply andb_true_iff in H2. destruct H2 as [H2 H4].
  apply Nat.eqb_eq in H2. apply member_spec in H4.
  split; [exact H2|]. split; [exact H4|].
  intros t Ht. eapply squares_ok_spec; eassumption.
Qed.

(** Every square has 20 peers: the other squares of its units, once each. *)
Lemma peers_at (s : Z) :
  in_square s ->
  exists ps, index PEERS s = Done ps /\ length ps = 20%nat /\ NoDup ps /\
    ~ In s ps /\ (forall p, In p ps -> in_square p) /\
    (forall p, In p ps <->
       p <> s /\ exists us u, index UNITS s = Done us /\ In u us /\ In p u).
Proof.
  intros Hs.
  assert (H := @upto_all 81
    (fun s => match index PEERS s, index UNITS s with
              | Done ps, Done us =>
                  (length ps =? 20)%nat && nodupb ps && negb (member s ps)
                  && squares_ok ps
                  && forallb (fun p => member p (concat us)) ps
                  && forallb (fun p => (p =? s) || member p ps) (concat us)
              | _, _ => false
              end) ltac:(vm_compute; reflexivity) s Hs).
  cbv beta in H. destruct (index PEERS s) as [ps| |]; try discriminate.
  destruct (index UNITS s) as [us| |]; try discriminate.
  exists ps.
  apply andb_true_iff in H. destruct H as [H Hall].
  apply andb_true_iff in H. destruct H as [H Hsub].
  apply andb_true_iff in H. destruct H as [H Hsq].
  apply andb_true_iff in H. destruct H as [H Hnot].
  apply andb_true_iff in H. destruct H as [Hlen Hnd].
  apply Nat.eqb_eq in Hlen. apply nodupb_spec in Hnd.
  split; [reflexivity|]. split; [exact Hlen|]. split; [exact Hnd|].
  split.
  { intros Hin. apply member_spec in Hin. rewrite Hin in Hnot. discriminate. }
  split.
  { intros p Hp. eapply squares_ok_spec; eassumption. }
  intros p. split.
  - intros Hp. split.
    + intros ->. apply member_spec in Hp. rewrite Hp in Hnot. discriminate.
    + rewrite forallb_forall in Hsub. specialize (Hsub p Hp).
      apply member_spec in Hsub. apply in_concat in Hsub.
      destruct Hsub as [u [Hu Hpu]]. exists us, u. auto.
  - intros [Hne [us' [u [E [Hu Hpu]]]]]. inversion E; subst us'.
    rewrite forallb_forall in Hall.
    assert (Hc : In p (concat us)) by (apply in_concat; exists u; auto).
    specialize (Hall p Hc). apply orb_true_iff in Hall.
    destruct Hall as [H0|H0].
    + apply Z.eqb_eq in H0. contradiction.
    + now apply member_spec.
Qed.

(** ** Total correctness of store computations *)

Lemma total_ret (S A : Type) (a : A) (st : S) (Q : A -> S -> Prop) :
  Q a st -> total (ret a) st Q.
Proof. intros H. exists a, st. split; [reflexivity | exact H]. Qed.

Lemma total_bind (S A B : Type) (m : ST S A) (k : A -> ST S B) (st : S)
  (Q : B -> S -> Prop) :
  total m st (fun a st' => total (k a) st' Q) -> total (bind m k) st Q.
Proof.
  intros (a & st' & E & b & st'' & E' & H).
  exists b, st''. split; [|exact H]. unfold bind. now rewrite E.
Qed.

Lemma total_lift (S A : Type) (r : result A) (a : A) (st : S)
  (Q : A -> S -> Prop) :
  r = Done a -> Q a st -> total (lift r) st Q.
Proof. intros -> H. exists a, st. split; [reflexivity | exact H]. Qed.

Lemma total_weaken (S A : Type) (m : ST S A) (st : S) (Q Q' : A -> S -> Prop) :
  total m st Q -> (forall a st', Q a st' -> Q' a st') -> total m st Q'.
Proof. intros (a & st' & E & H) HQ. exists a, st'. auto. Qed.

Lemma total_read (g : grid) (s : Z) (Q : Z -> grid -> Prop) :
  wf g -> in_square s -> Q (cell g s) g -> total (read s) g Q.
Proof.
  intros Hwf Hs H. exists (cell g s), g. split; [|exact H].
  now apply read_spec.
Qed.

Lemma total_write (g : grid) (s v : Z) (Q : unit -> grid -> Prop) :
  wf g -> in_square s -> Q tt (upd g (Z.to_nat s) v) -> total (write s v) g Q.
Proof.
  intros Hwf Hs H. exists tt, (upd g (Z.to_nat s) v). split; [|exact H].
  now apply write_spec.
Qed.

(** ** Propagation ends and only removes candidates *)

Lemma set_digit_le (g : grid) (s d : Z) :
  wf g -> in_square s -> is_digit d -> Z.land (cell g s) d <> 0 ->
  le_grid (upd g (Z.to_nat s) d) g.
Proof.
  intros Hwf Hs Hd Hn. apply le_grid_upd; [exact Hwf|].
  destruct (drop_digit (wf_cell s Hwf) Hd Hn) as (_ & _ & _ & _ & _ & E & _).
  split; [apply (digit_facts Hd)|]. split; [apply Hwf | exact E].
Qed.

Lemma fill_post_le (g : grid) (s d : Z) (ok : bool) (g' : grid) :
  wf g -> in_square s -> is_digit d -> fill_post g s d ok g' ->
  le_grid g' g /\ (ok = true -> keeps g g').
Proof.
  intros Hwf Hs Hd. unfold fill_post.
  destruct (Z.eqb_spec (Z.land (cell g s) d) 0) as [E|E].
  - intros [-> ->]. split; [now apply le_grid_refl | discriminate].
  - intros [Hle Hok]. split.
    + eapply le_grid_trans; [exact Hle | now apply set_digit_le].
    + intros Ht. destruct (Hok Ht) as [Hk _].
      eapply keeps_trans; [|exact Hk].
      apply keeps_upd. apply (digit_facts Hd).
Qed.

Section PropagationTotal.

Variable rec : Z -> Z -> ST grid bool.
Variable n : Z.
Hypothesis Hrec : fill_ok n rec.

Lemma arc_total (g : grid) (s : Z) :
  wf g -> in_square s -> bits g < n ->
  total (arcConsistent rec s) g
    (fun ok g' => le_grid g' g /\ (ok = true -> keeps g g' /\ cell g s <> 0)).
Proof.
  intros Hwf Hs Hn. unfold arcConsistent.
  apply total_bind, total_read; [exact Hwf | exact Hs|].
  apply total_bind.
  eapply total_lift; [apply num_digits_at, wf_cell, Hwf|].
  destruct (Z.leb_spec 2 (OnesCount (cell g s))) as [H2|H2].
  - apply total_ret. split; [now apply le_grid_refl|].
    intros _. split; [apply keeps_refl|].
    intros E. rewrite E in H2. simpl in H2. lia.
  - destruct (Z.eqb_spec (OnesCount (cell g s)) 1) as [H1|H1].
    + apply total_bind, total_read; [exact Hwf | exact Hs|].
      assert (Hd : is_digit (cell g s)) by (apply ones_one; [apply wf_cell, Hwf | exact H1]).
      eapply total_weaken; [apply (Hrec Hwf Hs Hd Hn)|].
      intros ok g' Hpost. cbv beta.
      assert (Hne : cell g s <> 0) by apply (digit_facts Hd).
      destruct (@fill_post_le _ _ _ _ _ Hwf Hs Hd Hpost) as [Hle Hk].
      split; [exact Hle|]. intros Ht. split; [now apply Hk | exact Hne].
    + apply total_ret. split; [now apply le_grid_refl | discriminate].
Qed.

Lemma dual_places_total (g : grid) (u : list Z) (d dPlaces dplace : Z) :
  wf g -> (forall t, In t u -> in_square t) ->
  dPlaces = 0 \/ (dPlaces = 1 /\ place_ok g d dPlaces dplace) ->
  total (dual_places u d dPlaces dplace) g
    (fun pl g' => g' = g /\ place_ok g d (fst pl) (snd pl)).
Proof.
  intros Hwf. revert dPlaces dplace.
  induction u as [|s2 u IH]; intros dPlaces dplace Hu Hinv; simpl.
  - apply total_ret. split; [reflexivity|]. simpl.
    destruct Hinv as [->|[_ H]]; [intros E; discriminate E | exact H].
  - assert (Hs2 : in_square s2) by (apply Hu; now left).
    assert (Hu' : forall t, In t u -> in_square t) by (intros t Ht; apply Hu; now right).
    apply total_bind, total_read; [exact Hwf | exact Hs2|].
    destruct (Z.ltb_spec 0 (Z.land (cell g s2) d)) as [Hp|Hp].
    + destruct (Z.ltb_spec 1 (dPlaces + 1)) as [Hb|Hb].
      * apply total_ret. split; [reflexivity|]. simpl.
        intros E. lia.
      * apply IH; [exact Hu'|]. right.
        assert (dPlaces = 0) by (destruct Hinv as [?|[? _]]; lia). subst.
        split; [reflexivity|]. intros _. split; [exact Hs2 | lia].
    + apply IH; assumption.
Qed.

Lemma dual_units_total (us : list (list Z)) (d : Z) (g : grid) :
  wf g -> is_digit d -> bits g < n ->
  (forall u, In u us -> forall t, In t u -> in_square t) ->
  total (dual_units rec us d) g
    (fun ok g' => le_grid g' g /\ (ok = true -> keeps g g')).
Proof.
  intros Hwf Hd. revert g Hwf.
  induction us as [|u us IH]; intros g Hwf Hn Hus; simpl.
  - apply total_ret. split; [now apply le_grid_refl | intros; apply keeps_refl].
  - apply total_bind.
    eapply total_weaken.
    { apply dual_places_total; [exact Hwf | apply Hus; now left | now left]. }
    intros [dPlaces dplace] g0 [-> Hpl]. simpl in *.
    assert (Hus' : forall u0, In u0 us -> forall t, In t u0 -> in_square t)
      by (intros u0 Hu0; apply Hus; now right).
    destruct (Z.eqb_spec dPlaces 0) as [E0|E0].
    { apply total_ret. split; [now apply le_grid_refl | discriminate]. }
    destruct (Z.eqb_spec dPlaces 1) as [E1|E1].
    + destruct (Hpl E1) as [Hsq Hcand].
      apply total_bind.
      eapply total_weaken; [apply (Hrec Hwf Hsq Hd Hn)|].
      intros ok g1 Hpost. cbv beta.
      destruct (@fill_post_le _ _ _ _ _ Hwf Hsq Hd Hpost) as [Hle Hk].
      assert (Hwf1 : wf g1) by (eapply le_grid_wf; eassumption).
      destruct ok.
      * eapply total_weaken.
        { apply IH; [exact Hwf1 | | exact Hus'].
          assert (B := bits_le Hle). lia. }
        intros ok2 g2 [Hle2 Hk2]. split.
        -- eapply le_grid_trans; eassumption.
        -- intros Ht. eapply keeps_trans; [now apply Hk | now apply Hk2].
      * apply total_ret. split; [exact Hle | discriminate].
    + apply IH; assumption.
Qed.

Lemma dual_total (g : grid) (s d : Z) :
  wf g -> in_square s -> is_digit d -> bits g < n ->
  total (dualConsistent rec s d) g
    (fun ok g' => le_grid g' g /\ (ok = true -> keeps g g')).
Proof.
  intros Hwf Hs Hd Hn. unfold dualConsistent.
  destruct (units_at Hs) as (us & E & _ & Hus).
  apply total_bind. eapply total_lift; [exact E|].
  apply dual_units_total; try assumption.
  intros u Hu. apply (Hus u Hu).
Qed.

Lemma eliminate_total (g : grid) (s d : Z) :
  wf g -> in_square s -> is_digit d -> bits g <= n ->
  total (eliminate rec s d) g (elim_post g s d).
Proof.
  intros Hwf Hs Hd Hn. unfold eliminate, elim_post.
  apply total_bind, total_read; [exact Hwf | exact Hs|].
  destruct (Z.eqb_spec (Z.land (cell g s) d) 0) as [E|E].
  { apply total_ret. split; [now apply le_grid_refl|].
    split; [exact E | intros; apply keeps_refl]. }
  apply total_bind, total_read; [exact Hwf | exact Hs|].
  destruct (drop_digit (wf_cell s Hwf) Hd E)
    as (Hin & Hw & Hsub & Hwo & Hones & _).
  rewrite Hw.
  apply total_bind, total_write; [exact Hwf | exact Hs|].
  set (g1 := upd g (Z.to_nat s) (cell g s - d)).
  assert (Hwf1 : wf g1) by (apply wf_upd; assumption).
  assert (Hle1 : le_grid g1 g).
  { apply le_grid_upd; [exact Hwf|]. split; [exact Hin|].
    split; [apply Hwf | exact Hsub]. }
  assert (Hc1 : cell g1 s = cell g s - d) by (apply cell_upd_same; assumption).
  assert (Hb1 : bits g1 < n).
  { assert (bits g1 < bits g); [|lia].
    apply bits_drop; try assumption.
    - split; [exact Hin|]. split; [apply wf_cell, Hwf | exact Hsub].
    - lia. }
  apply total_bind.
  eapply total_weaken; [apply (arc_total Hwf1 Hs Hb1)|].
  intros arc g2 [Hle2 Harc]. cbv beta.
  assert (Hwf2 : wf g2) by (eapply le_grid_wf; eassumption).
  assert (Hwo2 : Z.land (cell g2 s) d = 0).
  { eapply cell_le_without; [apply (le_grid_cell s Hle2)|]. now rewrite Hc1. }
  destruct arc.
  - destruct (Harc eq_refl) as [Hk2 Hne].
    eapply total_weaken.
    { apply (dual_total Hwf2 Hs Hd). assert (B := bits_le Hle2). lia. }
    intros ok g3 [Hle3 Hk3]. cbv beta. split; [|split].
    + eapply le_grid_trans; [exact Hle3|]. eapply le_grid_trans; eassumption.
    + eapply cell_le_without; [apply (le_grid_cell s Hle3) | exact Hwo2].
    + intros Ht. specialize (Hk3 Ht). intros i Hi.
      apply Hk3, Hk2. destruct (Nat.eq_dec (Z.to_nat s) i) as [<-|Hi'].
      * fold (cell g1 s). exact Hne.
      * unfold g1. now rewrite nth_upd_other.
  - apply total_ret. split; [|split]; try discriminate.
    + eapply le_grid_trans; eassumption.
    + exact Hwo2.
Qed.

Lemma fill_peers_total (ps : list Z) (d : Z) (g : grid) :
  wf g -> is_digit d -> bits g <= n ->
  (forall p, In p ps -> in_square p) ->
  total (fill_peers rec ps d) g
    (fun ok g' =>
       le_grid g' g /\
       (ok = true ->
        keeps g g' /\ forall p, In p ps -> Z.land (cell g' p) d = 0)).
Proof.
  intros Hwf Hd. revert g Hwf.
  induction ps as [|p ps IH]; intros g Hwf Hn Hps; simpl.
  - apply total_ret. split; [now apply le_grid_refl|].
    intros _. split; [apply keeps_refl | intros p []].
  - assert (Hp : in_square p) by (apply Hps; now left).
    apply total_bind.
    eapply total_weaken; [apply (eliminate_total Hwf Hp Hd Hn)|].
    intros ok g1 (Hle1 & Hwo1 & Hk1). cbv beta.
    assert (Hwf1 : wf g1) by (eapply le_grid_wf; eassumption).
    destruct ok.
    + eapply total_weaken.
      { apply IH; [exact Hwf1 | | intros q Hq; apply Hps; now right].
        assert (B := bits_le Hle1). lia. }
      intros ok2 g2 [Hle2 Hok2]. split.
      * eapply le_grid_trans; eassumption.
      * intros Ht. destruct (Hok2 Ht) as [Hk2 Hall]. split.
        -- eapply keeps_trans; [now apply Hk1 | exact Hk2].
        -- intros q [<-|Hq]; [|now apply Hall].
           eapply cell_le_without; [apply (le_grid_cell p Hle2) | exact Hwo1].
    + apply total_ret. split; [exact Hle1 | discriminate].
Qed.

Lemma fill_body_total (g : grid) (s d : Z) :
  wf g -> in_square s -> is_digit d -> bits g <= n ->
  total (fill_body rec s d) g (fill_post g s d).
Proof.
  intros Hwf Hs Hd Hn. unfold fill_body, fill_post.
  apply total_bind, total_read; [exact Hwf | exact Hs|].
  destruct (Z.eqb_spec (Z.land (cell g s) d) 0) as [E|E].
  { apply total_ret. split; reflexivity. }
  apply total_bind, total_write; [exact Hwf | exact Hs|].
  set (g1 := upd g (Z.to_nat s) d).
  assert (Hle1 : le_grid g1 g) by now apply set_digit_le.
  assert (Hwf1 : wf g1) by (eapply le_grid_wf; eassumption).
  destruct (peers_at Hs) as (ps & Eps & _ & _ & _ & Hps & _).
  apply total_bind. eapply total_lift; [exact Eps|].
  eapply total_weaken.
  { apply (@fill_peers_total ps d g1 Hwf1 Hd); [|exact Hps].
    assert (B := bits_le Hle1). lia. }
  intros ok g' [Hle Hok]. split; [exact Hle|].
  intros Ht. destruct (Hok Ht) as [Hk Hall]. split; [exact Hk|].
  intros ps' p E' Hp. rewrite Eps in E'. inversion E'; subst ps'.
  now apply Hall.
Qed.

End PropagationTotal.

Lemma fill_fuel_ok (n : nat) : fill_ok (Z.of_nat n) (fill_fuel n).
Proof.
  induction n as [|n IH].
  - intros g s d Hwf _ _ Hb. assert (B := bits_bound Hwf). simpl in Hb. lia.
  - intros g s d Hwf Hs Hd Hb. simpl.
    apply (fill_body_total IH Hwf Hs Hd). lia.
Qed.

(** [fill] ends on every grid, without panic, and only removes candidates. *)
Lemma fill_total (g : grid) (s d : Z) :
  wf g -> in_square s -> is_digit d ->
  total (fill s d) g (fill_post g s d).
Proof.
  intros Hwf Hs Hd. apply (@fill_fuel_ok FUEL g s d Hwf Hs Hd).
  assert (B := bits_bound Hwf). unfold FUEL. lia.
Qed.

(** ** [selectSquare] *)

Lemma selectSquare_loop_spec (g : grid) (k : nat) :
  wf g ->
  forall (a : nat) (square mint : Z),
    (a + k = 81)%nat -> select_inv g (Z.of_nat a) square mint ->
    exists r, selectSquare_loop (map Z.of_nat (seq a k)) g square mint = Done r
              /\ selected g r.
Proof.
  intros Hwf. induction k as [|k IH]; intros a square mint Hak [Hno2 Hinv].
  - simpl. exists square. split; [reflexivity|].
    assert (Ha : Z.of_nat a = 81) by lia. rewrite Ha in *.
    destruct Hinv as [(-> & _ & Hall)|(Hsq & Hc & H2 & Hmin & Hfirst)].
    + left. split; [reflexivity | exact Hall].
    + right. unfold in_square. repeat split; try lia.
      * intros t Ht. rewrite Hc. now apply Hmin.
      * intros t Ht Hlt. rewrite Hc. apply Hfirst. unfold in_square in Ht. lia.
  - simpl. set (s := Z.of_nat a).
    assert (Hs : in_square s) by (unfold in_square, s; lia).
    rewrite (@index_Done _ g s 0) by (destruct Hwf as [L _]; unfold in_square in Hs; lia).
    fold (cell g s). simpl.
    rewrite (num_digits_at (wf_cell s Hwf)). simpl. fold (cands g s).
    assert (Hr := ones_range (wf_cell s Hwf)). fold (cands g s) in Hr.
    destruct (Z.eqb_spec (cands g s) 2) as [E2|E2].
    { exists s. split; [reflexivity|]. right. split; [exact Hs|].
      split; [lia|]. split.
      - intros t _ Ht. lia.
      - intros t Ht Hlt H2. assert (cands g t <> 2); [|lia].
        apply Hno2. unfold in_square in Ht. lia. }
    assert (Hno2' : forall t, 0 <= t < Z.of_nat (S a) -> cands g t <> 2).
    { intros t Ht. destruct (Z.eq_dec t s) as [->|Hts]; [exact E2|].
      apply Hno2. unfold s in Hts. lia. }
    destruct ((1 <? cands g s) && (cands g s <? mint)) eqn:Eb.
    + apply andb_true_iff in Eb. destruct Eb as [Eb1 Eb2].
      apply Z.ltb_lt in Eb1. apply Z.ltb_lt in Eb2.
      apply (IH (S a)); [lia|]. split; [exact Hno2'|]. right.
      fold s. split; [lia|]. split; [reflexivity|]. split; [lia|]. split.
      * intros t Ht H2. destruct (Z.eq_dec t s) as [->|Hts]; [lia|].
        destruct Hinv as [(_ & _ & Hall)|(_ & _ & _ & Hmin & _)].
        -- assert (cands g t <= 1) by (apply Hall; lia). lia.
        -- assert (mint <= cands g t) by (apply Hmin; lia). lia.
      * intros t Ht H2.
        destruct Hinv as [(_ & _ & Hall)|(_ & _ & _ & Hmin & _)].
        -- assert (cands g t <= 1) by (apply Hall; lia). lia.
        -- assert (mint <= cands g t) by (apply Hmin; lia). lia.
    + apply andb_false_iff in Eb.
      apply (IH (S a)); [lia|]. split; [exact Hno2'|].
      destruct Hinv as [(-> & -> & Hall)|(Hsq & Hc & H2 & Hmin & Hfirst)].
      * left. split; [reflexivity|]. split; [reflexivity|].
        intros t Ht. destruct (Z.eq_dec t s) as [->|Hts]; [|apply Hall; unfold s in Hts; lia].
        destruct Eb as [Eb|Eb]; [apply Z.ltb_ge in Eb; lia|].
        apply Z.ltb_ge in Eb. unfold N in Eb. lia.
      * right. split; [lia|]. split; [exact Hc|]. split; [exact H2|]. split.
        -- intros t Ht H2'. destruct (Z.eq_dec t s) as [->|Hts]; [|apply Hmin; [unfold s in Hts; lia | exact H2']].
           destruct Eb as [Eb|Eb]; apply Z.ltb_ge in Eb; lia.
        -- exact Hfirst.
Qed.

Lemma selectSquare_spec (g : grid) :
  wf g -> exists r, selectSquare g = Done r /\ selected g r.
Proof.
  intros Hwf. unfold selectSquare.
  change SQUARES with (map Z.of_nat (seq 0 81)).
  apply (@selectSquare_loop_spec g 81 Hwf 0%nat); [reflexivity|].
  split; [intros t Ht; lia|]. left.
  split; [reflexivity|]. split; [reflexivity | intros t Ht; lia].
Qed.

Lemma selected_none (g : grid) :
  wf g -> selected g (-1) -> open_cells g = 0.
Proof.
  intros Hwf [[_ Hall]|[Hsq _]]; [|unfold in_square in Hsq; lia].
  destruct Hwf as [L Hc].
  assert (B := @total_of_bound
                 (fun x => if 2 <=? OnesCount x then 1 else 0) g 0).
  fold (open_cells g) in B. cut (0 <= open_cells g <= 0 * Z.of_nat (length g)); [lia|].
  apply B. intros i. destruct (Nat.lt_ge_cases i 81).
  - assert (Ht : in_square (Z.of_nat i)) by (unfold in_square; lia).
    specialize (Hall _ Ht). unfold cands, cell in Hall.
    rewrite Nat2Z.id in Hall.
    destruct (Z.leb_spec 2 (OnesCount (nth i g 0))); lia.
  - rewrite nth_overflow by lia. simpl. lia.
Qed.

(** ** The grid pool *)

Lemma pool_index (w : world) (k : Z) :
  pool_ok w -> 0 <= k < 81 -> index (gridpool w) k = Done (slot w k).
Proof.
  intros [L _] Hk. unfold slot. apply index_Done. lia.
Qed.

Lemma deref_holds (w : world) (h : slice) (level : Z) (g : grid) :
  pool_ok w -> level <= 81 -> holds w h level g -> deref h w = Done (g, w).
Proof.
  intros Hp Hl. destruct h as [|g0|k]; simpl.
  - contradiction.
  - now intros ->.
  - intros [Hk <-]. rewrite pool_index by (assumption || lia). reflexivity.
Qed.

Lemma pool_ok_set_slot (w : world) (k : Z) (g : grid) :
  pool_ok w -> length g = 81%nat -> pool_ok (set_slot w k g).
Proof.
  intros [L H] Hg. split; simpl; [now rewrite length_upd|].
  intros j Hj. destruct (Nat.eq_dec (Z.to_nat k) j) as [<-|Hkj].
  - rewrite nth_upd_same by lia. exact Hg.
  - rewrite nth_upd_other by exact Hkj. now apply H.
Qed.

Lemma slot_set_slot_same (w : world) (k : Z) (g : grid) :
  pool_ok w -> 0 <= k < 81 -> slot (set_slot w k g) k = g.
Proof.
  intros [L _] Hk. unfold slot, set_slot. simpl. apply nth_upd_same. lia.
Qed.

Lemma slot_set_slot_other (w : world) (k j : Z) (g : grid) :
  0 <= k -> 0 <= j -> k <> j -> slot (set_slot w k g) j = slot w j.
Proof.
  intros Hk Hj Hkj. unfold slot, set_slot. simpl. apply nth_upd_other. lia.
Qed.

Lemma copy_to_pool_spec (w : world) (h : slice) (lv level : Z) (g : grid) :
  pool_ok w -> 0 <= level < 81 -> lv <= 81 -> holds w h lv g ->
  length g = 81%nat ->
  copy_to_pool level h w = Done (tt, set_slot w level g).
Proof.
  intros Hp Hl Hlv Hh Hg. unfold copy_to_pool, bind.
  rewrite (pool_index Hp Hl). simpl.
  rewrite (@deref_holds _ _ _ _ Hp Hlv Hh).
  rewrite store_Done by (destruct Hp as [L _]; lia).
  rewrite copy_slice_same_length; [reflexivity|].
  rewrite Hg. apply Hp. lia.
Qed.

Lemma fill_in_pool_spec (w : world) (level s d : Z) (ok : bool) (g' : grid) :
  pool_ok w -> 0 <= level < 81 ->
  fill s d (slot w level) = Done (ok, g') ->
  fill_in_pool level s d w
  = Done (if ok then Slot level else Nil, set_slot w level g').
Proof.
  intros Hp Hl E. unfold fill_in_pool, bind.
  rewrite (pool_index Hp Hl). simpl. rewrite E.
  rewrite store_Done by (destruct Hp as [L _]; lia).
  reflexivity.
Qed.

(** ** More fuel changes nothing *)

Lemma refines_refl (S A : Type) (m : ST S A) : refines m m.
Proof. intros st r H. exact H. Qed.

Lemma refines_bind (S A B : Type) (m m' : ST S A) (k k' : A -> ST S B) :
  refines m m' -> (forall a, refines (k a) (k' a)) ->
  refines (bind m k) (bind m' k').
Proof.
  intros Hm Hk st r. unfold bind.
  destruct (m st) as [[a st']| |] eqn:E; try discriminate.
  rewrite (Hm _ _ E). apply Hk.
Qed.

Section PropagationMono.

Variables rec rec' : Z -> Z -> ST grid bool.
Hypothesis Hmono : forall s d, refines (rec s d) (rec' s d).

Lemma arc_mono (s : Z) : refines (arcConsistent rec s) (arcConsistent rec' s).
Proof.
  unfold arcConsistent. apply refines_bind; [apply refines_refl|]. intros v.
  apply refines_bind; [apply refines_refl|]. intros c.
  destruct (2 <=? c); [apply refines_refl|].
  destruct (c =? 1); [|apply refines_refl].
  apply refines_bind; [apply refines_refl|]. intros v'. apply Hmono.
Qed.

Lemma dual_units_mono (us : list (list Z)) (d : Z) :
  refines (dual_units rec us d) (dual_units rec' us d).
Proof.
  induction us as [|u us IH]; simpl; [apply refines_refl|].
  apply refines_bind; [apply refines_refl|]. intros pl.
  destruct (fst pl =? 0); [apply refines_refl|].
  destruct (fst pl =? 1); [|exact IH].
  apply refines_bind; [apply Hmono|]. intros ok.
  destruct ok; [exact IH | apply refines_refl].
Qed.

Lemma eliminate_mono (s d : Z) :
  refines (eliminate rec s d) (eliminate rec' s d).
Proof.
  unfold eliminate. apply refines_bind; [apply refines_refl|]. intros v.
  destruct (Z.land v d =? 0); [apply refines_refl|].
  apply refines_bind; [apply refines_refl|]. intros v1.
  apply refines_bind; [apply refines_refl|]. intros _.
  apply refines_bind; [apply arc_mono|]. intros arc.
  destruct arc; [|apply refines_refl].
  unfold dualConsistent. apply refines_bind; [apply refines_refl|].
  intros us. apply dual_units_mono.
Qed.

Lemma fill_peers_mono (ps : list Z) (d : Z) :
  refines (fill_peers rec ps d) (fill_peers rec' ps d).
Proof.
  induction ps as [|p ps IH]; simpl; [apply refines_refl|].
  apply refines_bind; [apply eliminate_mono|]. intros ok.
  destruct ok; [exact IH | apply refines_refl].
Qed.

Lemma fill_body_mono (s d : Z) :
  refines (fill_body rec s d) (fill_body rec' s d).
Proof.
  unfold fill_body. apply refines_bind; [apply refines_refl|]. intros v.
  destruct (Z.land v d =? 0); [apply refines_refl|].
  apply refines_bind; [apply refines_refl|]. intros _.
  apply refines_bind; [apply refines_refl|]. intros ps.
  apply fill_peers_mono.
Qed.

End PropagationMono.

Lemma fill_fuel_mono (n m : nat) (s d : Z) :
  (n <= m)%nat -> refines (fill_fuel n s d) (fill_fuel m s d).
Proof.
  revert m s d. induction n as [|n IH]; intros m s d Hnm.
  - intros st r H. discriminate H.
  - destruct m as [|m]; [lia|]. simpl. apply fill_body_mono.
    intros s' d'. apply IH. lia.
Qed.

Section SearchMono.

Variables rec rec' : slice -> Z -> ST world slice.
Hypothesis Hmono : forall h level, refines (rec h level) (rec' h level).

Lemma search_digits_mono (ds : list Z) (h : slice) (s level : Z) :
  refines (search_digits rec ds h s level) (search_digits rec' ds h s level).
Proof.
  induction ds as [|d ds IH]; simpl; [apply refines_refl|].
  apply refines_bind; [apply refines_refl|]. intros g.
  apply refines_bind; [apply refines_refl|]. intros v.
  destruct (0 <? Z.land d v); [|exact IH].
  apply refines_bind; [apply refines_refl|]. intros _.
  apply refines_bind; [apply refines_refl|]. intros filled.
  apply refines_bind; [apply Hmono|]. intros res.
  destruct res; [|apply refines_refl..].
  apply refines_bind; [apply refines_refl|]. intros _. exact IH.
Qed.

Lemma search_body_mono (h : slice) (level : Z) :
  refines (search_body rec h level) (search_body rec' h level).
Proof.
  assert (H : forall h0, refines
            (g <- deref h0 ;; s <- lift (selectSquare g) ;;
             if s =? -1 then ret h0 else search_digits rec DIGITS h0 s level)
            (g <- deref h0 ;; s <- lift (selectSquare g) ;;
             if s =? -1 then ret h0 else search_digits rec' DIGITS h0 s level)).
  { intros h0. apply refines_bind; [apply refines_refl|]. intros g.
    apply refines_bind; [apply refines_refl|]. intros s.
    destruct (s =? -1); [apply refines_refl | apply search_digits_mono]. }
  destruct h; [apply refines_refl | apply H | apply H].
Qed.

End SearchMono.

Lemma search_fuel_mono (n m : nat) (h : slice) (level : Z) :
  (n <= m)%nat -> refines (search_fuel n h level) (search_fuel m h level).
Proof.
  revert m h level. induction n as [|n IH]; intros m h level Hnm.
  - intros st r H. discriminate H.
  - destruct m as [|m]; [lia|]. simpl. apply search_body_mono.
    intros h' level'. apply IH. lia.
Qed.

(** ** [search] ends and stays inside the pool *)

Lemma holds_frame (w w' : world) (h : slice) (level : Z) (g : grid) :
  same_below level w w' -> holds w h level g -> holds w' h level g.
Proof.
  intros Hs. destruct h as [|g0|k]; simpl; auto.
  intros [Hk <-]. split; [exact Hk | now apply Hs].
Qed.

Lemma same_below_trans (level : Z) (w1 w2 w3 : world) :
  same_below level w1 w2 -> same_below level w2 w3 -> same_below level w1 w3.
Proof. intros H1 H2 k Hk. rewrite H2, H1 by exact Hk. reflexivity. Qed.

Lemma total_eq (S A : Type) (m : ST S A) (st : S) (Q : A -> S -> Prop) :
  total m st Q -> total m st (fun a st' => m st = Done (a, st') /\ Q a st').
Proof. intros (a & st' & E & H). exists a, st'. auto. Qed.

Section SearchTotal.

Variables rec explore : slice -> Z -> ST world slice.
Variable n : Z.
Hypothesis Hrec : search_ok n rec.
Hypothesis Hexplore : forall h level, refines (rec h level) (explore h level).

(** The loop over [DIGITS] ends, and does what the specification says for
  the candidates among [ds]. *)
Lemma search_digits_total (ds : list Z) (h : slice) (s level : Z)
(g : grid) (w : world) :
(forall d, In d ds -> is_digit d) ->
pool_ok w -> holds w h level g -> wf g -> 0 <= level ->
level + open_cells g <= 81 -> open_cells g <= n ->
in_square s -> 2 <= cands g s ->
total (search_digits rec ds h s level) w
  (fun r w' =>
     search_post g level w r w' /\
     spec_try_candidates explore
       (filter (fun d => 0 <? Z.land d (cell g s)) ds) g s level w
     = Done (r, w')).
Proof.
intros Hds Hp Hh Hwf Hl0 Hl Hn Hs Hc. revert w Hp Hh.
assert (Hopen : 1 <= open_cells g) by (eapply open_cells_pos; eassumption).
assert (Hlv : 0 <= level < 81) by lia.
assert (Hl81 : level <= 81) by lia.
induction ds as [|d ds IH]; intros w Hp Hh; simpl.
{ apply total_ret. split; [|reflexivity].
  split; [exact Hp|]. split; [intros k _; reflexivity | now left]. }
assert (Hd : is_digit d) by (apply Hds; now left).
assert (Hds' : forall d0, In d0 ds -> is_digit d0)
  by (intros d0 H0; apply Hds; now right).
apply total_bind. exists g, w. split; [apply (@deref_holds _ _ _ _ Hp Hl81 Hh)|].
apply total_bind. eapply total_lift.
{ apply (@index_Done _ g s 0). destruct Hwf as [L _]. unfold in_square in Hs. lia. }
fold (cell g s).
destruct (Z.ltb_spec 0 (Z.land d (cell g s))) as [Hcand|Hcand];
  [|now apply IH].
apply total_bind. exists tt, (set_slot w level g).
split; [apply (@copy_to_pool_spec _ _ _ _ _ Hp Hlv Hl81 Hh (proj1 Hwf))|].
set (w1 := set_slot w level g).
assert (Hcopy : spec_copy level g w = Done (tt, w1)).
{ unfold spec_copy. rewrite store_Done by (destruct Hp as [L _]; lia).
  reflexivity. }
assert (Hp1 : pool_ok w1) by (apply pool_ok_set_slot; [exact Hp | apply Hwf]).
assert (Hs1 : slot w1 level = g) by (apply slot_set_slot_same; assumption).
assert (Hne : Z.land (cell g s) d <> 0) by (rewrite Z.land_comm; lia).
destruct (fill_total Hwf Hs Hd) as (ok & g' & Ef & Hpost).
assert (Hle : le_grid g' g) by (apply (@fill_post_le _ _ _ _ _ Hwf Hs Hd Hpost)).
assert (Hwf' : wf g') by (eapply le_grid_wf; eassumption).
unfold fill_post in Hpost.
destruct (Z.eqb_spec (Z.land (cell g s) d) 0) as [E0|_]; [contradiction|].
destruct Hpost as [Hle1 _].
set (w2 := set_slot w1 level g').
assert (Hfill : fill_in_pool level s d w1
                = Done (if ok then Slot level else Nil, w2)).
{ apply fill_in_pool_spec; [exact Hp1 | exact Hlv | now rewrite Hs1]. }
assert (Hsfill : spec_fill level s d w1
                 = Done (if ok then Slot level else Nil, w2)).
{ unfold spec_fill. rewrite Hs1, Ef. reflexivity. }
apply total_bind.
exists (if ok then Slot level else Nil), w2. split; [exact Hfill|].
assert (Hp2 : pool_ok w2) by (apply pool_ok_set_slot; [exact Hp1 | apply Hwf']).
assert (Hs2 : slot w2 level = g') by (apply slot_set_slot_same; assumption).
assert (Hsame2 : same_below level w w2).
{ intros k Hk. unfold w2, w1.
  rewrite !slot_set_slot_other by lia. reflexivity. }
(* the recursive call *)
assert (Hcall : total (rec (if ok then Slot level else Nil) (level + 1)) w2
          (fun r w3 =>
             (match (if ok then Slot level else Nil) with
              | Nil => ret Nil
              | _ => explore (if ok then Slot level else Nil) (level + 1)
              end) w2 = Done (r, w3) /\
             pool_ok w3 /\ same_below level w w3 /\
             (r = Nil \/ exists g3, deref r w3 = Done (g3, w3) /\
                                    le_grid g3 g /\ open_cells g3 = 0))).
{ destruct ok.
  - assert (Hopen' : open_cells g' < open_cells g).
    { apply (@open_cells_lt g' g s Hle Hs (proj1 Hwf)); [|exact Hc].
      assert (Hcell := le_grid_cell s Hle1).
      rewrite cell_upd_same in Hcell by assumption.
      assert (H1 := cell_le_ones Hcell).
      rewrite (proj1 (proj2 (digit_facts Hd))) in H1. exact H1. }
    eapply total_weaken.
    { apply total_eq.
      apply (proj2 Hrec (Slot level) (level + 1) w2 g' Hp2); try assumption; try lia.
      simpl. split; [lia | exact Hs2]. }
    intros r w3 (Er & Hp3 & Hsame3 & Hr). split; [now apply Hexplore|].
    split; [exact Hp3|]. split.
    + eapply same_below_trans; [exact Hsame2|].
      intros k Hk. apply Hsame3. lia.
    + destruct Hr as [->|(g3 & E3 & Hle3 & Ho3)]; [now left|].
      right. exists g3. split; [exact E3|]. split; [|exact Ho3].
      eapply le_grid_trans; eassumption.
  - exists Nil, w2. split; [apply (proj1 Hrec); lia|].
    split; [reflexivity|].
    split; [exact Hp2|]. split; [exact Hsame2 | now left]. }
apply total_bind. eapply total_weaken; [exact Hcall|].
intros r w3 (Ex & Hp3 & Hsame3 & Hr). cbv beta.
assert (Hspec : forall res,
  (match r with
   | Nil => spec_count ;;;
            spec_try_candidates explore
              (filter (fun d0 => 0 <? Z.land d0 (cell g s)) ds) g s level
   | _ => ret r
   end) w3 = Done res ->
  spec_try_candidates explore
    (d :: filter (fun d0 => 0 <? Z.land d0 (cell g s)) ds) g s level w
  = Done res).
{ intros res Hres. cbn [spec_try_candidates]. unfold bind at 1.
  rewrite Hcopy. unfold bind at 1. rewrite Hsfill. unfold bind at 1.
  rewrite Ex. exact Hres. }
destruct r as [|g3|k3].
- apply total_bind. eexists tt, _. split; [reflexivity|].
  set (w4 := World (gridpool w3) (wrap64 (backtracks w3 + 1))).
  assert (Hsame4 : same_below level w w4) by exact Hsame3.
  eapply total_weaken.
  { apply (IH Hds' w4); [exact Hp3|]. eapply holds_frame; eassumption. }
  intros r w5 ((Hp5 & Hsame5 & Hr5) & E5). split.
  + split; [exact Hp5|].
    split; [|exact Hr5]. eapply same_below_trans; eassumption.
  + apply Hspec. unfold bind, spec_count. exact E5.
- apply total_ret. split; [|now apply Hspec].
  split; [exact Hp3|]. split; [exact Hsame3|].
  destruct Hr as [Hr|Hr]; [discriminate | now right].
- apply total_ret. split; [|now apply Hspec].
  split; [exact Hp3|]. split; [exact Hsame3|].
  destruct Hr as [Hr|Hr]; [discriminate | now right].
Qed.

Lemma search_body_eq (h : slice) (level : Z) (w : world) (g : grid) (s : Z) :
h <> Nil -> deref h w = Done (g, w) -> selectSquare g = Done s ->
search_body rec h level w
= (if s =? -1 then ret h else search_digits rec DIGITS h s level) w.
Proof.
intros Hh Hderef Es.
destruct h as [|g0|k]; [contradiction| |];
  unfold search_body, bind at 1; rewrite Hderef; cbv beta iota;
  unfold bind at 1, lift; rewrite Es; reflexivity.
Qed.

Lemma search_body_ok : search_ok (n + 1) (search_body rec).
Proof.
split; [intros _ level w; reflexivity|].
intros h level w g Hp Hh Hwf Hl0 Hl Hn.
assert (Hl81 : level <= 81) by (assert (B := open_cells_bound Hwf); lia).
assert (Hderef := @deref_holds _ _ _ _ Hp Hl81 Hh).
assert (Hnn : h <> Nil) by (intros ->; exact Hh).
destruct (selectSquare_spec Hwf) as (s & Es & Hsel).
unfold total. rewrite (search_body_eq level Hnn Hderef Es).
destruct (Z.eqb_spec s (-1)) as [->|Hs].
- apply total_ret. split; [exact Hp|]. split; [intros k _; reflexivity|].
  right. exists g. split; [exact Hderef|].
  split; [now apply le_grid_refl | now apply selected_none].
- destruct Hsel as [[E _]|(Hsq & H2 & _)]; [contradiction|].
  eapply total_weaken.
  { apply search_digits_total; try eassumption; try lia.
    intros d Hd. exact Hd. }
  intros r w' [H _]. exact H.
Qed.

End SearchTotal.

Lemma search_fuel_ok (n : nat) : search_ok (Z.of_nat n) (search_fuel n).
Proof.
  induction n as [|n IH].
  - split; [simpl; lia|].
    intros h level w g _ _ Hwf _ _ Hn.
    assert (B := open_cells_bound Hwf). simpl in Hn. lia.
  - replace (Z.of_nat (S n)) with (Z.of_nat n + 1) by lia.
    simpl. apply (@search_body_ok _ (search_fuel n) _ IH).
    intros h level. apply refines_refl.
Qed.

(** [search] on an 81-cell grid, started at level 0 with the pool of
    [solveList], ends without panic: no slot beyond the 81 of the pool is
    touched and 82 nested calls are never exceeded. *)
Lemma search_total (g : grid) (w : world) :
  wf g -> pool_ok w ->
  total (search (Fresh g) 0) w (search_post g 0 w).
Proof.
  intros Hwf Hp. assert (B := open_cells_bound Hwf).
  apply (proj2 (search_fuel_ok 82) (Fresh g) 0 w g); try assumption;
    simpl; try reflexivity; lia.
Qed.

(** ** [parseGrid] *)

Lemma digit_rune (r : rune) :
  (r_1 <=? r) && (r <=? r_9) = true ->
  index DIGITS (r - r_0 - 1) = Done (cell_of_rune r) /\ is_digit (cell_of_rune r).
Proof.
  intros H. unfold cell_of_rune. rewrite H.
  apply andb_true_iff in H. destruct H as [H1 H2].
  apply Z.leb_le in H1. apply Z.leb_le in H2. unfold r_1, r_9, r_0 in *.
  assert (Hc : r = 49 \/ r = 50 \/ r = 51 \/ r = 52 \/ r = 53 \/ r = 54 \/
               r = 55 \/ r = 56 \/ r = 57) by lia.
  unfold is_digit.
  repeat (destruct Hc as [->|Hc]; [split; [reflexivity | simpl; tauto]|]).
  subst r. split; [reflexivity | simpl; tauto].
Qed.

Lemma upd_app_head (A : Type) (done pad : list A) (x v : A) :
  upd (done ++ x :: pad) (length done) v = done ++ v :: pad.
Proof. induction done as [|y done IH]; simpl; [reflexivity | now rewrite IH]. Qed.

Lemma rest_after_split (rs : list rune) (k : nat) :
  exists pre, rs = pre ++ rest_after rs k /\
              meaningful_count pre = Nat.min k (meaningful_count rs).
Proof.
  revert k. induction rs as [|r rs IH]; intros k.
  - exists []. unfold meaningful_count. simpl. split; [reflexivity | lia].
  - destruct k as [|k].
    + exists []. split; reflexivity.
    + simpl. unfold meaningful_count. simpl.
      destruct (meaningful r) eqn:Em.
      * destruct (IH k) as (pre & E & Hc). exists (r :: pre).
        split; [simpl; now rewrite <- E|].
        unfold meaningful_count in *. simpl. rewrite Em. simpl. lia.
      * destruct (IH (S k)) as (pre & E & Hc). exists (r :: pre).
        split; [simpl; now rewrite <- E|].
        unfold meaningful_count in *. simpl. rewrite Em. exact Hc.
Qed.

Lemma rest_after_length (rs : list rune) (k : nat) :
  (length (rest_after rs k) <= length rs)%nat.
Proof.
  destruct (rest_after_split rs k) as (pre & E & _).
  rewrite E at 2. rewrite length_app. lia.
Qed.

(** The loop of [parseGrid], started on a grid whose first cells are [done]:
    it writes the following meaningful characters up to cell 81. *)
Lemma parse_loop_spec (rs : list rune) :
  forall (i d : Z) (done pad : list Z),
    (length done + length pad = 81)%nat ->
    parse_loop rs i (Z.of_nat (length done)) d (done ++ pad)
    = Done (Z.of_nat (length done
                      + Nat.min (length pad) (length (filter meaningful rs))),
            last_pos rs (length pad) i d,
            done ++ map cell_of_rune (firstn (length pad) (filter meaningful rs))
                 ++ skipn (Nat.min (length pad) (length (filter meaningful rs)))
                      pad).
Proof.
  induction rs as [|r rs IH]; intros i d done pad Hlen.
  - simpl. rewrite Nat.min_0_r, Nat.add_0_r, firstn_nil.
    destruct (length pad); reflexivity.
  - simpl parse_loop. change (N * N) with 81.
    destruct pad as [|p pad].
    { simpl in Hlen. rewrite Nat.add_0_r in Hlen.
      replace (Z.of_nat (length done) =? 81) with true
        by (symmetry; apply Z.eqb_eq; lia).
      simpl. rewrite Nat.add_0_r. reflexivity. }
    simpl in Hlen.
    replace (Z.of_nat (length done) =? 81) with false
      by (symmetry; apply Z.eqb_neq; lia).
    assert (Hst : forall v, store (done ++ p :: pad) (Z.of_nat (length done)) v
                            = Done (done ++ v :: pad)).
    { intros v. rewrite store_Done by (rewrite length_app; simpl; lia).
      rewrite Nat2Z.id. now rewrite upd_app_head. }
    assert (Hlast : last_pos (r :: rs) (length (p :: pad)) i d
                    = last_pos rs (if meaningful r then length pad
                                   else length (p :: pad)) (i + 1) i).
    { assert (L1 := rest_after_length rs (length pad)).
      assert (L2 := rest_after_length rs (S (length pad))).
      assert (R0 : rest_after rs 0 = rs) by (destruct rs; reflexivity).
      change (length (p :: pad)) with (S (length pad)).
      unfold last_pos at 1. cbn [rest_after].
      change (length (r :: rs)) with (S (length rs)).
      destruct (meaningful r).
      - destruct (length pad) as [|k'].
        + rewrite R0. unfold last_pos. lia.
        + destruct rs as [|r' rs']; [cbn; lia|].
          unfold last_pos. lia.
      - destruct rs as [|r' rs']; [cbn; lia|].
        unfold last_pos. lia. }
    (* a meaningful character is stored and the loop goes on *)
    assert (Hstep : meaningful r = true ->
      parse_loop rs (i + 1) (Z.of_nat (length done) + 1) i
        (done ++ cell_of_rune r :: pad)
      = Done (Z.of_nat (length done
                 + Nat.min (length (p :: pad))
                           (length (filter meaningful (r :: rs)))),
              last_pos (r :: rs) (length (p :: pad)) i d,
              done ++ map cell_of_rune
                        (firstn (length (p :: pad)) (filter meaningful (r :: rs)))
                   ++ skipn (Nat.min (length (p :: pad))
                               (length (filter meaningful (r :: rs))))
                        (p :: pad))).
    { intros Hm. rewrite Hlast. simpl filter. rewrite Hm.
      assert (IH' := IH (i + 1) i (done ++ [cell_of_rune r]) pad).
      rewrite length_app in IH'. simpl length in IH'.
      replace (Z.of_nat (length done + 1)) with (Z.of_nat (length done) + 1)
        in IH' by lia.
      rewrite <- app_assoc in IH'. simpl app in IH'.
      rewrite IH' by lia. simpl. rewrite <- app_assoc. simpl.
      do 3 f_equal. lia. }
    destruct ((r_1 <=? r) && (r <=? r_9)) eqn:Edig.
    + destruct (digit_rune _ Edig) as [Eidx _].
      rewrite Eidx. simpl rbind. rewrite Hst. simpl rbind.
      apply Hstep. unfold meaningful. now rewrite Edig.
    + destruct ((r =? r_0) || (r =? r_dot)) eqn:Eblank.
      * rewrite Hst. simpl rbind.
        assert (Hm : meaningful r = true)
          by (unfold meaningful; now rewrite Edig, Eblank).
        specialize (Hstep Hm). unfold cell_of_rune in Hstep at 1.
        rewrite Edig in Hstep. exact Hstep.
      * assert (Hm : meaningful r = false)
          by (unfold meaningful; now rewrite Edig, Eblank).
        rewrite Hlast. simpl filter. rewrite Hm.
        apply (IH (i + 1) i done (p :: pad)). simpl. exact Hlen.
Qed.

Lemma ContainsAny_meaningful (rs : list rune) :
  ContainsAny_digits rs = existsb meaningful rs.
Proof.
  unfold ContainsAny_digits. induction rs as [|r rs IH]; [reflexivity|].
  simpl. rewrite IH. f_equal. unfold meaningful, r_0, r_1, r_9, r_dot.
  destruct (Z.eqb_spec r 46), (Z.eqb_spec r 48), (Z.leb_spec 48 r),
    (Z.leb_spec r 57), (Z.leb_spec 49 r); simpl; try reflexivity; lia.
Qed.

Lemma existsb_meaningful_count (rs : list rune) :
  existsb meaningful rs = negb (meaningful_count rs =? 0)%nat.
Proof.
  unfold meaningful_count. induction rs as [|r rs IH]; [reflexivity|].
  simpl. destruct (meaningful r); simpl; [reflexivity | exact IH].
Qed.

Lemma meaningful_count_app (l1 l2 : list rune) :
  meaningful_count (l1 ++ l2)
  = (meaningful_count l1 + meaningful_count l2)%nat.
Proof. unfold meaningful_count. now rewrite filter_app, length_app. Qed.

(** [parseGrid] accepts exactly the lines with 81 meaningful characters. *)
Lemma parseGrid_spec (l : list rune) :
  parseGrid l =
  if (meaningful_count l <? 81)%nat
  then Done (inr (TooFewDigits l (Z.of_nat (meaningful_count l)) 81))
  else if (81 <? meaningful_count l)%nat
       then Done (inr (TooManyDigits l 81))
       else Done (inl (map cell_of_rune (filter meaningful l))).
Proof.
  unfold parseGrid. change (N * N) with 81.
  change (repeat 0 (Z.to_nat 81)) with ([] ++ repeat 0 81).
  change 0 with (Z.of_nat (@length Z [])) at 2.
  rewrite parse_loop_spec by reflexivity.
  rewrite repeat_length. fold (meaningful_count l).
  cbn [rbind length Nat.add app].
  destruct (Nat.ltb_spec (meaningful_count l) 81) as [Hlt|Hge].
  - rewrite Nat.min_r by lia.
    replace (Z.of_nat (meaningful_count l) <? 81) with true
      by (symmetry; apply Z.ltb_lt; lia).
    reflexivity.
  - rewrite Nat.min_l by lia.
    replace (Z.of_nat 81 <? 81) with false by reflexivity.
    destruct (rest_after_split l 81) as (pre & E & Hpre).
    rewrite Nat.min_l in Hpre by lia.
    assert (Hne : l <> []) by (intros ->; unfold meaningful_count in Hge; simpl in Hge; lia).
    assert (Hd : last_pos l 81 0 0 + 1 = Z.of_nat (length pre)).
    { unfold last_pos. destruct l as [|r l']; [contradiction|].
      rewrite E at 1. rewrite length_app. lia. }
    rewrite Hd. unfold slice_from.
    replace ((0 <=? Z.of_nat (length pre)) && (Z.of_nat (length pre) <=? Z.of_nat (length l)))
      with true.
    2:{ symmetry. apply andb_true_iff. split; apply Z.leb_le; [lia|].
        rewrite E at 1. rewrite length_app. lia. }
    rewrite Nat2Z.id. cbn [rbind].
    assert (Hskip : skipn (length pre) l = rest_after l 81).
    { rewrite E at 1. rewrite skipn_app, skipn_all, Nat.sub_diag. reflexivity. }
    rewrite Hskip, ContainsAny_meaningful, existsb_meaningful_count.
    assert (Hc : meaningful_count l
                 = (81 + meaningful_count (rest_after l 81))%nat).
    { rewrite E at 1. rewrite meaningful_count_app. lia. }
    destruct (Nat.ltb_spec 81 (meaningful_count l)) as [Hgt|Hle].
    + replace (meaningful_count (rest_after l 81) =? 0)%nat with false
        by (symmetry; apply Nat.eqb_neq; lia).
      reflexivity.
    + replace (meaningful_count (rest_after l 81) =? 0)%nat with true
        by (symmetry; apply Nat.eqb_eq; lia).
      cbn [negb]. do 2 f_equal.
      rewrite firstn_all2 by (unfold meaningful_count in *; lia).
      rewrite skipn_all2 by (rewrite repeat_length; lia).
      apply app_nil_r.
Qed.

(** ** [initialize] *)

Lemma initialize_loop_total (p : grid) (ss : list Z) :
  puzzle_ok p -> (forall s, In s ss -> in_square s) ->
  forall (log : list (Z * Z * bool)) (g : grid),
    wf g ->
    total (initialize_loop ss p log) g
      (fun log' g' =>
         wf g' /\ le_grid g' g /\
         map fst log' = map fst log
                        ++ map (fun s => (s, cell p s)) (filter (given p) ss)).
Proof.
  intros [Lp Hp]. induction ss as [|s ss IH]; intros Hss log g Hwf; simpl.
  - apply total_ret. split; [exact Hwf|]. split; [now apply le_grid_refl|].
    now rewrite app_nil_r.
  - assert (Hs : in_square s) by (apply Hss; now left).
    assert (Hss' : forall t, In t ss -> in_square t)
      by (intros t Ht; apply Hss; now right).
    assert (Eidx : index p s = Done (cell p s)).
    { apply index_Done. unfold in_square in Hs. lia. }
    apply total_bind. eapply total_lift; [exact Eidx|].
    unfold given at 1.
    destruct (Z.eqb_spec (cell p s) ALL_DIGITS) as [E|E]; simpl negb; cbv iota.
    + apply IH; assumption.
    + apply total_bind. eapply total_lift; [exact Eidx|].
      assert (Hd : is_digit (cell p s)) by (destruct (Hp s Hs); [assumption | contradiction]).
      apply total_bind.
      eapply total_weaken; [apply (fill_total Hwf Hs Hd)|].
      intros ok g1 Hpost. cbv beta.
      destruct (@fill_post_le _ _ _ _ _ Hwf Hs Hd Hpost) as [Hle _].
      assert (Hwf1 : wf g1) by (eapply le_grid_wf; eassumption).
      eapply total_weaken; [apply (IH Hss' _ g1 Hwf1)|].
      intros log' g' (Hwf' & Hle' & Hlog). split; [exact Hwf'|].
      split; [eapply le_grid_trans; eassumption|].
      rewrite Hlog, map_app. simpl. now rewrite <- app_assoc.
Qed.

Lemma initialize_run_unfold (p : grid) :
  initialize_run p
  = initialize_loop (upto 81) p [] (repeat ALL_DIGITS 81).
Proof. reflexivity. Qed.

(** [initialize] ends on every puzzle and returns an 81-cell grid. *)
Lemma initialize_total (p : grid) :
  puzzle_ok p ->
  exists log g,
    initialize_run p = Done (log, g) /\ wf g /\
    initialize p = Done (Fresh g) /\ initialize_calls p = Done log /\
    map fst log = map (fun s => (s, cell p s)) (filter (given p) (upto 81)).
Proof.
  intros Hp.
  assert (Hw0 : wf (repeat ALL_DIGITS 81)).
  { apply wf_repeat. unfold in_cell, ALL_DIGITS. lia. }
  assert (Hsq : forall s, In s (upto 81) -> in_square s).
  { intros s Hs. apply In_upto in Hs. unfold in_square. lia. }
  destruct (@initialize_loop_total p (upto 81) Hp Hsq [] _ Hw0)
    as (log & g & E & Hwf & _ & Hlog).
  exists log, g. rewrite <- initialize_run_unfold in E.
  split; [exact E|]. split; [exact Hwf|].
  unfold initialize, initialize_calls. rewrite E.
  split; [reflexivity|]. split; [reflexivity|].
  rewrite Hlog. change (map fst (@nil (Z * Z * bool))) with (@nil (Z * Z)).
  apply app_nil_l.
Qed.

Lemma pool_ok_new (bt : Z) : pool_ok (World new_gridpool bt).
Proof.
  split; [reflexivity|]. intros k Hk.
  assert (H : forallb (fun k => (length (nth k new_gridpool []) =? 81)%nat)
                (seq 0 81) = true) by (vm_compute; reflexivity).
  rewrite forallb_forall in H. apply Nat.eqb_eq. apply H, in_seq. lia.
Qed.

(** The two working lines of [solveList] never panic, whatever the puzzle:
    they end with nil or with a grid that has no open cell. *)
Lemma solve_total (p : grid) (w : world) :
  puzzle_ok p -> pool_ok w ->
  exists r w', solve p w = Done (r, w') /\ pool_ok w' /\
    (r = Nil \/ exists g', deref r w' = Done (g', w') /\ wf g' /\
                           open_cells g' = 0).
Proof.
  intros Hp Hw.
  destruct (initialize_total Hp) as (log & g & _ & Hwf & Ei & _).
  destruct (search_total Hwf Hw) as (r & w' & Es & Hw' & _ & Hr).
  exists r, w'. unfold solve, bind, lift. rewrite Ei.
  split; [exact Es|]. split; [exact Hw'|].
  destruct Hr as [->|(g' & Eg & Hle & Ho)]; [now left|].
  right. exists g'. split; [exact Eg|]. split; [|exact Ho].
  eapply le_grid_wf; eassumption.
Qed.

(** ** [verify] *)

Lemma verify_squares_spec (g p : grid) (ss : list Z) :
  wf g -> wf p -> (forall s, In s ss -> in_square s) ->
  verify_squares ss g p = Done (forallb (square_ok g p) ss).
Proof.
  intros Hg Hp. induction ss as [|s ss IH]; intros Hss; [reflexivity|].
  assert (Hs : in_square s) by (apply Hss; now left).
  assert (Hss' : forall t, In t ss -> in_square t)
    by (intros t Ht; apply Hss; now right).
  assert (Eg : index g s = Done (cell g s))
    by (apply index_Done; destruct Hg as [L _]; unfold in_square in Hs; lia).
  assert (Ep : index p s = Done (cell p s))
    by (apply index_Done; destruct Hp as [L _]; unfold in_square in Hs; lia).
  cbn [verify_squares forallb]. rewrite Eg. cbn [rbind].
  rewrite (num_digits_at (wf_cell s Hg)). cbn [rbind].
  unfold square_ok at 1. fold (cands g s).
  destruct (cands g s =? 1); cbn [negb andb]; [|reflexivity].
  rewrite Ep. cbn [rbind]. rewrite (num_digits_at (wf_cell s Hp)). cbn [rbind].
  fold (cands p s).
  destruct (cands p s =? 1); cbn [negb orb].
  - destruct (cell g s =? cell p s); cbn [negb andb]; [|reflexivity].
    now apply IH.
  - cbn [andb]. now apply IH.
Qed.

Lemma unit_or_spec (g : grid) (ps : list Z) (acc : Z) :
  wf g -> (forall s, In s ps -> in_square s) ->
  unit_or ps g acc
  = Done (fold_left (fun a s => Z.lor a (cell g s)) ps acc).
Proof.
  intros Hg. revert acc. induction ps as [|s ps IH]; intros acc Hps;
    [reflexivity|].
  assert (Hs : in_square s) by (apply Hps; now left).
  cbn [unit_or fold_left]. rewrite (@index_Done _ g s 0)
    by (destruct Hg as [L _]; unfold in_square in Hs; lia).
  cbn [rbind]. fold (cell g s). apply IH. intros t Ht. apply Hps. now right.
Qed.

Lemma verify_units_spec (g : grid) (us : list (list Z)) :
  wf g -> (forall u, In u us -> length u = 9%nat) ->
  verify_units us g
  = Done (match us with
          | [] => true
          | _ => first_cells_or 9 g =? ALL_DIGITS
          end).
Proof.
  intros Hg. induction us as [|u us IH]; intros Hus; [reflexivity|].
  cbn [verify_units]. rewrite (Hus u (or_introl eq_refl)).
  rewrite unit_or_spec; [|exact Hg|].
  2:{ intros s Hs. apply In_upto in Hs. unfold in_square. lia. }
  cbn [rbind]. fold (first_cells_or 9 g).
  destruct (first_cells_or 9 g =? ALL_DIGITS) eqn:E; cbn [negb]; [|reflexivity].
  rewrite IH by (intros u' Hu'; apply Hus; now right).
  destruct us; reflexivity.
Qed.

(** What [verify] tests: every square, and the first nine cells of the grid
    once for each of the 27 units. *)
Lemma verify_spec (g p : grid) :
  wf g -> wf p ->
  verify (Some g) p
  = Done (forallb (square_ok g p) SQUARES
          && (first_cells_or 9 g =? ALL_DIGITS)).
Proof.
  intros Hg Hp. unfold verify.
  rewrite verify_squares_spec; try assumption.
  2:{ intros s Hs. change SQUARES with (upto 81) in Hs.
      apply In_upto in Hs. unfold in_square. lia. }
  cbn [rbind]. destruct (forallb (square_ok g p) SQUARES); [|reflexivity].
  rewrite verify_units_spec; [reflexivity | exact Hg |].
  intros u Hu.
  assert (H : forallb (fun u => (length u =? 9)%nat) ALL_UNITS = true)
    by (vm_compute; reflexivity).
  rewrite forallb_forall in H. apply Nat.eqb_eq. now apply H.
Qed.

(** ** Checks that run *)

Lemma wfb_sound (g : grid) : wfb g = true -> wf g.
Proof.
  unfold wfb. intros H. apply andb_true_iff in H. destruct H as [HL HF].
  apply Nat.eqb_eq in HL. split; [exact HL|]. intros i.
  destruct (nth_in_or_default i g 0) as [Hin|E]; [|rewrite E; apply in_cell_0].
  rewrite forallb_forall in HF. specialize (HF _ Hin).
  apply andb_true_iff in HF. destruct HF as [H1 H2].
  apply Z.leb_le in H1. apply Z.leb_le in H2. split; assumption.
Qed.

Lemma puzzleb_sound (p : grid) : puzzleb p = true -> puzzle_ok p.
Proof.
  unfold puzzleb. intros H. apply andb_true_iff in H. destruct H as [HL HF].
  apply Nat.eqb_eq in HL. split; [exact HL|]. intros s Hs.
  rewrite forallb_forall in HF.
  assert (Hin : In (cell p s) p).
  { unfold cell. apply nth_In. unfold in_square in Hs. lia. }
  specialize (HF _ Hin). apply orb_true_iff in HF. destruct HF as [H|H].
  - left. now apply member_spec.
  - right. now apply Z.eqb_eq.
Qed.

(** ** What a successful [fill] achieves *)

Lemma ones_nonzero (x : Z) : in_cell x -> x <> 0 -> 1 <= OnesCount x.
Proof.
  intros Hx Hn. assert (R := ones_range Hx).
  destruct (Z.eq_dec (OnesCount x) 0) as [E|E]; [|lia].
  apply (ones_zero Hx) in E. contradiction.
Qed.

(** A successful [fill] leaves the digit in its cell. *)
Lemma fill_sets_cell (g g' : grid) (s d : Z) :
  wf g -> in_square s -> is_digit d ->
  le_grid g' (upd g (Z.to_nat s) d) -> keeps (upd g (Z.to_nat s) d) g' ->
  cell g' s = d.
Proof.
  intros Hwf Hs Hd Hle Hk.
  assert (Hc := le_grid_cell s Hle). rewrite cell_upd_same in Hc by assumption.
  destruct Hc as (Hin & _ & E).
  destruct (below_digit Hin Hd E) as [E0|Ed]; [|exact Ed].
  exfalso. apply (Hk (Z.to_nat s)); [|exact E0].
  fold (cell (upd g (Z.to_nat s) d) s). rewrite cell_upd_same by assumption.
  apply (digit_facts Hd).
Qed.

(** A successful [fill] of an open cell determines that cell and keeps the
    cells that were determined. *)
Lemma fill_determines (g g' : grid) (s d : Z) :
  wf g -> in_square s -> is_digit d -> 2 <= cands g s ->
  fill s d g = Done (true, g') ->
  wf g' /\ cell g' s = d /\
  determined g + 1 <= determined g' /\ open_cells g' < open_cells g.
Proof.
  intros Hwf Hs Hd Hc E.
  destruct (fill_total Hwf Hs Hd) as (ok & g0 & Ef & Hpost).
  rewrite Ef in E. inversion E; subst ok g0. clear E.
  destruct (@fill_post_le _ _ _ _ _ Hwf Hs Hd Hpost) as [Hle _].
  assert (Hwf' : wf g') by (eapply le_grid_wf; eassumption).
  unfold fill_post in Hpost.
  destruct (Z.eqb_spec (Z.land (cell g s) d) 0) as [E0|_];
    [destruct Hpost as [Hf _]; discriminate Hf|].
  destruct Hpost as [Hle1 Hok]. destruct (Hok eq_refl) as [Hk _].
  assert (Hcell : cell g' s = d) by now apply (fill_sets_cell Hwf Hs Hd).
  assert (Hone : OnesCount d = 1) by apply (digit_facts Hd).
  split; [exact Hwf'|]. split; [exact Hcell|]. split.
  - cut (determined g < determined g'); [lia|].
    apply (@total_of_lt _ g g' (Z.to_nat s)).
    + symmetry. apply Hle.
    + intros i _.
      destruct (Z.eqb_spec (OnesCount (nth i g 0)) 1) as [E1|E1];
        [|destruct (OnesCount (nth i g' 0) =? 1); lia].
      assert (Hi : Z.to_nat s <> i).
      { intros <-. unfold cands, cell in Hc. lia. }
      assert (Hn : nth i g' 0 <> 0).
      { apply Hk. rewrite nth_upd_other by exact Hi.
        intros E0. rewrite E0 in E1. discriminate E1. }
      assert (H1 := cell_le_ones (proj2 Hle i)).
      assert (H2 := ones_nonzero (proj2 Hwf' i) Hn).
      replace (OnesCount (nth i g' 0) =? 1) with true
        by (symmetry; apply Z.eqb_eq; lia).
      lia.
    + destruct Hwf' as [L _]. unfold in_square in Hs. lia.
    + fold (cell g s). fold (cell g' s). rewrite Hcell, Hone.
      unfold cands in Hc.
      replace (OnesCount (cell g s) =? 1) with false
        by (symmetry; apply Z.eqb_neq; lia).
      simpl. lia.
  - apply (@open_cells_lt g' g s Hle Hs (proj1 Hwf)); [|exact Hc].
    rewrite Hcell, Hone. lia.
Qed.

(** ** Digits and blanks *)

Lemma meaningful_iff (r : rune) : meaningful r = true <-> digit_or_blank r.
Proof.
  unfold meaningful, digit_or_blank, r_0, r_1, r_9, r_dot.
  destruct (Z.eqb_spec r 46), (Z.eqb_spec r 48), (Z.leb_spec 49 r),
    (Z.leb_spec r 57); simpl; split; intros Hr; try discriminate; try lia;
    try reflexivity.
Qed.

Lemma meaningful_count_pos (rs : list rune) (r : rune) :
  In r rs -> meaningful r = true -> (1 <= meaningful_count rs)%nat.
Proof.
  intros Hin Hm. unfold meaningful_count.
  assert (H : In r (filter meaningful rs)) by (apply filter_In; auto).
  destruct (filter meaningful rs); [contradiction | simpl; lia].
Qed.

Lemma meaningful_count_ex (rs : list rune) :
  (1 <= meaningful_count rs)%nat ->
  exists r, In r rs /\ meaningful r = true.
Proof.
  unfold meaningful_count. intros H.
  destruct (filter meaningful rs) as [|r tl] eqn:E; [simpl in H; lia|].
  assert (Hin : In r (filter meaningful rs)) by (rewrite E; now left).
  apply filter_In in Hin. exists r. exact Hin.
Qed.

(** ** Units and peers *)

Lemma all_units_facts (u : list Z) :
  In u ALL_UNITS ->
  length u = 9%nat /\ NoDup u /\ forall t, In t u -> in_square t.
Proof.
  intros Hu.
  assert (H : forallb (fun u => (length u =? 9)%nat && nodupb u && squares_ok u)
                ALL_UNITS = true) by (vm_compute; reflexivity).
  rewrite forallb_forall in H. specialize (H u Hu).
  apply andb_true_iff in H. destruct H as [H H3].
  apply andb_true_iff in H. destruct H as [H1 H2].
  apply Nat.eqb_eq in H1. split; [exact H1|].
  split; [now apply nodupb_spec|].
  intros t Ht. eapply squares_ok_spec; eassumption.
Qed.

(** The units of a square are among the 27 units. *)
Lemma units_in_all (s : Z) (us : list (list Z)) (u : list Z) :
  in_square s -> index UNITS s = Done us -> In u us -> In u ALL_UNITS.
Proof.
  intros Hs E Hu.
  assert (H := @upto_all 81
    (fun s => match index UNITS s with
              | Done us =>
                  forallb (fun u => if in_dec (list_eq_dec Z.eq_dec) u ALL_UNITS
                                    then true else false) us
              | _ => false
              end) ltac:(vm_compute; reflexivity) s Hs).
  cbv beta in H. rewrite E in H. rewrite forallb_forall in H.
  specialize (H u Hu).
  destruct (in_dec (list_eq_dec Z.eq_dec) u ALL_UNITS) as [Hin|]; [exact Hin | discriminate].
Qed.

(** Two different squares of a unit are peers. *)
Lemma unit_peers (u : list Z) (t1 t2 : Z) :
  In u ALL_UNITS -> In t1 u -> In t2 u -> t1 <> t2 ->
  exists ps, index PEERS t1 = Done ps /\ In t2 ps.
Proof.
  intros Hu H1 H2 Hne.
  assert (H : forallb (fun u =>
                forallb (fun t1 =>
                  forallb (fun t2 =>
                    (t1 =? t2) || match index PEERS t1 with
                                  | Done ps => member t2 ps
                                  | _ => false
                                  end) u) u) ALL_UNITS = true)
    by (vm_compute; reflexivity).
  rewrite forallb_forall in H. specialize (H u Hu).
  rewrite forallb_forall in H. specialize (H t1 H1).
  rewrite forallb_forall in H. specialize (H t2 H2).
  apply orb_true_iff in H. destruct H as [H|H].
  - apply Z.eqb_eq in H. contradiction.
  - destruct (index PEERS t1) as [ps| |]; try discriminate.
    exists ps. split; [reflexivity | now apply member_spec].
Qed.

(** A peer shares a unit with the square. *)
Lemma peer_unit (s p : Z) (ps : list Z) :
  in_square s -> index PEERS s = Done ps -> In p ps ->
  p <> s /\ exists u, In u ALL_UNITS /\ In s u /\ In p u.
Proof.
  intros Hs E Hp.
  destruct (peers_at Hs) as (ps' & E' & _ & _ & _ & _ & Hiff).
  rewrite E in E'. inversion E'; subst ps'.
  apply Hiff in Hp. destruct Hp as (Hne & us & u & Eu & Hu & Hpu).
  split; [exact Hne|]. exists u.
  split; [eapply units_in_all; eassumption|].
  destruct (units_at Hs) as (us' & Eu' & _ & Hus).
  rewrite Eu in Eu'. inversion Eu'; subst us'.
  split; [apply (Hus u Hu) | exact Hpu].
Qed.

(** ** Unions of cells *)

Lemma in_cell_land (x : Z) : in_cell x <-> Z.land x 511 = x.
Proof.
  split.
  - intros Hx.
    assert (H := @upto_all 512 (fun x => Z.land x 511 =? x)
      ltac:(vm_compute; reflexivity) x (in_cell_upto Hx)).
    now apply Z.eqb_eq in H.
  - intros E. change 511 with (Z.ones 9) in E.
    rewrite Z.land_ones in E by lia.
    assert (B := Z.mod_pos_bound x (2 ^ 9) ltac:(lia)).
    unfold in_cell. change (2 ^ 9) with 512 in *. lia.
Qed.

Lemma in_cell_lor (x y : Z) : in_cell x -> in_cell y -> in_cell (Z.lor x y).
Proof.
  intros Hx Hy. apply in_cell_land. rewrite Z.land_lor_distr_l.
  apply in_cell_land in Hx, Hy. now rewrite Hx, Hy.
Qed.

Lemma union_in_cell (g : grid) (u : list Z) (acc : Z) :
  wf g -> in_cell acc ->
  in_cell (fold_left (fun a s => Z.lor a (cell g s)) u acc).
Proof.
  intros Hwf. revert acc. induction u as [|t u IH]; intros acc Hacc; simpl.
  - exact Hacc.
  - apply IH, in_cell_lor; [exact Hacc | apply wf_cell, Hwf].
Qed.

(** A digit of the union comes from one of the cells. *)
Lemma union_hit (g : grid) (u : list Z) (acc d : Z) :
  Z.land (fold_left (fun a s => Z.lor a (cell g s)) u acc) d <> 0 ->
  Z.land acc d <> 0 \/ exists t, In t u /\ Z.land (cell g t) d <> 0.
Proof.
  revert acc. induction u as [|t u IH]; intros acc H; simpl in H.
  - now left.
  - destruct (IH _ H) as [H1|(t' & Ht' & H1)].
    + rewrite Z.land_lor_distr_l in H1.
      destruct (Z.eq_dec (Z.land acc d) 0) as [E|E]; [|now left].
      right. exists t. split; [now left|].
      intros E'. apply H1. rewrite E, E'. reflexivity.
    + right. exists t'. split; [now right | exact H1].
Qed.

Lemma land_lor_keep (x a c : Z) : Z.land x a = x -> Z.land x (Z.lor a c) = x.
Proof.
  intros E. apply Z.bits_inj'. intros k Hk.
  assert (Ek : Z.testbit (Z.land x a) k = Z.testbit x k) by now rewrite E.
  rewrite Z.land_spec in Ek. rewrite Z.land_spec, Z.lor_spec.
  destruct (Z.testbit x k), (Z.testbit a k), (Z.testbit c k);
    simpl in *; congruence.
Qed.

Lemma land_lor_new (a c : Z) : Z.land c (Z.lor a c) = c.
Proof.
  apply Z.bits_inj'. intros k Hk. rewrite Z.land_spec, Z.lor_spec.
  destruct (Z.testbit c k), (Z.testbit a k); reflexivity.
Qed.

(** The union holds every cell it is made of. *)
Lemma union_keeps (g : grid) (u : list Z) (acc x : Z) :
  Z.land x acc = x ->
  Z.land x (fold_left (fun a s => Z.lor a (cell g s)) u acc) = x.
Proof.
  revert acc. induction u as [|t u IH]; intros acc H; simpl.
  - exact H.
  - apply IH. now apply land_lor_keep.
Qed.

Lemma union_holds (g : grid) (u : list Z) (acc t : Z) :
  In t u ->
  Z.land (cell g t) (fold_left (fun a s => Z.lor a (cell g s)) u acc)
  = cell g t.
Proof.
  revert acc. induction u as [|t' u IH]; intros acc Hin; [contradiction|].
  simpl. destruct Hin as [E|H].
  - subst t'. apply union_keeps. apply land_lor_new.
  - now apply IH.
Qed.

Lemma digit_meet (x d : Z) :
  is_digit x -> is_digit d -> Z.land x d <> 0 -> x = d.
Proof.
  intros Hx Hd Hn.
  assert (H : forallb (fun x => forallb (fun d =>
                (Z.land x d =? 0) || (x =? d)) DIGITS) DIGITS = true)
    by (vm_compute; reflexivity).
  rewrite forallb_forall in H. specialize (H x Hx).
  rewrite forallb_forall in H. specialize (H d Hd).
  apply orb_true_iff in H. destruct H as [H|H]; apply Z.eqb_eq in H;
    [contradiction | exact H].
Qed.

Lemma digit_in_all (d : Z) : is_digit d -> Z.land ALL_DIGITS d = d.
Proof.
  intros Hd.
  assert (H : forallb (fun d => Z.land ALL_DIGITS d =? d) DIGITS = true)
    by (vm_compute; reflexivity).
  rewrite forallb_forall in H. now apply Z.eqb_eq, H.
Qed.

Lemma all_digits_full (x : Z) :
  in_cell x -> (forall d, is_digit d -> Z.land d x = d) -> x = ALL_DIGITS.
Proof.
  intros Hx Hall.
  assert (H := @upto_all 512
    (fun x => negb (forallb (fun d => Z.land d x =? d) DIGITS)
              || (x =? ALL_DIGITS))
    ltac:(vm_compute; reflexivity) x (in_cell_upto Hx)).
  cbv beta in H. apply orb_true_iff in H. destruct H as [H|H].
  - apply negb_true_iff in H.
    assert (T : forallb (fun d => Z.land d x =? d) DIGITS = true).
    { apply forallb_forall. intros d Hd. apply Z.eqb_eq. now apply Hall. }
    rewrite T in H. discriminate.
  - now apply Z.eqb_eq.
Qed.

Lemma digits_nodup : NoDup DIGITS.
Proof. apply nodupb_spec. vm_compute. reflexivity. Qed.

(** ** Solved grids *)

(** Every digit is somewhere in every unit of a solved grid. *)
Lemma unit_has_digit (sol : grid) (u : list Z) (d : Z) :
  solved sol -> In u ALL_UNITS -> is_digit d ->
  exists t, In t u /\ cell sol t = d.
Proof.
  intros (Hwf & Hdig & Hun) Hu Hd.
  assert (Hn : Z.land (unit_union sol u) d <> 0).
  { rewrite (Hun u Hu), (digit_in_all Hd). apply (digit_facts Hd). }
  destruct (union_hit _ _ _ _ Hn) as [H0|(t & Ht & Hnt)].
  - exfalso. apply H0. apply Z.land_0_l.
  - exists t. split; [exact Ht|].
    apply digit_meet; [|exact Hd | exact Hnt].
    apply Hdig. now apply (all_units_facts Hu).
Qed.

Lemma places_of_digits (sol : grid) (u : list Z) (ds : list Z) :
  solved sol -> In u ALL_UNITS -> (forall d, In d ds -> is_digit d) ->
  exists ts, map (cell sol) ts = ds /\ incl ts u.
Proof.
  intros Hsol Hu. induction ds as [|d ds IH]; intros Hds.
  - exists []. split; [reflexivity | intros t []].
  - destruct IH as (ts & E & Hin); [intros d0 H0; apply Hds; now right|].
    destruct (@unit_has_digit sol u d Hsol Hu) as (t & Ht & Et);
      [apply Hds; now left|].
    exists (t :: ts). split; [simpl; now rewrite Et, E|].
    intros x [<-|Hx]; [exact Ht | now apply Hin].
Qed.

Lemma nodup_map_inj (A B : Type) (f : A -> B) (l : list A) (x y : A) :
  NoDup (map f l) -> In x l -> In y l -> f x = f y -> x = y.
Proof.
  induction l as [|a l IH]; intros Hnd Hx Hy E; [contradiction|].
  simpl in Hnd. inversion Hnd as [|? ? Hnot Hnd']; subst.
  destruct Hx as [->|Hx], Hy as [->|Hy]; try reflexivity.
  - exfalso. apply Hnot. rewrite E. now apply in_map.
  - exfalso. apply Hnot. rewrite <- E. now apply in_map.
  - now apply IH.
Qed.

(** In a solved grid a square and its peer hold different digits. *)
Lemma solved_distinct (sol : grid) : solved sol -> distinct_peers sol.
Proof.
  intros Hsol s ps p Hs E Hp Heq.
  destruct (@peer_unit s p ps Hs E Hp) as (Hne & u & Hu & Hsu & Hpu).
  destruct (all_units_facts Hu) as (Hlen & Hnd & Hsq).
  destruct (@places_of_digits sol u DIGITS Hsol Hu) as (ts & Emap & Hincl);
    [intros d Hd; exact Hd|].
  assert (Hndm : NoDup (map (cell sol) ts)) by (rewrite Emap; apply digits_nodup).
  assert (Hndt : NoDup ts) by (eapply NoDup_map_inv; exact Hndm).
  assert (Hlt : length ts = 9%nat).
  { rewrite <- (length_map (cell sol)), Emap. reflexivity. }
  assert (Hback : incl u ts).
  { apply NoDup_length_incl; [exact Hndt | lia | exact Hincl]. }
  apply Hne. eapply nodup_map_inj; [exact Hndm | | | exact Heq]; now apply Hback.
Qed.

(** Single digits that differ between peers make a solved grid. *)
Lemma distinct_solved (g : grid) :
  wf g -> (forall s, in_square s -> is_digit (cell g s)) ->
  distinct_peers g -> solved g.
Proof.
  intros Hwf Hdig Hdist. split; [exact Hwf|]. split; [exact Hdig|].
  intros u Hu. destruct (all_units_facts Hu) as (Hlen & Hnd & Hsq).
  assert (Hndm : NoDup (map (cell g) u)).
  { apply NoDup_map_NoDup_ForallPairs; [|exact Hnd].
    intros t1 t2 H1 H2 E. destruct (Z.eq_dec t1 t2) as [|Hne]; [assumption|].
    exfalso. destruct (@unit_peers u t1 t2 Hu H1 H2 Hne) as (ps & Eps & Hin).
    apply (Hdist t1 ps t2 (Hsq _ H1) Eps Hin). now symmetry. }
  assert (Hincl : incl (map (cell g) u) DIGITS).
  { intros x Hx. apply in_map_iff in Hx. destruct Hx as (t & <- & Ht).
    apply Hdig, Hsq, Ht. }
  assert (Hback : incl DIGITS (map (cell g) u)).
  { apply NoDup_length_incl; [exact Hndm | | exact Hincl].
    rewrite length_map, Hlen. simpl. lia. }
  apply all_digits_full.
  - apply union_in_cell; [exact Hwf | apply in_cell_0].
  - intros d Hd. apply Hback in Hd. apply in_map_iff in Hd.
    destruct Hd as (t & <- & Ht). now apply union_holds.
Qed.

Lemma solvedb_sound (g : grid) : solvedb g = true -> solved g.
Proof.
  unfold solvedb. intros H.
  apply andb_true_iff in H. destruct H as [H H3].
  apply andb_true_iff in H. destruct H as [H1 H2].
  split; [now apply wfb_sound|]. split.
  - intros s Hs. rewrite forallb_forall in H2.
    apply member_spec, H2. change SQUARES with (upto 81). now apply In_upto.
  - intros u Hu. rewrite forallb_forall in H3. now apply Z.eqb_eq, H3.
Qed.

(** ** Propagation and solved grids *)

Lemma total_both (S A : Type) (m : ST S A) (st : S) (Q1 Q2 : A -> S -> Prop) :
  total m st Q1 -> total m st Q2 ->
  total m st (fun a st' => Q1 a st' /\ Q2 a st').
Proof.
  intros (a & st' & E & H1) (a2 & st2 & E2 & H2).
  rewrite E in E2. inversion E2; subst. exists a2, st2. auto.
Qed.

Lemma cell_upd_other (g : grid) (s t v : Z) :
  in_square s -> in_square t -> t <> s ->
  cell (upd g (Z.to_nat s) v) t = cell g t.
Proof.
  intros Hs Ht Hne. unfold cell. apply nth_upd_other.
  unfold in_square in *. lia.
Qed.

Lemma le_grid_into_upd (sol g : grid) (s v : Z) :
  wf g -> in_square s -> le_grid sol g -> cell_le (cell sol s) v ->
  le_grid sol (upd g (Z.to_nat s) v).
Proof.
  intros Hwf Hs [L H] Hv. split; [now rewrite length_upd|].
  intros i. destruct (Nat.eq_dec (Z.to_nat s) i) as [<-|Hi].
  - rewrite nth_upd_same; [exact Hv|].
    destruct Hwf as [Lg _]. unfold in_square in Hs. lia.
  - rewrite nth_upd_other by exact Hi. apply H.
Qed.

(** A digit of a candidate set stays when another digit is removed. *)
Lemma digit_stays (x d e : Z) :
  in_cell x -> is_digit d -> is_digit e -> e <> d ->
  Z.land e x = e -> Z.land x d <> 0 -> Z.land e (x - d) = e.
Proof.
  intros Hx Hd He Hne E Hn.
  assert (H := @upto_all 512
    (fun x => forallb (fun d => forallb (fun e =>
       (e =? d) || negb (Z.land e x =? e) || (Z.land x d =? 0)
       || (Z.land e (x - d) =? e)) DIGITS) DIGITS)
    ltac:(vm_compute; reflexivity) x (in_cell_upto Hx)).
  cbv beta in H. rewrite forallb_forall in H. specialize (H d Hd).
  rewrite forallb_forall in H. specialize (H e He).
  rewrite E, Z.eqb_refl in H.
  destruct (Z.eqb_spec e d) as [|_]; [contradiction|].
  destruct (Z.eqb_spec (Z.land x d) 0) as [|_]; [contradiction|].
  simpl in H. now apply Z.eqb_eq.
Qed.

(** A solved grid inside [g] has its digit among the candidates of [g]. *)
Lemma solved_cand (sol g : grid) (s : Z) :
  solved sol -> le_grid sol g -> in_square s ->
  is_digit (cell sol s) /\ Z.land (cell sol s) (cell g s) = cell sol s /\
  Z.land (cell g s) (cell sol s) <> 0 /\ 1 <= cands g s.
Proof.
  intros (Hwf & Hdig & _) Hle Hs.
  assert (Hd := Hdig s Hs). destruct (digit_facts Hd) as (_ & H1 & Hne).
  destruct (le_grid_cell s Hle) as (_ & _ & E).
  split; [exact Hd|]. split; [exact E|]. split.
  - rewrite Z.land_comm, E. exact Hne.
  - assert (B := cell_le_ones (le_grid_cell s Hle)). unfold cands. lia.
Qed.

(** ** Settled squares *)

Lemma propagated_mono (g1 g2 : grid) (t : Z) :
  le_grid g2 g1 -> cell g2 t = cell g1 t -> propagated g1 t ->
  propagated g2 t.
Proof.
  intros Hle E H ps p Eps Hp. rewrite E.
  eapply cell_le_without; [apply (le_grid_cell p Hle)|].
  now apply (H ps).
Qed.

Lemma single_kept (g1 g2 : grid) (t : Z) :
  wf g1 -> le_grid g2 g1 -> keeps g1 g2 -> cands g1 t = 1 ->
  cell g2 t = cell g1 t.
Proof.
  intros Hwf Hle Hk H1.
  assert (Hd : is_digit (cell g1 t)) by (apply ones_one; [apply wf_cell, Hwf | exact H1]).
  destruct (le_grid_cell t Hle) as (Hin & _ & E).
  destruct (below_digit Hin Hd E) as [E0|E1]; [|exact E1].
  exfalso. apply (Hk (Z.to_nat t)); [|exact E0].
  apply (digit_facts Hd).
Qed.

Lemma settles_refl (g : grid) : settles g g.
Proof. intros t _ H. now left. Qed.

Lemma settles_trans (g g1 g2 : grid) :
  wf g1 -> le_grid g2 g1 -> keeps g1 g2 ->
  settles g g1 -> settles g1 g2 -> settles g g2.
Proof.
  intros Hwf Hle Hk H1 H2 t Ht Hc.
  destruct (H2 t Ht Hc) as [Hc1|Hp]; [|now right].
  destruct (H1 t Ht Hc1) as [Hc0|Hp]; [now left|].
  right. eapply propagated_mono; [exact Hle | | exact Hp].
  now apply single_kept.
Qed.

Lemma fill_settles_settles (g : grid) (s : Z) (g' : grid) :
  fill_settles g s g' -> settles g g'.
Proof.
  intros H t Ht Hc. destruct (H t Ht Hc) as [[_ H1]|Hp]; [now left | now right].
Qed.

(** A successful propagation step keeps a consistent grid consistent. *)
Lemma consistent_step (g g' : grid) :
  wf g -> le_grid g' g -> keeps g g' -> settles g g' ->
  consistent g -> consistent g'.
Proof.
  intros Hwf Hle Hk Hset Hc t Ht H1.
  destruct (Hset t Ht H1) as [H0|Hp]; [|exact Hp].
  eapply propagated_mono; [exact Hle | | apply (Hc t Ht H0)].
  now apply single_kept.
Qed.

Lemma nonempty_keeps (g g' : grid) : keeps g g' -> nonempty g -> nonempty g'.
Proof. intros Hk Hn s Hs. apply Hk, Hn, Hs. Qed.

(** ** What propagation knows *)

Section PropagationFacts.

Variable rec : Z -> Z -> ST grid bool.
Variable n : Z.
Hypothesis Hrec : fill_knows n rec.

Lemma rec_fill_ok : fill_ok n rec.
Proof.
intros g s d Hwf Hs Hd Hn.
eapply total_weaken; [apply (Hrec Hwf Hs Hd Hn)|].
intros ok g' H. apply H.
Qed.

Lemma arc_facts (g : grid) (s : Z) :
wf g -> in_square s -> bits g < n ->
total (arcConsistent rec s) g
  (fun ok g' =>
     (ok = true -> fill_settles g s g') /\
     (forall sol, solved sol -> le_grid sol g ->
                  ok = true /\ le_grid sol g')).
Proof.
intros Hwf Hs Hn. unfold arcConsistent.
apply total_bind, total_read; [exact Hwf | exact Hs|].
apply total_bind.
eapply total_lift; [apply num_digits_at, wf_cell, Hwf|].
fold (cands g s).
destruct (Z.leb_spec 2 (cands g s)) as [H2|H2].
- apply total_ret. split.
  + intros _ t Ht Ht1. left. split; [|exact Ht1].
    intros ->. lia.
  + intros sol _ Hle. split; [reflexivity | exact Hle].
- destruct (Z.eqb_spec (cands g s) 1) as [H1|H1].
  + apply total_bind, total_read; [exact Hwf | exact Hs|].
    assert (Hd : is_digit (cell g s))
      by (apply ones_one; [apply wf_cell, Hwf | exact H1]).
    eapply total_weaken; [apply (Hrec Hwf Hs Hd Hn)|].
    intros ok g' (Hpost & Hset & Hsound). cbv beta. split; [exact Hset|].
    intros sol Hsol Hle. apply (Hsound sol Hsol Hle).
    destruct (@solved_cand sol g s Hsol Hle Hs) as (Hds & E & _).
    destruct (le_grid_cell s Hle) as (Hin & _ & _).
    destruct (below_digit Hin Hd E) as [E0|E1]; [|exact E1].
    exfalso. apply (digit_facts Hds). exact E0.
  + apply total_ret. split; [discriminate|].
    intros sol Hsol Hle.
    destruct (@solved_cand sol g s Hsol Hle Hs) as (_ & _ & _ & B). lia.
Qed.

Lemma dual_places_exact (g : grid) (d : Z) (u done : list Z)
(dPlaces dplace : Z) :
wf g -> (forall t, In t u -> in_square t) ->
dPlaces = 0 \/ dPlaces = 1 ->
place_exact g done d (dPlaces, dplace) ->
total (dual_places u d dPlaces dplace) g
  (fun pl g' => g' = g /\ place_exact g (done ++ u) d pl).
Proof.
intros Hwf. revert done dPlaces dplace.
induction u as [|s2 u IH]; intros done dPlaces dplace Hu Hdp Hex; simpl.
- apply total_ret. split; [reflexivity|]. now rewrite app_nil_r.
- assert (Hs2 : in_square s2) by (apply Hu; now left).
  assert (Hu' : forall t, In t u -> in_square t)
    by (intros t Ht; apply Hu; now right).
  apply total_bind, total_read; [exact Hwf | exact Hs2|].
  replace (done ++ s2 :: u) with ((done ++ [s2]) ++ u)
    by (rewrite <- app_assoc; reflexivity).
  destruct Hex as [Hex0 Hex1]. simpl in Hex0, Hex1.
  destruct (Z.ltb_spec 0 (Z.land (cell g s2) d)) as [Hp|Hp].
  + destruct (Z.ltb_spec 1 (dPlaces + 1)) as [Hb|Hb].
    * apply total_ret. split; [reflexivity|].
      split; simpl; intros E; lia.
    * assert (E0 : dPlaces = 0) by lia. subst dPlaces.
      apply IH; [exact Hu' | now right|].
      split; simpl; [intros E; discriminate E|]. intros _.
      split; [apply in_or_app; right; now left|]. split; [lia|].
      intros t Ht Hn. apply in_app_or in Ht. destruct Ht as [Ht|[<-|[]]].
      -- exfalso. apply Hn. now apply Hex0.
      -- reflexivity.
  + assert (Ez : Z.land (cell g s2) d = 0).
    { assert (0 <= Z.land (cell g s2) d); [|lia].
      apply Z.land_nonneg. left. apply (wf_cell s2 Hwf). }
    apply IH; [exact Hu' | exact Hdp|].
    split; simpl.
    * intros E t Ht. apply in_app_or in Ht.
      destruct Ht as [Ht|[<-|[]]]; [now apply Hex0 | exact Ez].
    * intros E. destruct (Hex1 E) as (Hin & Hn & Huniq).
      split; [apply in_or_app; now left|]. split; [exact Hn|].
      intros t Ht Hnt. apply in_app_or in Ht.
      destruct Ht as [Ht|[<-|[]]]; [now apply Huniq | contradiction].
Qed.

Lemma dual_units_facts (us : list (list Z)) (d : Z) (g : grid) :
wf g -> is_digit d -> bits g < n ->
(forall u, In u us -> In u ALL_UNITS) ->
total (dual_units rec us d) g
  (fun ok g' =>
     (ok = true -> settles g g') /\
     (forall sol, solved sol -> le_grid sol g ->
                  ok = true /\ le_grid sol g')).
Proof.
intros Hwf Hd. revert g Hwf.
induction us as [|u us IH]; intros g Hwf Hn Hus; simpl.
- apply total_ret. split; [intros _; apply settles_refl|].
  intros sol _ Hle. split; [reflexivity | exact Hle].
- assert (Hu : In u ALL_UNITS) by (apply Hus; now left).
  assert (Hus' : forall u0, In u0 us -> In u0 ALL_UNITS)
    by (intros u0 H0; apply Hus; now right).
  assert (Hsq' : forall u0, In u0 us -> forall t, In t u0 -> in_square t).
  { intros u0 H0. apply (all_units_facts (Hus' u0 H0)). }
  destruct (all_units_facts Hu) as (_ & _ & Hsq).
  apply total_bind. eapply total_weaken.
  { apply (@dual_places_exact g d u [] 0 (-1) Hwf Hsq); [now left|].
    split; simpl; [intros _ t [] | intros E; discriminate E]. }
  intros [dPlaces dplace] g0 [-> [Hex0 Hex1]]. cbn [fst snd] in *.
  (* where a solved grid inside [g] has [d] in this unit *)
  assert (Hplace : forall sol, solved sol -> le_grid sol g ->
            exists t, In t u /\ cell sol t = d /\ Z.land (cell g t) d <> 0).
  { intros sol Hsol Hle.
    destruct (@unit_has_digit sol u d Hsol Hu Hd) as (t & Ht & Et).
    exists t. split; [exact Ht|]. split; [exact Et|].
    destruct (@solved_cand sol g t Hsol Hle (Hsq t Ht)) as (_ & _ & Hn0 & _).
    now rewrite Et in Hn0. }
  destruct (Z.eqb_spec dPlaces 0) as [E0|E0].
  { apply total_ret. split; [discriminate|].
    intros sol Hsol Hle. destruct (Hplace sol Hsol Hle) as (t & Ht & _ & Hn0).
    exfalso. apply Hn0. now apply Hex0. }
  destruct (Z.eqb_spec dPlaces 1) as [E1|E1].
  + destruct (Hex1 E1) as (Hin & Hcand & Huniq).
    assert (Hdp : in_square dplace) by now apply Hsq.
    apply total_bind.
    eapply total_weaken; [apply (Hrec Hwf Hdp Hd Hn)|].
    intros ok g1 (Hpost & Hset & Hsound). cbv beta.
    destruct (@fill_post_le _ _ _ _ _ Hwf Hdp Hd Hpost) as [Hle1 Hk1].
    assert (Hwf1 : wf g1) by (eapply le_grid_wf; eassumption).
    assert (Hsol1 : forall sol, solved sol -> le_grid sol g ->
              ok = true /\ le_grid sol g1).
    { intros sol Hsol Hle. apply (Hsound sol Hsol Hle).
      destruct (Hplace sol Hsol Hle) as (t & Ht & Et & Hn0).
      now rewrite <- (Huniq t Ht Hn0). }
    destruct ok.
    * assert (Hb1 : bits g1 < n) by (assert (B := bits_le Hle1); lia).
      eapply total_weaken.
      { apply total_both;
          [apply (dual_units_total rec_fill_ok us Hwf1 Hd Hb1 Hsq')
          | apply (IH g1 Hwf1 Hb1 Hus')]. }
      intros ok2 g2 [[Hle2 Hk2] [Hset2 Hsound2]]. split.
      -- intros Ht. apply (@settles_trans g g1 g2 Hwf1 Hle2 (Hk2 Ht)).
         ++ apply fill_settles_settles with dplace. now apply Hset.
         ++ now apply Hset2.
      -- intros sol Hsol Hle. apply (Hsound2 sol Hsol).
         apply (Hsol1 sol Hsol Hle).
    * apply total_ret. split; [discriminate|].
      intros sol Hsol Hle. destruct (Hsol1 sol Hsol Hle) as [Hf _].
      discriminate Hf.
  + apply IH; assumption.
Qed.

Lemma dual_facts (g : grid) (s d : Z) :
wf g -> in_square s -> is_digit d -> bits g < n ->
total (dualConsistent rec s d) g
  (fun ok g' =>
     (ok = true -> settles g g') /\
     (forall sol, solved sol -> le_grid sol g ->
                  ok = true /\ le_grid sol g')).
Proof.
intros Hwf Hs Hd Hn. unfold dualConsistent.
destruct (units_at Hs) as (us & E & _ & Hus).
apply total_bind. eapply total_lift; [exact E|].
apply dual_units_facts; try assumption.
intros u Hu. eapply units_in_all; eassumption.
Qed.

Lemma eliminate_facts (g : grid) (s d : Z) :
wf g -> in_square s -> is_digit d -> bits g <= n ->
total (eliminate rec s d) g
  (fun ok g' =>
     (ok = true -> settles g g') /\
     (forall sol, solved sol -> le_grid sol g -> cell sol s <> d ->
                  ok = true /\ le_grid sol g')).
Proof.
intros Hwf Hs Hd Hn. unfold eliminate.
apply total_bind, total_read; [exact Hwf | exact Hs|].
destruct (Z.eqb_spec (Z.land (cell g s) d) 0) as [E|E].
{ apply total_ret. split; [intros _; apply settles_refl|].
  intros sol _ Hle _. split; [reflexivity | exact Hle]. }
apply total_bind, total_read; [exact Hwf | exact Hs|].
destruct (drop_digit (wf_cell s Hwf) Hd E)
  as (Hin & Hw & Hsub & Hwo & Hones & _).
rewrite Hw.
apply total_bind, total_write; [exact Hwf | exact Hs|].
set (g1 := upd g (Z.to_nat s) (cell g s - d)).
assert (Hwf1 : wf g1) by (apply wf_upd; assumption).
assert (Hle1 : le_grid g1 g).
{ apply le_grid_upd; [exact Hwf|]. split; [exact Hin|].
  split; [apply Hwf | exact Hsub]. }
assert (Hb1 : bits g1 < n).
{ assert (bits g1 < bits g); [|lia].
  apply bits_drop; try assumption.
  - split; [exact Hin|]. split; [apply wf_cell, Hwf | exact Hsub].
  - lia. }
assert (Hsol1 : forall sol, solved sol -> le_grid sol g -> cell sol s <> d ->
          le_grid sol g1).
{ intros sol Hsol Hle Hne. apply le_grid_into_upd; try assumption.
  destruct (@solved_cand sol g s Hsol Hle Hs) as (Hds & Es & _).
  split; [apply (digit_facts Hds)|]. split; [exact Hin|].
  apply digit_stays; try assumption. apply wf_cell, Hwf. }
apply total_bind. eapply total_weaken.
{ apply total_both;
    [apply (arc_total rec_fill_ok Hwf1 Hs Hb1) | apply (arc_facts Hwf1 Hs Hb1)]. }
intros arc g2 [[Hle2 Harc] [Hset2 Hsound2]]. cbv beta.
assert (Hwf2 : wf g2) by (eapply le_grid_wf; eassumption).
assert (Hb2 : bits g2 < n) by (assert (B := bits_le Hle2); lia).
destruct arc.
- destruct (Harc eq_refl) as [Hk2 _].
  eapply total_weaken.
  { apply total_both;
      [apply (dual_total rec_fill_ok Hwf2 Hs Hd Hb2)
      | apply (dual_facts Hwf2 Hs Hd Hb2)]. }
  intros ok g3 [[Hle3 Hk3] [Hset3 Hsound3]]. cbv beta. split.
  + intros Ht. apply (@settles_trans g g2 g3 Hwf2 Hle3 (Hk3 Ht)).
    * intros t Hsq Hc. destruct (Hset2 eq_refl t Hsq Hc) as [[Hts Hc1]|Hp];
        [left | now right].
      unfold cands, g1 in Hc1. now rewrite cell_upd_other in Hc1.
    * now apply Hset3.
  + intros sol Hsol Hle Hne. apply (Hsound3 sol Hsol).
    apply (Hsound2 sol Hsol). now apply Hsol1.
- apply total_ret. split; [discriminate|].
  intros sol Hsol Hle Hne.
  destruct (Hsound2 sol Hsol (Hsol1 sol Hsol Hle Hne)) as [Hf _].
  discriminate Hf.
Qed.

Lemma fill_peers_facts (ps : list Z) (d : Z) (g : grid) :
wf g -> is_digit d -> bits g <= n ->
(forall p, In p ps -> in_square p) ->
total (fill_peers rec ps d) g
  (fun ok g' =>
     (ok = true -> settles g g') /\
     (forall sol, solved sol -> le_grid sol g ->
                  (forall p, In p ps -> cell sol p <> d) ->
                  ok = true /\ le_grid sol g')).
Proof.
intros Hwf Hd. revert g Hwf.
induction ps as [|p ps IH]; intros g Hwf Hn Hps; simpl.
- apply total_ret. split; [intros _; apply settles_refl|].
  intros sol _ Hle _. split; [reflexivity | exact Hle].
- assert (Hp : in_square p) by (apply Hps; now left).
  assert (Hps' : forall q, In q ps -> in_square q)
    by (intros q Hq; apply Hps; now right).
  apply total_bind. eapply total_weaken.
  { apply total_both;
      [apply (eliminate_total rec_fill_ok Hwf Hp Hd Hn)
      | apply (eliminate_facts Hwf Hp Hd Hn)]. }
  intros ok g1 [(Hle1 & Hwo1 & Hk1) [Hset1 Hsound1]]. cbv beta.
  assert (Hwf1 : wf g1) by (eapply le_grid_wf; eassumption).
  assert (Hb1 : bits g1 <= n) by (assert (B := bits_le Hle1); lia).
  destruct ok.
  + eapply total_weaken.
    { apply total_both;
        [apply (fill_peers_total rec_fill_ok ps Hwf1 Hd Hb1 Hps')
        | apply (IH g1 Hwf1 Hb1 Hps')]. }
    intros ok2 g2 [[Hle2 Hok2] [Hset2 Hsound2]]. split.
    * intros Ht. destruct (Hok2 Ht) as [Hk2 _].
      apply (@settles_trans g g1 g2 Hwf1 Hle2 Hk2);
        [now apply Hset1 | now apply Hset2].
    * intros sol Hsol Hle Hall.
      destruct (Hsound1 sol Hsol Hle (Hall p (or_introl eq_refl))) as [_ Hle'].
      apply (Hsound2 sol Hsol Hle'). intros q Hq. apply Hall. now right.
  + apply total_ret. split; [discriminate|].
    intros sol Hsol Hle Hall.
    destruct (Hsound1 sol Hsol Hle (Hall p (or_introl eq_refl))) as [Hf _].
    discriminate Hf.
Qed.

Lemma fill_body_facts (g : grid) (s d : Z) :
wf g -> in_square s -> is_digit d -> bits g <= n ->
total (fill_body rec s d) g (fill_facts g s d).
Proof.
intros Hwf Hs Hd Hn. unfold fill_facts.
eapply total_weaken.
{ apply total_both; [apply (fill_body_total rec_fill_ok Hwf Hs Hd Hn)|].
  instantiate (1 := fun ok g' =>
    (ok = true -> fill_settles g s g') /\
    (forall sol, solved sol -> le_grid sol g -> cell sol s = d ->
                 ok = true /\ le_grid sol g')).
  unfold fill_body.
  apply total_bind, total_read; [exact Hwf | exact Hs|].
  destruct (Z.eqb_spec (Z.land (cell g s) d) 0) as [E|E].
  { apply total_ret. split; [discriminate|].
    intros sol Hsol Hle Es.
    destruct (@solved_cand sol g s Hsol Hle Hs) as (_ & _ & Hn0 & _).
    rewrite Es in Hn0. contradiction. }
  apply total_bind, total_write; [exact Hwf | exact Hs|].
  set (g1 := upd g (Z.to_nat s) d).
  assert (Hle1 : le_grid g1 g) by now apply set_digit_le.
  assert (Hwf1 : wf g1) by (eapply le_grid_wf; eassumption).
  assert (Hb1 : bits g1 <= n) by (assert (B := bits_le Hle1); lia).
  assert (Hc1 : cell g1 s = d) by (apply cell_upd_same; assumption).
  destruct (peers_at Hs) as (ps & Eps & _ & _ & _ & Hps & _).
  apply total_bind. eapply total_lift; [exact Eps|].
  eapply total_weaken.
  { apply total_both;
      [apply (fill_peers_total rec_fill_ok ps Hwf1 Hd Hb1 Hps)
      | apply (fill_peers_facts ps Hwf1 Hd Hb1 Hps)]. }
  intros ok g' [[Hle Hok] [Hset Hsound]]. cbv beta. split.
  - intros Ht. destruct (Hok Ht) as [Hk Hall]. intros t Hsq Hc.
    destruct (Z.eq_dec t s) as [->|Hts].
    + right. intros ps' p E' Hp. rewrite Eps in E'. inversion E'; subst ps'.
      replace (cell g' s) with d; [now apply Hall|].
      symmetry. rewrite <- Hc1. apply single_kept; try assumption.
      unfold cands. rewrite Hc1. apply (digit_facts Hd).
    + destruct (Hset Ht t Hsq Hc) as [Hc0|Hp]; [left | now right].
      split; [exact Hts|].
      unfold cands, g1 in Hc0. now rewrite cell_upd_other in Hc0.
  - intros sol Hsol Hle0 Es. apply (Hsound sol Hsol).
    + apply le_grid_into_upd; try assumption. rewrite Es.
      apply cell_le_refl, (digit_facts Hd).
    + intros p Hp. rewrite <- Es.
      apply (@solved_distinct sol Hsol s ps p Hs Eps Hp). }
intros ok g' [H1 [H2 H3]]. auto.
Qed.

End PropagationFacts.

Lemma fill_fuel_knows (n : nat) : fill_knows (Z.of_nat n) (fill_fuel n).
Proof.
  induction n as [|n IH].
  - intros g s d Hwf _ _ Hb. assert (B := bits_bound Hwf). simpl in Hb. lia.
  - intros g s d Hwf Hs Hd Hb. simpl.
    apply (fill_body_facts IH Hwf Hs Hd). lia.
Qed.

Lemma fill_knows_all (g : grid) (s d : Z) :
  wf g -> in_square s -> is_digit d ->
  total (fill s d) g (fill_facts g s d).
Proof.
  intros Hwf Hs Hd. apply (@fill_fuel_knows FUEL g s d Hwf Hs Hd).
  assert (B := bits_bound Hwf). unfold FUEL. lia.
Qed.

(** ** Search on private copies *)

Lemma plain_try_step (explore : grid -> result (option grid)) (d : Z)
  (cs : list Z) (g : grid) (s : Z) (ok : bool) (g' : grid) :
  fill s d g = Done (ok, g') ->
  plain_try explore (d :: cs) g s
  = match (if ok then explore g' else Done None) with
    | Done (Some sol) => Done (Some sol)
    | Done None => plain_try explore cs g s
    | Panic => Panic
    | OutOfFuel => OutOfFuel
    end.
Proof.
  intros E. cbn [plain_try]. rewrite E. cbn [rbind fst snd].
  destruct ok; [destruct (explore g') as [[x|]| |] |]; reflexivity.
Qed.

Lemma plain_body_eq (explore : grid -> result (option grid)) (g : grid)
  (s : Z) :
  selectSquare g = Done s ->
  plain_body explore g
  = if s =? -1 then Done (Some g)
    else plain_try explore (spec_candidates g s) g s.
Proof. intros E. unfold plain_body. rewrite E. reflexivity. Qed.

Lemma plain_search_S (n : nat) (g : grid) :
  plain_search (S n) g = plain_body (plain_search n) g.
Proof. reflexivity. Qed.

(** A successful [fill] of an open square closes it. *)
Lemma open_after_fill (g g' : grid) (s d : Z) :
  wf g -> in_square s -> is_digit d -> 2 <= cands g s ->
  fill_post g s d true g' -> open_cells g' < open_cells g.
Proof.
  intros Hwf Hs Hd Hc Hpost.
  assert (Hle : le_grid g' g) by (apply (@fill_post_le _ _ _ _ _ Hwf Hs Hd Hpost)).
  unfold fill_post in Hpost.
  destruct (Z.eqb_spec (Z.land (cell g s) d) 0) as [E0|_];
    [destruct Hpost as [Hf _]; discriminate Hf|].
  destruct Hpost as [Hle1 _].
  apply (@open_cells_lt g' g s Hle Hs (proj1 Hwf)); [|exact Hc].
  assert (Hcell := le_grid_cell s Hle1).
  rewrite cell_upd_same in Hcell by assumption.
  assert (H1 := cell_le_ones Hcell).
  rewrite (proj1 (proj2 (digit_facts Hd))) in H1. exact H1.
Qed.

(** What a successful [fill] keeps of a consistent grid without empty cell. *)
Lemma fill_keeps_consistent (g g' : grid) (s d : Z) :
  wf g -> in_square s -> is_digit d -> consistent g -> nonempty g ->
  fill_facts g s d true g' ->
  wf g' /\ le_grid g' g /\ consistent g' /\ nonempty g'.
Proof.
  intros Hwf Hs Hd Hc Hne (Hpost & Hset & _).
  destruct (@fill_post_le _ _ _ _ _ Hwf Hs Hd Hpost) as [Hle Hk].
  split; [eapply le_grid_wf; eassumption|]. split; [exact Hle|]. split.
  - apply (@consistent_step g g' Hwf Hle (Hk eq_refl)); [|exact Hc].
    apply fill_settles_settles with s. now apply Hset.
  - apply (nonempty_keeps (Hk eq_refl) Hne).
Qed.

(** A grid with one candidate in every cell, propagated, is solved. *)
Lemma consistent_solved (g : grid) :
  wf g -> consistent g -> nonempty g ->
  (forall t, in_square t -> cands g t <= 1) -> solved g.
Proof.
  intros Hwf Hc Hne Hall.
  assert (H1 : forall t, in_square t -> cands g t = 1).
  { intros t Ht. specialize (Hall t Ht).
    assert (B := ones_nonzero (wf_cell t Hwf) (Hne t Ht)).
    unfold cands in *. lia. }
  apply distinct_solved; [exact Hwf | |].
  - intros t Ht. apply ones_one; [apply wf_cell, Hwf | now apply H1].
  - intros s ps p Hs E Hp Heq.
    assert (Hz := Hc s Hs (H1 s Hs) ps p E Hp).
    rewrite Heq, Z.land_diag in Hz. now apply (Hne s Hs).
Qed.

(** The plain search returns solved grids only. *)
Lemma plain_sound (n : nat) (g r : grid) :
  wf g -> consistent g -> nonempty g ->
  plain_search n g = Done (Some r) -> solved r /\ le_grid r g.
Proof.
  revert g r. induction n as [|n IH]; intros g r Hwf Hc Hne E;
    [discriminate E|].
  rewrite plain_search_S in E.
  destruct (selectSquare_spec Hwf) as (s & Es & Hsel).
  rewrite (@plain_body_eq _ _ _ Es) in E. revert E.
  destruct (Z.eqb_spec s (-1)) as [Hs1|Hs1]; intros E.
  - subst s. inversion E; subst r. split; [|now apply le_grid_refl].
    destruct Hsel as [[_ Hall]|[Hsq _]]; [|unfold in_square in Hsq; lia].
    now apply consistent_solved.
  - destruct Hsel as [[E1 _]|(Hs & H2 & _)]; [contradiction|].
    assert (Hcs : forall d, In d (spec_candidates g s) -> is_digit d).
    { intros d Hd. apply filter_In in Hd. apply Hd. }
    revert E Hcs. generalize (spec_candidates g s) as cs.
    induction cs as [|d cs IHcs]; intros Et Hcs; [discriminate Et|].
    assert (Hd : is_digit d) by (apply Hcs; now left).
    assert (Hcs' : forall d0, In d0 cs -> is_digit d0)
      by (intros d0 H0; apply Hcs; now right).
    destruct (fill_knows_all Hwf Hs Hd) as (ok & g' & Ef & Hfacts).
    rewrite (@plain_try_step _ _ cs _ _ _ _ Ef) in Et.
    destruct ok; [|now apply IHcs].
    destruct (plain_search n g') as [[r'|]| |] eqn:Er; try discriminate Et;
      [|now apply IHcs].
    inversion Et; subst r'.
    destruct (@fill_keeps_consistent g g' s d Hwf Hs Hd Hc Hne Hfacts)
      as (Hwf' & Hle' & Hc' & Hne').
    destruct (IH g' r Hwf' Hc' Hne' Er) as [Hsol Hle].
    split; [exact Hsol | eapply le_grid_trans; eassumption].
Qed.

(** The plain search ends, and finds a grid whenever the grid it starts
    from has a solved grid inside. *)
Lemma plain_complete (n : nat) (g : grid) :
  wf g -> open_cells g < Z.of_nat n ->
  exists r, plain_search n g = Done r /\
    forall sol, solved sol -> le_grid sol g -> r <> None.
Proof.
  revert g. induction n as [|n IH]; intros g Hwf Hn.
  { assert (B := open_cells_bound Hwf). simpl in Hn. lia. }
  rewrite plain_search_S.
  destruct (selectSquare_spec Hwf) as (s & Es & Hsel).
  rewrite (@plain_body_eq _ _ _ Es).
  destruct (Z.eqb_spec s (-1)) as [Hs1|Hs1].
  { exists (Some g). split; [reflexivity | discriminate]. }
  destruct Hsel as [[E1 _]|(Hs & H2 & _)]; [contradiction|].
  assert (Hloop : forall cs, (forall d, In d cs -> is_digit d) ->
    exists r, plain_try (plain_search n) cs g s = Done r /\
      forall sol, solved sol -> le_grid sol g -> In (cell sol s) cs ->
                  r <> None).
  { induction cs as [|d cs IHcs]; intros Hcs.
    { exists None. split; [reflexivity|]. intros sol _ _ []. }
    assert (Hd : is_digit d) by (apply Hcs; now left).
    destruct IHcs as (r2 & E2 & Hr2); [intros d0 H0; apply Hcs; now right|].
    destruct (fill_knows_all Hwf Hs Hd) as (ok & g' & Ef & Hpost & _ & Hsound).
    rewrite (@plain_try_step _ _ cs _ _ _ _ Ef).
    destruct ok.
    - assert (Hle : le_grid g' g) by (apply (@fill_post_le _ _ _ _ _ Hwf Hs Hd Hpost)).
      assert (Hwf' : wf g') by (eapply le_grid_wf; eassumption).
      assert (Ho := @open_after_fill g g' s d Hwf Hs Hd H2 Hpost).
      destruct (IH g' Hwf' ltac:(lia)) as (r1 & E1 & Hr1).
      rewrite E1. destruct r1 as [x|].
      + exists (Some x). split; [reflexivity | discriminate].
      + exists r2. split; [exact E2|].
        intros sol Hsol Hle0 [Ed|Hin]; [|apply (Hr2 sol Hsol Hle0 Hin)].
        exfalso. destruct (Hsound sol Hsol Hle0 (eq_sym Ed)) as [_ Hle1].
        now apply (Hr1 sol Hsol Hle1).
    - exists r2. split; [exact E2|].
      intros sol Hsol Hle0 [Ed|Hin]; [|apply (Hr2 sol Hsol Hle0 Hin)].
      exfalso. destruct (Hsound sol Hsol Hle0 (eq_sym Ed)) as [Hf _].
      discriminate Hf. }
  destruct (Hloop (spec_candidates g s)) as (r & Er & Hr).
  { intros d Hd. apply filter_In in Hd. apply Hd. }
  exists r. split; [exact Er|].
  intros sol Hsol Hle. apply (Hr sol Hsol Hle).
  destruct (@solved_cand sol g s Hsol Hle Hs) as (Hds & E & _).
  apply filter_In. split; [exact Hds|].
  apply Z.ltb_lt. rewrite E.
  assert (B := digit_facts Hds). unfold in_cell in B. lia.
Qed.

(** ** The pool does not show *)

Lemma index_nth (A : Type) (l : list A) (i : Z) (x dflt : A) :
  index l i = Done x -> nth (Z.to_nat i) l dflt = x.
Proof.
  unfold index. destruct ((0 <=? i) && (i <? Z.of_nat (length l)));
    [|discriminate].
  destruct (nth_error l (Z.to_nat i)) as [y|] eqn:E; [|discriminate].
  intros H. inversion H; subst y. now apply nth_error_nth.
Qed.

Lemma contents_deref (r : slice) (w : world) (g : grid) :
  deref r w = Done (g, w) -> contents r w = Some g.
Proof.
  destruct r as [|g0|k]; simpl.
  - discriminate.
  - intros H. now inversion H.
  - unfold lift. destruct (index (gridpool w) k) as [x| |] eqn:E;
      try discriminate.
    intros H. inversion H; subst x. f_equal. unfold slot.
    now apply index_nth.
Qed.

Lemma contents_holds (w : world) (h : slice) (level : Z) (g : grid) :
  holds w h level g -> contents h w = Some g.
Proof.
  destruct h as [|g0|k]; simpl; [contradiction | now intros -> |].
  now intros [_ ->].
Qed.

Lemma spec_try_step (explore : slice -> Z -> ST world slice) (d : Z)
  (cs : list Z) (g : grid) (s level : Z) (w w1 w2 : world) (filled : slice) :
  spec_copy level g w = Done (tt, w1) ->
  spec_fill level s d w1 = Done (filled, w2) ->
  spec_try_candidates explore (d :: cs) g s level w
  = match (match filled with
           | Nil => ret Nil
           | _ => explore filled (level + 1)
           end) w2 with
    | Done (res, w3) =>
        match res with
        | Nil => spec_try_candidates explore cs g s level
                   (World (gridpool w3) (wrap64 (backtracks w3 + 1)))
        | _ => Done (res, w3)
        end
    | Panic => Panic
    | OutOfFuel => OutOfFuel
    end.
Proof.
  intros H1 H2. cbn [spec_try_candidates]. unfold bind at 1. rewrite H1.
  unfold bind at 1. rewrite H2. unfold bind at 1.
  destruct (match filled with
            | Nil => ret Nil
            | _ => explore filled (level + 1)
            end w2) as [[[|g0|k] w3]| |]; reflexivity.
Qed.

Section SearchPlain.

Variable rec : slice -> Z -> ST world slice.
Variable explore : grid -> result (option grid).
Variable n : Z.
Hypothesis Hrec : search_ok n rec.
Hypothesis Has : search_as n rec explore.

Lemma try_as (cs : list Z) (g : grid) (s level : Z) :
(forall d, In d cs -> is_digit d) ->
wf g -> 0 <= level -> level + open_cells g <= 81 -> open_cells g <= n ->
in_square s -> 2 <= cands g s ->
forall w r w', pool_ok w ->
  spec_try_candidates rec cs g s level w = Done (r, w') ->
  plain_try explore cs g s = Done (contents r w').
Proof.
intros Hcs Hwf Hl0 Hl Hn Hs Hc.
assert (Hopen : 1 <= open_cells g) by (eapply open_cells_pos; eassumption).
assert (Hlv : 0 <= level < 81) by lia.
induction cs as [|d cs IH]; intros w r w' Hp E.
{ inversion E; subst. reflexivity. }
assert (Hd : is_digit d) by (apply Hcs; now left).
assert (Hcs' : forall d0, In d0 cs -> is_digit d0)
  by (intros d0 H0; apply Hcs; now right).
specialize (IH Hcs').
set (w1 := set_slot w level g).
assert (Hcopy : spec_copy level g w = Done (tt, w1)).
{ unfold spec_copy. rewrite store_Done by (destruct Hp as [L _]; lia).
  reflexivity. }
assert (Hp1 : pool_ok w1) by (apply pool_ok_set_slot; [exact Hp | apply Hwf]).
assert (Hs1 : slot w1 level = g) by (apply slot_set_slot_same; assumption).
destruct (fill_total Hwf Hs Hd) as (ok & g' & Ef & Hpost).
assert (Hle : le_grid g' g) by (apply (@fill_post_le _ _ _ _ _ Hwf Hs Hd Hpost)).
assert (Hwf' : wf g') by (eapply le_grid_wf; eassumption).
set (w2 := set_slot w1 level g').
assert (Hsfill : spec_fill level s d w1
                 = Done (if ok then Slot level else Nil, w2)).
{ unfold spec_fill. rewrite Hs1, Ef. reflexivity. }
assert (Hp2 : pool_ok w2) by (apply pool_ok_set_slot; [exact Hp1 | apply Hwf']).
assert (Hs2 : slot w2 level = g') by (apply slot_set_slot_same; assumption).
rewrite (@spec_try_step rec d cs g s level w w1 w2 _ Hcopy Hsfill) in E.
rewrite (@plain_try_step explore d cs g s ok g' Ef).
destruct ok.
- assert (Ho := @open_after_fill g g' s d Hwf Hs Hd Hc Hpost).
  assert (Hh2 : holds w2 (Slot level) (level + 1) g')
    by (simpl; split; [lia | exact Hs2]).
  destruct (proj2 Hrec (Slot level) (level + 1) w2 g' Hp2 Hh2 Hwf'
              ltac:(lia) ltac:(lia) ltac:(lia))
    as (r1 & w3 & E1 & Hp3 & _).
  rewrite (@Has (Slot level) (level + 1) w2 g' r1 w3 Hp2 Hh2 Hwf'
             ltac:(lia) ltac:(lia) ltac:(lia) E1).
  rewrite E1 in E. destruct r1 as [|g3|k3].
  + simpl.
    apply (IH (World (gridpool w3) (wrap64 (backtracks w3 + 1))) r w' Hp3 E).
  + inversion E; subst r w'. reflexivity.
  + inversion E; subst r w'. reflexivity.
- change (ret Nil w2) with (@Done (slice * world) (Nil, w2)) in E.
  cbv iota in E.
  apply (IH (World (gridpool w2) (wrap64 (backtracks w2 + 1))) r w' Hp2 E).
Qed.

Lemma search_body_as : search_as (n + 1) (search_body rec) (plain_body explore).
Proof.
intros h level w g r w' Hp Hh Hwf Hl0 Hl Hn E.
assert (Hl81 : level <= 81) by (assert (B := open_cells_bound Hwf); lia).
assert (Hderef := @deref_holds _ _ _ _ Hp Hl81 Hh).
assert (Hnn : h <> Nil) by (intros ->; exact Hh).
destruct (selectSquare_spec Hwf) as (s & Es & Hsel).
rewrite (search_body_eq rec level Hnn Hderef Es) in E.
rewrite (@plain_body_eq _ _ _ Es). revert E.
destruct (Z.eqb_spec s (-1)) as [Hs1|Hs1]; intros E.
- inversion E; subst. f_equal. symmetry. eapply contents_holds; eassumption.
- destruct Hsel as [[E1 _]|(Hsq & H2 & _)]; [contradiction|].
  destruct (@search_digits_total rec rec n Hrec
              (fun h0 l0 => @refines_refl _ _ (rec h0 l0))
              DIGITS h s level g w (fun d Hd => Hd) Hp Hh Hwf Hl0 Hl
              ltac:(lia) Hsq H2)
    as (r0 & w0 & E0 & _ & Espec).
  rewrite E in E0. inversion E0; subst r0 w0.
  refine (@try_as (spec_candidates g s) g s level _ Hwf Hl0 Hl ltac:(lia)
            Hsq H2 w r w' Hp Espec).
  intros d Hd. apply filter_In in Hd. apply Hd.
Qed.

End SearchPlain.

Lemma search_fuel_S (n : nat) (h : slice) (level : Z) (w : world) :
  search_fuel (S n) h level w = search_body (search_fuel n) h level w.
Proof. reflexivity. Qed.

Lemma search_fuel_as (n : nat) :
  search_as (Z.of_nat n) (search_fuel n) (plain_search n).
Proof.
  induction n as [|n IH]; intros h level w g r w' Hp Hh Hwf Hl0 Hl Hn E.
  - assert (B := open_cells_bound Hwf). simpl in Hn. lia.
  - rewrite search_fuel_S in E. rewrite plain_search_S.
    apply (@search_body_as (search_fuel n) (plain_search n) (Z.of_nat n)
             (search_fuel_ok n) IH h level w g r w'); try assumption. lia.
Qed.

(** [search] returns the grid that backtracking on private copies finds. *)
Lemma search_plain (g : grid) (h : slice) (level : Z) (w : world) (r : slice)
  (w' : world) :
  pool_ok w -> holds w h level g -> wf g -> 0 <= level ->
  level + open_cells g <= 81 ->
  search h level w = Done (r, w') ->
  plain_search 82 g = Done (contents r w').
Proof.
  intros Hp Hh Hwf Hl0 Hl E.
  assert (B := open_cells_bound Hwf).
  apply (@search_fuel_as 82 h level w g r w'); try assumption. simpl. lia.
Qed.

(** ** What [initialize] leaves *)

Lemma puzzle_wf (p : grid) : puzzle_ok p -> wf p.
Proof.
  intros [L H]. split; [exact L|]. intros i.
  destruct (Nat.lt_ge_cases i 81) as [Hi|Hi].
  - assert (Hs : in_square (Z.of_nat i)) by (unfold in_square; lia).
    specialize (H _ Hs). unfold cell in H. rewrite Nat2Z.id in H.
    destruct H as [H|H]; [apply (digit_facts H)|].
    rewrite H. unfold in_cell, ALL_DIGITS. lia.
  - rewrite nth_overflow by lia. apply in_cell_0.
Qed.

Lemma all_ok_app (l1 l2 : list (Z * Z * bool)) :
  all_ok (l1 ++ l2) <-> all_ok l1 /\ all_ok l2.
Proof. unfold all_ok. rewrite forallb_app. apply andb_true_iff. Qed.

(** A solution shows the digit of a given square. *)
Lemma solves_given (sol p : grid) (s : Z) :
  solved sol -> le_grid sol p -> in_square s -> is_digit (cell p s) ->
  cell sol s = cell p s.
Proof.
  intros (_ & Hdig & _) Hle Hs Hd.
  destruct (le_grid_cell s Hle) as (Hin & _ & E).
  destruct (below_digit Hin Hd E) as [E0|E1]; [|exact E1].
  exfalso. apply (digit_facts (Hdig s Hs)). exact E0.
Qed.

Lemma initialize_loop_facts (p : grid) (ss : list Z) :
  puzzle_ok p -> (forall s, In s ss -> in_square s) ->
  forall (log : list (Z * Z * bool)) (g : grid),
    wf g ->
    total (initialize_loop ss p log) g
      (fun log' g' =>
         le_grid g' g /\
         exists l2, log' = log ++ l2 /\
           (all_ok l2 ->
            keeps g g' /\ settles g g' /\
            forall s, In s ss -> given p s = true -> cell g' s = cell p s) /\
           (forall sol, solved sol -> le_grid sol g -> le_grid sol p ->
                        all_ok l2 /\ le_grid sol g')).
Proof.
  intros [Lp Hp]. induction ss as [|s ss IH]; intros Hss log g Hwf; simpl.
  - apply total_ret. split; [now apply le_grid_refl|].
    exists []. split; [now rewrite app_nil_r|]. split.
    + intros _. split; [apply keeps_refl|].
      split; [apply settles_refl | intros s []].
    + intros sol _ Hle _. split; [reflexivity | exact Hle].
  - assert (Hs : in_square s) by (apply Hss; now left).
    assert (Hss' : forall t, In t ss -> in_square t)
      by (intros t Ht; apply Hss; now right).
    assert (Eidx : index p s = Done (cell p s)).
    { apply index_Done. unfold in_square in Hs. lia. }
    apply total_bind. eapply total_lift; [exact Eidx|].
    destruct (Z.eqb_spec (cell p s) ALL_DIGITS) as [E|E]; simpl negb; cbv iota.
    + eapply total_weaken; [apply (IH Hss' log g Hwf)|].
      intros log' g' (Hle & l2 & El & Hok & Hsol). split; [exact Hle|].
      exists l2. split; [exact El|]. split; [|exact Hsol].
      intros Hall. destruct (Hok Hall) as (Hk & Hset & Hgiv).
      split; [exact Hk|]. split; [exact Hset|].
      intros t [<-|Ht] Hg; [|now apply Hgiv].
      unfold given in Hg. rewrite E, Z.eqb_refl in Hg. discriminate Hg.
    + apply total_bind. eapply total_lift; [exact Eidx|].
      assert (Hd : is_digit (cell p s))
        by (destruct (Hp s Hs); [assumption | contradiction]).
      apply total_bind.
      eapply total_weaken; [apply (fill_knows_all Hwf Hs Hd)|].
      intros ok g1 (Hpost & Hset1 & Hsound1). cbv beta.
      destruct (@fill_post_le _ _ _ _ _ Hwf Hs Hd Hpost) as [Hle1 Hk1].
      assert (Hwf1 : wf g1) by (eapply le_grid_wf; eassumption).
      eapply total_weaken; [apply (IH Hss' _ g1 Hwf1)|].
      intros log' g' (Hle' & l2 & El & Hok & Hsol).
      split; [eapply le_grid_trans; eassumption|].
      exists ((s, cell p s, ok) :: l2).
      split; [rewrite El, <- app_assoc; reflexivity|]. split.
      * intros Hall. unfold all_ok in Hall. simpl in Hall.
        apply andb_true_iff in Hall. destruct Hall as [Hok1 Hall]. subst ok.
        destruct (Hok Hall) as (Hk & Hset & Hgiv).
        specialize (Hk1 eq_refl). specialize (Hset1 eq_refl).
        split; [eapply keeps_trans; eassumption|]. split.
        -- apply (@settles_trans g g1 g' Hwf1 Hle' Hk); [|exact Hset].
           now apply fill_settles_settles with s.
        -- intros t [<-|Ht] Hg; [|now apply Hgiv].
           assert (Hc1 : cell g1 s = cell p s).
           { unfold fill_post in Hpost.
             destruct (Z.eqb_spec (Z.land (cell g s) (cell p s)) 0) as [E0|_];
               [destruct Hpost as [Hf _]; discriminate Hf|].
             destruct Hpost as [Hleu Hk']. destruct (Hk' eq_refl) as [Hku _].
             now apply (fill_sets_cell Hwf Hs Hd). }
           rewrite <- Hc1. apply single_kept; try assumption.
           unfold cands. rewrite Hc1. apply (digit_facts Hd).
      * intros sol Hsolved Hle Hlep.
        destruct (Hsound1 sol Hsolved Hle) as [-> Hle1s].
        { now apply solves_given. }
        destruct (Hsol sol Hsolved Hle1s Hlep) as [Hall Hle2].
        split; [|exact Hle2]. unfold all_ok. simpl. exact Hall.
Qed.

Lemma blank_consistent :
  wf (repeat ALL_DIGITS 81) /\ consistent (repeat ALL_DIGITS 81) /\
  nonempty (repeat ALL_DIGITS 81).
Proof.
  assert (Hcell : forall t, in_square t -> cell (repeat ALL_DIGITS 81) t = ALL_DIGITS).
  { intros t Ht. unfold cell. apply nth_repeat_lt. unfold in_square in Ht. lia. }
  split; [apply wf_repeat; unfold in_cell, ALL_DIGITS; lia|]. split.
  - intros t Ht H1. unfold cands in H1. rewrite (Hcell t Ht) in H1.
    discriminate H1.
  - intros t Ht. rewrite (Hcell t Ht). discriminate.
Qed.

(** What [initialize] returns: when every [fill] succeeded the grid is inside
    the puzzle, consistent and without empty cell; and every [fill] succeeds
    when the puzzle has a solution, which stays inside the grid. *)
Lemma initialize_facts (p : grid) :
  puzzle_ok p ->
  exists log g,
    initialize_run p = Done (log, g) /\
    initialize p = Done (Fresh g) /\ initialize_calls p = Done log /\
    wf g /\
    (all_ok log -> consistent g /\ nonempty g /\ le_grid g p) /\
    (forall sol, solves sol p -> all_ok log /\ le_grid sol g).
Proof.
  intros Hp. destruct blank_consistent as (Hw0 & Hc0 & Hn0).
  assert (Hsq : forall s, In s (upto 81) -> in_square s).
  { intros s Hs. apply In_upto in Hs. unfold in_square. lia. }
  destruct (@initialize_loop_facts p (upto 81) Hp Hsq [] _ Hw0)
    as (log & g & E & Hle & l2 & El & Hok & Hsol).
  rewrite <- initialize_run_unfold in E.
  assert (Hwf : wf g) by (eapply le_grid_wf; eassumption).
  assert (Hwp := puzzle_wf Hp).
  change ([] ++ l2) with l2 in El. subst l2.
  exists log, g. split; [exact E|].
  unfold initialize, initialize_calls. rewrite E.
  split; [reflexivity|]. split; [reflexivity|]. split; [exact Hwf|]. split.
  - intros Hall. destruct (Hok Hall) as (Hk & Hset & Hgiv).
    split; [now apply (@consistent_step _ g Hw0 Hle Hk Hset)|].
    split; [now apply (nonempty_keeps Hk)|].
    split; [destruct Hwf as [L _], Hp as [Lp _]; congruence|].
    intros i. destruct (Nat.lt_ge_cases i 81) as [Hi|Hi].
    + assert (Hs : in_square (Z.of_nat i)) by (unfold in_square; lia).
      assert (Hin : In (Z.of_nat i) (upto 81)) by (apply In_upto; lia).
      specialize (Hgiv _ Hin). unfold given, cell in Hgiv.
      rewrite Nat2Z.id in Hgiv.
      destruct (Z.eqb_spec (nth i p 0) ALL_DIGITS) as [E5|E5].
      * rewrite E5. split; [apply Hwf|].
        split; [unfold in_cell, ALL_DIGITS; lia|].
        apply in_cell_land, Hwf.
      * rewrite (Hgiv eq_refl). apply cell_le_refl, Hwp.
    + rewrite !nth_overflow; [apply cell_le_refl, in_cell_0 | |].
      * destruct Hp as [Lp _]. lia.
      * destruct Hwf as [L _]. lia.
  - intros sol [Hsolved Hlep]. apply (Hsol sol Hsolved); [|exact Hlep].
    split; [destruct Hsolved as [[L _] _]; rewrite L; reflexivity|].
    intros i. destruct (Nat.lt_ge_cases i 81) as [Hi|Hi].
    + rewrite nth_repeat_lt by exact Hi. destruct Hsolved as [Hws _].
      split; [apply Hws|]. split; [unfold in_cell, ALL_DIGITS; lia|].
      apply in_cell_land, Hws.
    + rewrite !nth_overflow; [apply cell_le_refl, in_cell_0 | |].
      * rewrite repeat_length. lia.
      * destruct Hsolved as [[L _] _]. lia.
Qed.

(** ** [verify] on solved grids *)

Lemma first_row_unit : In (upto 9) ALL_UNITS.
Proof. left. reflexivity. Qed.

(** [verify] accepts every solved grid that shows the givens. *)
Lemma verify_solved (g p : grid) :
  solved g -> wf p ->
  (forall s, in_square s -> cands p s = 1 -> cell g s = cell p s) ->
  verify (Some g) p = Done true.
Proof.
  intros (Hwf & Hdig & Hun) Hwp Hgiv.
  rewrite (verify_spec Hwf Hwp). f_equal. apply andb_true_iff. split.
  - apply forallb_forall. intros s Hs.
    assert (Hsq : in_square s).
    { change SQUARES with (upto 81) in Hs. apply In_upto in Hs.
      unfold in_square. lia. }
    unfold square_ok. apply andb_true_iff. split.
    + apply Z.eqb_eq. unfold cands. apply (digit_facts (Hdig s Hsq)).
    + destruct (Z.eqb_spec (cands p s) 1) as [E|E]; [|reflexivity].
      simpl. apply Z.eqb_eq. now apply Hgiv.
  - apply Z.eqb_eq. apply (Hun _ first_row_unit).
Qed.

Lemma verify_solves (g p : grid) :
  puzzle_ok p -> solves g p -> verify (Some g) p = Done true.
Proof.
  intros Hp [Hsol Hle]. apply verify_solved; [exact Hsol | now apply puzzle_wf|].
  intros s Hs H1. apply solves_given; try assumption.
  apply ones_one; [apply wf_cell; now apply puzzle_wf | exact H1].
Qed.

(** ** [fill] and its loop *)

Lemma le_blank (g : grid) : wf g -> le_grid g (repeat ALL_DIGITS 81).
Proof.
  intros Hwf. split; [rewrite repeat_length; apply Hwf|].
  intros i. destruct (Nat.lt_ge_cases i 81) as [Hi|Hi].
  - rewrite nth_repeat_lt by exact Hi.
    split; [apply Hwf|]. split; [unfold in_cell, ALL_DIGITS; lia|].
    apply in_cell_land, Hwf.
  - rewrite !nth_overflow; [apply cell_le_refl, in_cell_0 | |].
    + rewrite repeat_length. lia.
    + destruct Hwf as [L _]. lia.
Qed.

Lemma fill_peers_each (ps : list Z) (d : Z) (g : grid) :
  fill_peers fill ps d g = spec_eliminate_each ps d g.
Proof.
  revert g. induction ps as [|p ps IH]; intros g; [reflexivity|].
  cbn [fill_peers spec_eliminate_each]. unfold bind.
  destruct (eliminate fill p d g) as [[[|] g2]| |]; cbn [rbind fst snd];
    [apply IH | reflexivity..].
Qed.

(** [fill], past its test, is its loop over the peers. *)
Lemma fill_runs_peers (g : grid) (s d : Z) (ps : list Z) :
  wf g -> in_square s -> is_digit d -> Z.land (cell g s) d <> 0 ->
  index PEERS s = Done ps ->
  fill s d g = fill_peers fill ps d (upd g (Z.to_nat s) d).
Proof.
  intros Hwf Hs Hd Hne Eps.
  destruct (peers_at Hs) as (ps' & Eps' & _ & _ & _ & Hps & _).
  rewrite Eps in Eps'. inversion Eps'; subst ps'. clear Eps'.
  change (fill s d g) with (fill_body (fill_fuel 729) s d g).
  unfold fill_body, bind at 1.
  rewrite (read_spec Hwf Hs). cbv beta iota.
  destruct (Z.eqb_spec (Z.land (cell g s) d) 0) as [E0|_]; [contradiction|].
  unfold bind at 1. rewrite (write_spec d Hwf Hs). cbv beta iota.
  unfold bind at 1, lift. rewrite Eps.
  set (g1 := upd g (Z.to_nat s) d).
  assert (Hle1 : le_grid g1 g) by now apply set_digit_le.
  assert (Hwf1 : wf g1) by (eapply le_grid_wf; eassumption).
  destruct (@fill_peers_total (fill_fuel 729) 729 (fill_fuel_ok 729)
              ps d g1 Hwf1 Hd) as (ok1 & g2 & E1 & _).
  { assert (B := bits_bound Hwf1). lia. }
  { exact Hps. }
  rewrite E1. symmetry.
  apply (@fill_peers_mono (fill_fuel 729) fill); [|exact E1].
  intros s' d'. apply fill_fuel_mono. unfold FUEL. lia.
Qed.

(** ** What [search] finds *)

(** [search] ends at every level the program reaches. *)
Lemma search_ends (g : grid) (h : slice) (level : Z) (w : world) :
  pool_ok w -> holds w h level g -> wf g -> 0 <= level ->
  level + open_cells g <= 81 ->
  total (search h level) w (search_post g level w).
Proof.
  intros Hp Hh Hwf Hl0 Hl. assert (B := open_cells_bound Hwf).
  apply (proj2 (search_fuel_ok 82) h level w g); try assumption.
  simpl. lia.
Qed.

(** [search] finds a grid whenever the grid it is given has a solved grid
    inside. *)
Lemma search_complete (g : grid) (h : slice) (level : Z) (w : world)
  (sol : grid) :
  pool_ok w -> holds w h level g -> wf g -> 0 <= level ->
  level + open_cells g <= 81 ->
  solved sol -> le_grid sol g ->
  exists r w' g',
    search h level w = Done (r, w') /\ deref r w' = Done (g', w') /\
    le_grid g' g /\ open_cells g' = 0.
Proof.
  intros Hp Hh Hwf Hl0 Hl Hsol Hle.
  destruct (@search_ends g h level w Hp Hh Hwf Hl0 Hl) as (r & w' & E & _ & _ & Hr).
  assert (Epl := @search_plain g h level w r w' Hp Hh Hwf Hl0 Hl E).
  assert (B := open_cells_bound Hwf).
  destruct (@plain_complete 82 g Hwf ltac:(simpl; lia)) as (r0 & E0 & Hr0).
  rewrite E0 in Epl. inversion Epl as [Ec].
  specialize (Hr0 sol Hsol Hle).
  destruct Hr as [->|(g' & Eg & Hle' & Ho)].
  - simpl in Ec. contradiction.
  - exists r, w', g'. auto.
Qed.

(** A grid [search] returns from a consistent grid without empty cell is
    solved. *)
Lemma search_sound (g : grid) (h : slice) (level : Z) (w : world)
  (r : slice) (w' : world) (g' : grid) :
  pool_ok w -> holds w h level g -> wf g -> 0 <= level ->
  level + open_cells g <= 81 ->
  consistent g -> nonempty g ->
  search h level w = Done (r, w') -> deref r w' = Done (g', w') ->
  solved g' /\ le_grid g' g.
Proof.
  intros Hp Hh Hwf Hl0 Hl Hc Hne E Eg.
  assert (Epl := @search_plain g h level w r w' Hp Hh Hwf Hl0 Hl E).
  rewrite (@contents_deref r w' g' Eg) in Epl.
  apply (@plain_sound 82 g g' Hwf Hc Hne Epl).
Qed.

(** ** [eliminate] on an absent digit *)

Lemma eliminate_absent (g : grid) (s d : Z) :
  wf g -> in_square s -> Z.land (cell g s) d = 0 ->
  eliminate fill s d g = Done (true, g).
Proof.
  intros Hwf Hs E. unfold eliminate, bind at 1.
  rewrite (read_spec Hwf Hs). cbv beta iota. rewrite E. reflexivity.
Qed.

(** ** The example puzzle *)

Lemma insideb_sound (g' g : grid) : insideb g' g = true -> le_grid g' g.
Proof.
  unfold insideb. intros H.
  apply andb_true_iff in H. destruct H as [H H3].
  apply andb_true_iff in H. destruct H as [H1 H2].
  apply wfb_sound in H1, H2. rewrite forallb_forall in H3.
  split; [destruct H1 as [L1 _], H2 as [L2 _]; congruence|].
  intros i. split; [apply H1|]. split; [apply H2|].
  destruct (Nat.lt_ge_cases i 81) as [Hi|Hi].
  - assert (Hin : In (Z.of_nat i) SQUARES).
    { change SQUARES with (upto 81). apply In_upto. lia. }
    specialize (H3 _ Hin). apply Z.eqb_eq in H3. unfold cell in H3.
    now rewrite Nat2Z.id in H3.
  - rewrite (nth_overflow g') by (destruct H1 as [L1 _]; lia).
    apply Z.land_0_l.
Qed.

Lemma example_solves : solves (parsed solution1) (parsed puzzle1).
Proof.
  split; [apply solvedb_sound | apply insideb_sound]; vm_compute; reflexivity.
Qed.

Lemma example_puzzle_ok : puzzle_ok (parsed puzzle1).
Proof. apply puzzleb_sound. vm_compute. reflexivity. Qed.

Lemma blank_wf : wf blank_puzzle.
Proof. apply wfb_sound. vm_compute. reflexivity. Qed.

(** ** Squares by row, column and block *)

Lemma squares_where_spec (P : Z -> bool) (l : list Z) (t : Z) :
  squares_where P l = true -> (In t l <-> in_square t /\ P t = true).
Proof.
  unfold squares_where. intros H.
  apply andb_true_iff in H. destruct H as [H1 H2].
  rewrite forallb_forall in H2.
  assert (Hin : in_square t -> In t SQUARES).
  { intros Ht. change SQUARES with (upto 81). apply In_upto.
    unfold in_square in Ht. lia. }
  split.
  - intros Ht. assert (Hsq := squares_ok_spec _ _ H1 Ht). split; [exact Hsq|].
    specialize (H2 t (Hin Hsq)). apply eqb_prop in H2. rewrite <- H2.
    now apply member_spec.
  - intros [Hsq HP]. specialize (H2 t (Hin Hsq)). apply eqb_prop in H2.
    apply member_spec. now rewrite H2.
Qed.

(** ** [reverse] *)

Lemma reverse_loop_spec (s : list rune) (fuel : nat) :
  forall (i : Z) (r : list rune),
    0 <= i <= Z.quot (Z.of_nat (length s)) 2 ->
    Z.quot (Z.of_nat (length s)) 2 - i < Z.of_nat fuel ->
    reversed_to s r i ->
    reverse_loop fuel i (Z.of_nat (length s) - 1 - i) r = Done (rev s).
Proof.
  assert (Hq : 0 <= Z.quot (Z.of_nat (length s)) 2 /\
               2 * Z.quot (Z.of_nat (length s)) 2 <= Z.of_nat (length s)
               /\ Z.of_nat (length s) < 2 * Z.quot (Z.of_nat (length s)) 2 + 2).
  { rewrite Z.quot_div_nonneg by lia.
    assert (H := Z.div_mod (Z.of_nat (length s)) 2 ltac:(lia)).
    assert (H' := Z.mod_pos_bound (Z.of_nat (length s)) 2 ltac:(lia)). lia. }
  induction fuel as [|fuel IH]; intros i r Hi Hf [Hlen Hinv]; [lia|].
  cbn [reverse_loop]. rewrite Hlen.
  destruct (Z.ltb_spec i (Z.quot (Z.of_nat (length s)) 2)) as [Hlt|Hge].
  - set (j := Z.of_nat (length s) - 1 - i).
    assert (Hj : i < j < Z.of_nat (length s)) by (unfold j; lia).
    rewrite (@index_Done _ r j 0) by lia. cbn [rbind].
    rewrite (@index_Done _ r i 0) by lia. cbn [rbind].
    rewrite store_Done by lia. cbn [rbind].
    rewrite store_Done by (rewrite length_upd; lia). cbn [rbind].
    replace (j - 1) with (Z.of_nat (length s) - 1 - (i + 1)) by (unfold j; lia).
    apply IH; [lia | lia|]. split.
    + now rewrite !length_upd.
    + intros t Ht. 
      assert (Hri := Hinv (Z.to_nat i) ltac:(lia)).
      assert (Hrj := Hinv (Z.to_nat j) ltac:(lia)).
       rewrite !Z2Nat.id in Hri, Hrj by lia.
      replace ((i <? i) || (Z.of_nat (length s) - i <=? i)) with false in Hri
        by (symmetry; apply orb_false_iff; split;
            [apply Z.ltb_ge | apply Z.leb_gt]; lia).
      replace ((j <? i) || (Z.of_nat (length s) - i <=? j)) with false in Hrj
        by (symmetry; apply orb_false_iff; split;
            [apply Z.ltb_ge | apply Z.leb_gt]; lia).
      destruct (Nat.eq_dec t (Z.to_nat j)) as [->|Htj].
      * rewrite nth_upd_same by (rewrite length_upd; lia).
        rewrite Hri. rewrite Z2Nat.id by lia.
        replace ((j <? i + 1) || (Z.of_nat (length s) - (i + 1) <=? j)) with true
          by (symmetry; apply orb_true_iff; right; apply Z.leb_le;
              unfold j; lia).
        f_equal. unfold j. lia.
      * rewrite nth_upd_other by lia.
        destruct (Nat.eq_dec t (Z.to_nat i)) as [->|Hti].
        -- rewrite nth_upd_same by lia. rewrite Hrj. rewrite Z2Nat.id by lia.
           replace ((i <? i + 1) || (Z.of_nat (length s) - (i + 1) <=? i)) with true
             by (symmetry; apply orb_true_iff; left; apply Z.ltb_lt; lia).
           f_equal. unfold j. lia.
        -- rewrite nth_upd_other by lia. rewrite (Hinv t Ht).
           assert (Hti' : Z.of_nat t <> i) by lia.
           assert (Htj' : Z.of_nat t <> j) by lia.
           replace (Z.of_nat t <? i + 1) with (Z.of_nat t <? i)
             by (destruct (Z.ltb_spec (Z.of_nat t) i),
                   (Z.ltb_spec (Z.of_nat t) (i + 1)); lia).
           replace (Z.of_nat (length s) - (i + 1) <=? Z.of_nat t)
             with (Z.of_nat (length s) - i <=? Z.of_nat t)
             by (unfold j in Htj';
                 destruct (Z.leb_spec (Z.of_nat (length s) - i) (Z.of_nat t)),
                   (Z.leb_spec (Z.of_nat (length s) - (i + 1)) (Z.of_nat t)); lia).
           reflexivity.
  - f_equal. apply (@nth_ext _ r (rev s) 0 0).
    + now rewrite length_rev.
    + intros t Ht. rewrite Hlen in Ht. rewrite (Hinv t Ht).
      rewrite rev_nth by exact Ht.
      destruct ((Z.of_nat t <? i) || (Z.of_nat (length s) - i <=? Z.of_nat t)) eqn:Eb;
        [reflexivity|].
      apply orb_false_iff in Eb. destruct Eb as [E1 E2].
      apply Z.ltb_ge in E1. apply Z.leb_gt in E2.
      f_equal.  lia.
Qed.

(** [reverse] returns the runes of its argument in reverse order. *)
Lemma reverse_is_rev (s : list rune) : reverse s = Done (rev s).
Proof.
  unfold reverse.
  assert (Hq : 0 <= Z.quot (Z.of_nat (length s)) 2 <= Z.of_nat (length s)).
  { rewrite Z.quot_div_nonneg by lia.
    assert (H := Z.div_mod (Z.of_nat (length s)) 2 ltac:(lia)).
    assert (H' := Z.mod_pos_bound (Z.of_nat (length s)) 2 ltac:(lia)). lia. }
  replace (Z.of_nat (length s) - 1) with (Z.of_nat (length s) - 1 - 0) by lia.
  apply reverse_loop_spec; [lia | lia|].
  split; [reflexivity|]. intros t Ht.
  replace ((Z.of_nat t <? 0) || (Z.of_nat (length s) - 0 <=? Z.of_nat t))
    with false; [reflexivity|].
  symmetry. apply orb_false_iff. split; [apply Z.ltb_ge | apply Z.leb_gt]; lia.
Qed.

(** ** Lines read by [parseGrid] and [readFile] *)

Lemma parseGrid_answer (l : list rune) : parseGrid l = Done (parse_answer l).
Proof.
  rewrite parseGrid_spec. unfold parse_answer.
  destruct (meaningful_count l <? 81)%nat; [reflexivity|].
  destruct (81 <? meaningful_count l)%nat; reflexivity.
Qed.

Lemma meaningful_count_rev (l : list rune) :
  meaningful_count (rev l) = meaningful_count l.
Proof. unfold meaningful_count. now rewrite filter_rev, length_rev. Qed.




(** ** [rowString] *)

Lemma digit_text (d : Z) :
  is_digit d ->
  Itoa (wrap64 (TrailingZeros d + 1)) = [rune_of_cell d] /\
  meaningful (rune_of_cell d) = true /\
  cell_of_rune (rune_of_cell d) = d /\ (OnesCount d =? 9) = false.
Proof.
  intros Hd.
  assert (H : forallb (fun d =>
      match Itoa (wrap64 (TrailingZeros d + 1)) with
      | [c] => (c =? rune_of_cell d) && meaningful (rune_of_cell d)
               && (cell_of_rune (rune_of_cell d) =? d)
               && negb (OnesCount d =? 9)
      | _ => false
      end) DIGITS = true) by (vm_compute; reflexivity).
  rewrite forallb_forall in H. specialize (H d Hd).
  destruct (Itoa (wrap64 (TrailingZeros d + 1))) as [|c [|? ?]];
    try discriminate.
  apply andb_true_iff in H. destruct H as [H H4].
  apply andb_true_iff in H. destruct H as [H H3].
  apply andb_true_iff in H. destruct H as [H1 H2].
  apply Z.eqb_eq in H1, H3. apply negb_true_iff in H4. subst c. auto.
Qed.

(** On a puzzle, the row written from [s] on holds, beside spaces and
    bars, the characters of the cells [s .. hi-1]. *)
Lemma rowString_loop_puzzle (p : grid) (k : nat) :
  puzzle_ok p ->
  forall (fuel : nat) (s : Z) (row : list rune),
    0 <= s -> s + Z.of_nat k <= 81 -> (k < fuel)%nat ->
    exists row',
      rowString_loop fuel s (s + Z.of_nat k) p row = Done row' /\
      filter meaningful row'
      = filter meaningful row
        ++ map (fun t => rune_of_cell (cell p t))
             (map (fun i => s + Z.of_nat i) (seq 0 k)).
Proof.
  intros Hp. assert (Hwf := puzzle_wf Hp).
  induction k as [|k IH]; intros fuel s row Hs Hhi Hf;
    (destruct fuel as [|fuel]; [lia|]); cbn [rowString_loop].
  - rewrite Z.add_0_r, Z.ltb_irrefl. exists row. split; [reflexivity|].
    simpl. now rewrite app_nil_r.
  - replace (s <? s + Z.of_nat (S k)) with true
      by (symmetry; apply Z.ltb_lt; lia).
    assert (Hsq : in_square s) by (unfold in_square; lia).
    assert (Ei : index p s = Done (cell p s)).
    { apply index_Done. destruct Hp as [L _]. lia. }
    rewrite Ei. cbn [rbind].
    rewrite (num_digits_at (wf_cell s Hwf)). cbn [rbind].
    assert (Hrow1 : exists row1,
      (if OnesCount (cell p s) =? 9 then Done (row ++ [r_dot])
       else
         if negb (OnesCount (cell p s) =? 1)
         then Done (row ++ [r_question])
         else Done (row ++ Itoa (wrap64 (TrailingZeros (cell p s) + 1))))
      = Done row1 /\
      filter meaningful row1
      = filter meaningful row ++ [rune_of_cell (cell p s)]).
    { destruct (proj2 Hp s Hsq) as [Hd|Hb].
      - destruct (digit_text Hd) as (Etxt & Hm & _ & E9). rewrite E9.
        rewrite (proj1 (proj2 (digit_facts Hd))). cbn [negb Z.eqb Pos.eqb].
        rewrite Etxt. eexists. split; [reflexivity|].
        rewrite filter_app. cbn [filter]. now rewrite Hm.
      - rewrite Hb. eexists. split; [reflexivity|].
        rewrite filter_app. reflexivity. }
    destruct Hrow1 as (row1 & E1 & Hf1). rewrite E1. cbn [rbind].
    replace (wrap64 (s + 1)) with (s + 1)
      by (unfold wrap64; rewrite Z.mod_small; lia).
    replace (s + Z.of_nat (S k)) with (s + 1 + Z.of_nat k) by lia.
    destruct (IH fuel (s + 1)
                (if (Z.rem s 9 =? 2) || (Z.rem s 9 =? 5)
                 then row1 ++ [r_space; r_bar; r_space]
                 else row1 ++ [r_space]) ltac:(lia) ltac:(lia) ltac:(lia))
      as (row' & E' & Hf').
    exists row'. split; [exact E'|]. rewrite Hf'.
    assert (Hsep : filter meaningful
                     (if (Z.rem s 9 =? 2) || (Z.rem s 9 =? 5)
                      then row1 ++ [r_space; r_bar; r_space]
                      else row1 ++ [r_space])
                   = filter meaningful row1).
    { destruct ((Z.rem s 9 =? 2) || (Z.rem s 9 =? 5));
        rewrite filter_app; cbn; apply app_nil_r. }
    rewrite Hsep, Hf1, <- app_assoc. f_equal.
    cbn [seq map app]. rewrite Z.add_0_r. f_equal.
    rewrite <- seq_shift, !map_map. apply map_ext. intros i.
    do 2 f_equal. lia.
Qed.

Lemma rowString_puzzle (p : grid) (r : Z) :
  puzzle_ok p -> In r ROWS ->
  exists row,
    rowString p r = Done row /\
    filter meaningful row
    = map (fun t => rune_of_cell (cell p t))
        (map (fun i => r * 9 + Z.of_nat i) (seq 0 9)).
Proof.
  intros Hp Hr.
  assert (Hr9 : 0 <= r < 9) by (simpl in Hr; lia).
  unfold rowString.
  replace (wrap64 (r + 1)) with (r + 1)
    by (unfold wrap64; rewrite Z.mod_small; lia).
  replace (wrap64 ((r + 1) * 9)) with (r * 9 + Z.of_nat 9)
    by (unfold wrap64; rewrite Z.mod_small; lia).
  replace (wrap64 (r * 9)) with (r * 9)
    by (unfold wrap64; rewrite Z.mod_small; lia).
  destruct (@rowString_loop_puzzle p 9 Hp 10 (r * 9) [])
    as (row & E & Hf); [lia | lia | lia|].
  exists row. split; [exact E | exact Hf].
Qed.

Lemma map_seq_nth (A : Type) (f : nat -> A) (n i : nat) (d : A) :
  (i < n)%nat -> nth i (map f (seq 0 n)) d = f i.
Proof.
  intros Hi.
  rewrite (@nth_indep _ _ i d (f 0%nat)) by (rewrite length_map, length_seq; lia).
  rewrite (map_nth f (seq 0 n) 0%nat i). now rewrite seq_nth.
Qed.

Lemma grid_cells (g : grid) :
  length g = 81%nat -> map (cell g) (upto 81) = g.
Proof.
  intros L. unfold upto. rewrite map_map. apply (@nth_ext _ _ _ 0 0).
  - rewrite length_map, length_seq. now symmetry.
  - intros i Hi. rewrite length_map, length_seq in Hi.
    rewrite map_seq_nth by exact Hi. unfold cell. now rewrite Nat2Z.id.
Qed.

(** * The claims *)

(** ** C1 *)

(** C1 (the code departs from the claim): [verify] accepts the grid whose nine
    rows all read 1..9 against the blank puzzle, although every column of
    that grid repeats a digit and the check of the 27 units, as the claim
    states it, rejects the grid.  The inner loop of [verify] ranges over the
    positions [0..8] of a unit where it should range over its squares, so
    only the first row is ever tested. *)
Theorem verify_accepts_repeated_columns :
  verify (Some rows_1_to_9) blank_puzzle = Done true /\
  spec_verify rows_1_to_9 blank_puzzle = false /\
  wf rows_1_to_9 /\ puzzle_ok blank_puzzle /\
  (forall s, in_square s -> cands rows_1_to_9 s = 1) /\
  cell rows_1_to_9 0 = cell rows_1_to_9 9.
Proof.
  split; [vm_compute; reflexivity|].
  split; [vm_compute; reflexivity|].
  split; [apply wfb_sound; vm_compute; reflexivity|].
  split; [apply puzzleb_sound; vm_compute; reflexivity|].
  split; [|reflexivity].
  intros s Hs. apply Z.eqb_eq.
  apply (@upto_all 81 (fun s => cands rows_1_to_9 s =? 1)); [|exact Hs].
  vm_compute. reflexivity.
Qed.

(** ** C2 *)

(** C2 (the code departs from the claim): on the puzzle [1 1 2 ...] the
    [fill] of the second cell fails, the digit 1 having been eliminated
    there by the [fill] of the first cell.  [initialize] neither stops nor
    returns nil: it goes on to fill the third cell, as the grid it returns
    shows. *)
Theorem initialize_goes_on_after_failed_fill :
  puzzle_ok puzzle_112 /\
  initialize_calls puzzle_112
  = Done [(0, 1, true); (1, 1, false); (2, 2, true)] /\
  (exists g, initialize puzzle_112 = Done (Fresh g) /\
             cell g 0 = 1 /\ Z.land (cell g 1) 1 = 0 /\ cell g 2 = 2) /\
  ~ halts_when_fill_fails puzzle_112.
Proof.
  assert (E : initialize_calls puzzle_112
              = Done [(0, 1, true); (1, 1, false); (2, 2, true)])
    by (vm_compute; reflexivity).
  split; [apply puzzleb_sound; vm_compute; reflexivity|].
  split; [exact E|]. split.
  - destruct (initialize puzzle_112) as [[|g|k]| |] eqn:Ei;
      try (vm_compute in Ei; discriminate Ei).
    exists g. split; [reflexivity|].
    vm_compute in Ei. inversion Ei; subst g.
    split; [reflexivity|]. split; reflexivity.
  - intros H.
    destruct (H _ [(0, 1, true)] 1 1 [(2, 2, true)] E eq_refl) as [Hafter _].
    discriminate Hafter.
Qed.

(** ** C3 *)

(** C3 (the code departs from the claim): for the puzzle with two 4s in its
    first row, [initialize] followed by [search] at depth 0 returns a grid,
    not nil.  [initialize] drops the nil that [fill] returns for the second
    4, the other givens determine the grid, and [search] returns it as it
    is; [verify] then rejects it, the second cell holding an 8. *)
Theorem contradictory_puzzle_yields_grid :
  exists p sol,
    parseGrid (runes puzzle_two_fours) = Done (inl p) /\
    cell p 0 = 8 /\ cell p 1 = 8 /\
    solve p (World new_gridpool 0) = Done (Fresh sol, World new_gridpool 0) /\
    cell sol 1 = 128 /\
    verify (Some sol) p = Done false.
Proof.
  exists (parsed puzzle_two_fours), (parsed solution1).
  split; [vm_compute; reflexivity|].
  split; [vm_compute; reflexivity|].
  split; [vm_compute; reflexivity|].
  split; [vm_compute; reflexivity|].
  split; vm_compute; reflexivity.
Qed.

(** ** C4 *)

(** C4: [parseGrid] returns a format error exactly when the line has fewer
    than 81 meaningful characters, or has a digit or blank character after
    its 81st meaningful character; otherwise it succeeds, and the grid is
    made from the meaningful characters alone. *)
Theorem parseGrid_format_error (l : list rune) :
  ((exists e, parseGrid l = Done (inr e)) <->
   ((meaningful_count l < 81)%nat \/
    exists pre post r,
      l = pre ++ post /\ meaningful_count pre = 81%nat /\
      In r post /\ digit_or_blank r)) /\
  (~ ((meaningful_count l < 81)%nat \/
      exists pre post r,
        l = pre ++ post /\ meaningful_count pre = 81%nat /\
        In r post /\ digit_or_blank r) ->
   parseGrid l = Done (inl (map cell_of_rune (filter meaningful l)))).
Proof.
  assert (Hmany :
    (exists pre post r, l = pre ++ post /\ meaningful_count pre = 81%nat /\
                        In r post /\ digit_or_blank r)
    <-> (81 < meaningful_count l)%nat).
  { split.
    - intros (pre & post & r & -> & Hpre & Hin & Hr).
      rewrite meaningful_count_app.
      apply meaningful_iff in Hr.
      assert (H := @meaningful_count_pos post r Hin Hr). lia.
    - intros Hgt. destruct (rest_after_split l 81) as (pre & E & Hpre).
      rewrite Nat.min_l in Hpre by lia.
      assert (Hc : (1 <= meaningful_count (rest_after l 81))%nat).
      { assert (H := meaningful_count_app pre (rest_after l 81)).
        rewrite <- E in H. lia. }
      destruct (@meaningful_count_ex _ Hc) as (r & Hin & Hr).
      exists pre, (rest_after l 81), r.
      split; [exact E|]. split; [exact Hpre|]. split; [exact Hin|].
      now apply meaningful_iff. }
  rewrite Hmany. rewrite parseGrid_spec.
  destruct (Nat.ltb_spec (meaningful_count l) 81) as [Hlt|Hge].
  - split; [|intros H; exfalso; apply H; now left].
    split; [intros _; now left | intros _; eexists; reflexivity].
  - destruct (Nat.ltb_spec 81 (meaningful_count l)) as [Hgt|Hle].
    + split; [|intros H; exfalso; apply H; now right].
      split; [intros _; now right | intros _; eexists; reflexivity].
    + split; [|intros _; reflexivity].
      split; [intros [e He]; discriminate He | intros [H|H]; lia].
Qed.

(** ** C5 *)

(** C5: a successful [fill] of an open cell of an 81-cell grid leaves at
    least one more determined cell and one open cell less; so [search],
    called at a level that with the open cells of its grid does not exceed
    81, ends without an access outside the 81 slots of the pool and nests no
    deeper than there are open cells; in particular so does the call at level
    0 of [solveList], whose depth stays within 81. *)
Theorem search_stays_in_pool (g : grid) (w : world) :
  wf g -> pool_ok w ->
  (forall s d g',
     in_square s -> is_digit d -> 2 <= cands g s ->
     fill s d g = Done (true, g') ->
     wf g' /\ determined g + 1 <= determined g' /\
     open_cells g' < open_cells g) /\
  0 <= open_cells g <= 81 /\
  (forall h level,
     holds w h level g -> 0 <= level -> level + open_cells g <= 81 ->
     exists r w',
       search_fuel (S (Z.to_nat (open_cells g))) h level w = Done (r, w') /\
       search h level w = Done (r, w') /\ pool_ok w') /\
  (exists r w', search (Fresh g) 0 w = Done (r, w') /\ pool_ok w').
Proof.
  intros Hwf Hw. assert (B := open_cells_bound Hwf).
  split; [|split; [exact B|split]].
  - intros s d g' Hs Hd Hc E.
    destruct (fill_determines Hwf Hs Hd Hc E) as (H1 & _ & H2 & H3). auto.
  - intros h level Hh Hl0 Hl.
    destruct (proj2 (search_fuel_ok (S (Z.to_nat (open_cells g))))
                h level w g Hw Hh Hwf Hl0 Hl) as (r & w' & E & Hw' & _);
      [lia|].
    exists r, w'. split; [exact E|]. split; [|exact Hw'].
    apply (@search_fuel_mono (S (Z.to_nat (open_cells g))) 82); [lia | exact E].
  - destruct (search_total Hwf Hw) as (r & w' & E & Hw' & _).
    exists r, w'. auto.
Qed.

(** C5, on the blank grid and the pool as [solveList] makes it. *)
Lemma search_stays_in_pool_witness :
  wf blank_puzzle /\ pool_ok (World new_gridpool 0) /\
  0 <= open_cells blank_puzzle <= 81 /\
  exists r w',
    search (Fresh blank_puzzle) 0 (World new_gridpool 0) = Done (r, w') /\
    pool_ok w'.
Proof.
  assert (Hwf : wf blank_puzzle) by (apply wfb_sound; vm_compute; reflexivity).
  assert (Hw := pool_ok_new 0).
  split; [exact Hwf|]. split; [exact Hw|].
  destruct (search_stays_in_pool Hwf Hw) as (_ & B & _ & H).
  split; [exact B | exact H].
Defined.

(** ** C6 *)

(** C6: [selectSquare] answers -1 when no cell has more than one candidate,
    and [search] then returns its grid as it is; otherwise it answers the
    cell that, among those with more than one candidate, has the fewest,
    the lowest such cell on a tie.  A cell with exactly two candidates is
    returned as soon as the scan meets it, whatever follows; this is the
    first such cell, and it agrees with the rule. *)
Theorem selectSquare_fewest_candidates (g : grid) :
  wf g ->
  exists s,
    selectSquare g = Done s /\
    ((forall t, in_square t -> cands g t <= 1) -> s = -1) /\
    ((s = -1 /\ (forall t, in_square t -> cands g t <= 1) /\
      forall h level w,
        h <> Nil -> deref h w = Done (g, w) -> search h level w = Done (h, w))
     \/
     (in_square s /\ 2 <= cands g s /\
      (forall t, in_square t -> 2 <= cands g t -> cands g s <= cands g t) /\
      (forall t, in_square t -> t < s -> 2 <= cands g t ->
                 cands g s < cands g t) /\
      (forall t, in_square t -> cands g t = 2 -> cands g s = 2 /\ s <= t))) /\
    (forall t rest square mint,
       in_square t -> cands g t = 2 ->
       selectSquare_loop (t :: rest) g square mint = Done t).
Proof.
  intros Hwf. destruct (selectSquare_spec Hwf) as (s & Es & Hsel).
  exists s. split; [exact Es|]. split; [|split].
  - intros Hall. destruct Hsel as [[E _]|(Hs & H2 & _)]; [exact E|].
    specialize (Hall s Hs). lia.
  - destruct Hsel as [[-> Hall]|(Hs & H2 & Hmin & Hfirst)].
    + left. split; [reflexivity|]. split; [exact Hall|].
      intros h level w Hh Hd.
      change (search h level w) with (search_body (search_fuel 81) h level w).
      rewrite (search_body_eq (search_fuel 81) level Hh Hd Es). reflexivity.
    + right. split; [exact Hs|]. split; [exact H2|].
      split; [exact Hmin|]. split; [exact Hfirst|].
      intros t Ht E2.
      assert (Hle := Hmin t Ht ltac:(lia)).
      split; [lia|].
      destruct (Z.lt_ge_cases t s) as [Hlt|Hge]; [|lia].
      assert (Hlt' := Hfirst t Ht Hlt ltac:(lia)). lia.
  - intros t rest square mint Ht E2. cbn [selectSquare_loop].
    rewrite (@index_Done _ g t 0)
      by (destruct Hwf as [L _]; unfold in_square in Ht; lia).
    cbn [rbind]. fold (cell g t).
    rewrite (num_digits_at (wf_cell t Hwf)). cbn [rbind].
    fold (cands g t). rewrite E2. reflexivity.
Qed.

(** C6, on the blank grid. *)
Lemma selectSquare_fewest_candidates_witness :
  wf blank_puzzle /\
  exists s,
    selectSquare blank_puzzle = Done s /\
    ((forall t, in_square t -> cands blank_puzzle t <= 1) -> s = -1) /\
    ((s = -1 /\ (forall t, in_square t -> cands blank_puzzle t <= 1) /\
      forall h level w,
        h <> Nil -> deref h w = Done (blank_puzzle, w) ->
        search h level w = Done (h, w))
     \/
     (in_square s /\ 2 <= cands blank_puzzle s /\
      (forall t, in_square t -> 2 <= cands blank_puzzle t ->
                 cands blank_puzzle s <= cands blank_puzzle t) /\
      (forall t, in_square t -> t < s -> 2 <= cands blank_puzzle t ->
                 cands blank_puzzle s < cands blank_puzzle t) /\
      (forall t, in_square t -> cands blank_puzzle t = 2 ->
                 cands blank_puzzle s = 2 /\ s <= t))) /\
    (forall t rest square mint,
       in_square t -> cands blank_puzzle t = 2 ->
       selectSquare_loop (t :: rest) blank_puzzle square mint = Done t).
Proof.
  assert (Hwf : wf blank_puzzle) by (apply wfb_sound; vm_compute; reflexivity).
  split; [exact Hwf | exact (selectSquare_fewest_candidates Hwf)].
Defined.

(** ** C7 *)

(** C7: on a grid with a selected cell [s], [search] does what the
    specification says for the candidates of [s] taken in increasing digit
    order: copy the grid into the slot of this level, fill there, explore the
    next level when the fill succeeds, return the first solution found
    without trying a later candidate, and count one backtrack for each
    candidate that fails.  The call ends, leaving the slots below its level
    as they were; what it returns is nil or a grid inside [g] without open
    cell, and it is such a grid whenever [g] has a solved grid inside.  The
    hypotheses are those of every call the program makes: the slice is a
    fresh one or a pool slot below the level, and the level is at most 81
    less the open cells of the grid.  The counter is a Go [int]: one is added
    to it as long as it is an [int] below the largest one. *)
Theorem search_tries_candidates_in_order (g : grid) (h : slice) (level : Z)
  (w : world) (s : Z) :
  pool_ok w -> holds w h level g -> wf g -> 0 <= level ->
  level + open_cells g <= 81 ->
  selectSquare g = Done s -> s <> -1 ->
  search h level w
  = spec_try_candidates search (spec_candidates g s) g s level w /\
  (exists r w',
     search h level w = Done (r, w') /\ pool_ok w' /\ same_below level w w' /\
     (r = Nil \/
      exists g', deref r w' = Done (g', w') /\ le_grid g' g /\
                 open_cells g' = 0)) /\
  (forall sol, solved sol -> le_grid sol g ->
     exists r w' g',
       search h level w = Done (r, w') /\ deref r w' = Done (g', w') /\
       le_grid g' g /\ open_cells g' = 0) /\
  (forall w0, - 2 ^ 63 <= backtracks w0 < 2 ^ 63 - 1 ->
     count_backtrack w0
     = Done (tt, World (gridpool w0) (backtracks w0 + 1))).
Proof.
  intros Hp Hh Hwf Hl0 Hl Es Hs.
  assert (B := open_cells_bound Hwf).
  assert (Hl81 : level <= 81) by lia.
  assert (Hderef := @deref_holds _ _ _ _ Hp Hl81 Hh).
  assert (Hnn : h <> Nil) by (intros ->; exact Hh).
  destruct (selectSquare_spec Hwf) as (s' & Es' & Hsel).
  rewrite Es in Es'. inversion Es'; subst s'. clear Es'.
  destruct Hsel as [[E _]|(Hsq & H2 & _)]; [contradiction|].
  split; [|split; [|split]].
  - change (search h level w) with (search_body (search_fuel 81) h level w).
    rewrite (search_body_eq (search_fuel 81) level Hnn Hderef Es).
    replace (s =? -1) with false by (symmetry; now apply Z.eqb_neq).
    destruct (@search_digits_total (search_fuel 81) search 81
                (search_fuel_ok 81)
                (fun h0 l0 => @search_fuel_mono 81 82 h0 l0 ltac:(lia))
                DIGITS h s level g w (fun d Hd => Hd) Hp Hh Hwf Hl0 Hl
                ltac:(lia) Hsq H2)
      as (r & w' & E & _ & Espec).
    rewrite E. symmetry. exact Espec.
  - destruct (@search_ends g h level w Hp Hh Hwf Hl0 Hl) as (r & w' & E & Hpost).
    exists r, w'. split; [exact E | exact Hpost].
  - intros sol Hsol Hle. now apply (@search_complete g h level w sol).
  - intros w0 Hbt. unfold count_backtrack. do 3 f_equal.
    unfold wrap64. rewrite Z.mod_small by lia. lia.
Qed.

(** C7, on the blank grid at level 0, where square 0 is selected. *)
Lemma search_tries_candidates_in_order_witness :
  pool_ok (World new_gridpool 0) /\
  holds (World new_gridpool 0) (Fresh blank_puzzle) 0 blank_puzzle /\
  wf blank_puzzle /\ 0 <= 0 /\ 0 + open_cells blank_puzzle <= 81 /\
  selectSquare blank_puzzle = Done 0 /\ 0 <> -1 /\
  search (Fresh blank_puzzle) 0 (World new_gridpool 0)
  = spec_try_candidates search (spec_candidates blank_puzzle 0)
      blank_puzzle 0 0 (World new_gridpool 0) /\
  (exists r w',
     search (Fresh blank_puzzle) 0 (World new_gridpool 0) = Done (r, w') /\
     pool_ok w' /\ same_below 0 (World new_gridpool 0) w' /\
     (r = Nil \/
      exists g', deref r w' = Done (g', w') /\ le_grid g' blank_puzzle /\
                 open_cells g' = 0)) /\
  (forall sol, solved sol -> le_grid sol blank_puzzle ->
     exists r w' g',
       search (Fresh blank_puzzle) 0 (World new_gridpool 0) = Done (r, w') /\
       deref r w' = Done (g', w') /\
       le_grid g' blank_puzzle /\ open_cells g' = 0) /\
  (forall w0, - 2 ^ 63 <= backtracks w0 < 2 ^ 63 - 1 ->
     count_backtrack w0
     = Done (tt, World (gridpool w0) (backtracks w0 + 1))).
Proof.
  assert (Hw := pool_ok_new 0).
  assert (Hh : holds (World new_gridpool 0) (Fresh blank_puzzle) 0 blank_puzzle)
    by reflexivity.
  assert (Hwf : wf blank_puzzle) by (apply wfb_sound; vm_compute; reflexivity).
  assert (H0 : 0 <= 0) by lia.
  assert (Ho : 0 + open_cells blank_puzzle <= 81)
    by (vm_compute; discriminate).
  assert (Es : selectSquare blank_puzzle = Done 0) by (vm_compute; reflexivity).
  assert (Hs : 0 <> -1) by discriminate.
  split; [exact Hw|]. split; [exact Hh|]. split; [exact Hwf|].
  split; [exact H0|]. split; [exact Ho|]. split; [exact Es|].
  split; [exact Hs|].
  exact (@search_tries_candidates_in_order blank_puzzle (Fresh blank_puzzle) 0
           (World new_gridpool 0) 0 Hw Hh Hwf H0 Ho Es Hs).
Defined.

(** ** C8 *)

(** C8: [fill(grid, s, d)] returns nil, leaving the grid as it is, when [d]
    is not a candidate of [s].  Otherwise it does what the claim says: the
    cell is set to [d] and [d] is eliminated from the 20 peers of [s] in
    turn, the first failure making [fill] fail.  [fill] only removes
    candidates; when it returns the grid, the cell holds exactly [d], no
    peer has [d] left and no cell has been emptied; and it does return the
    grid whenever the grid has a solved grid inside that shows [d] at [s],
    which is then still inside. *)
Theorem fill_sets_and_eliminates (g : grid) (s d : Z) :
  wf g -> in_square s -> is_digit d ->
  exists ps ok g',
    index PEERS s = Done ps /\ length ps = 20%nat /\ NoDup ps /\ ~ In s ps /\
    fill s d g = Done (ok, g') /\
    spec_fill_cell s d g = Done (ok, g') /\
    (Z.land (cell g s) d = 0 -> ok = false /\ g' = g) /\
    le_grid g' g /\
    (ok = true ->
     cell g' s = d /\ (forall p, In p ps -> Z.land (cell g' p) d = 0) /\
     keeps g g') /\
    (forall sol, solved sol -> le_grid sol g -> cell sol s = d ->
                 ok = true /\ le_grid sol g').
Proof.
  intros Hwf Hs Hd.
  destruct (peers_at Hs) as (ps & Eps & Hlen & Hnd & Hnot & Hps & _).
  destruct (fill_knows_all Hwf Hs Hd) as (ok & g' & Ef & Hpost & _ & Hsound).
  exists ps, ok, g'.
  split; [exact Eps|]. split; [exact Hlen|].
  split; [exact Hnd|]. split; [exact Hnot|].
  split; [exact Ef|].
  destruct (@fill_post_le _ _ _ _ _ Hwf Hs Hd Hpost) as [Hle Hkeep].
  unfold fill_post in Hpost.
  split; [|split; [|split; [exact Hle|split; [|exact Hsound]]]].
  - unfold spec_fill_cell.
    destruct (Z.eqb_spec (Z.land (cell g s) d) 0) as [E0|E0].
    + destruct Hpost as [-> ->]. reflexivity.
    + rewrite Eps. cbn [rbind]. rewrite <- fill_peers_each.
      rewrite <- (fill_runs_peers Hwf Hs Hd E0 Eps). exact Ef.
  - intros E0. rewrite E0 in Hpost. exact Hpost.
  - intros Hok.
    destruct (Z.eqb_spec (Z.land (cell g s) d) 0) as [E0|_];
      [destruct Hpost as [Hf _]; rewrite Hf in Hok; discriminate Hok|].
    destruct Hpost as [Hle1 Hk]. destruct (Hk Hok) as [Hk1 Hall].
    split; [now apply (fill_sets_cell Hwf Hs Hd)|].
    split; [|now apply Hkeep].
    intros p Hp. now apply (Hall ps).
Qed.

(** C8, for the digit 4 in square 0 of the blank grid, which has the
    solution of the example puzzle inside. *)
Lemma fill_sets_and_eliminates_witness :
  wf blank_puzzle /\ in_square 0 /\ is_digit 8 /\
  solved (parsed solution1) /\ cell (parsed solution1) 0 = 8 /\
  exists ps g',
    index PEERS 0 = Done ps /\ length ps = 20%nat /\
    fill 0 8 blank_puzzle = Done (true, g') /\
    spec_fill_cell 0 8 blank_puzzle = Done (true, g') /\
    cell g' 0 = 8 /\ (forall p, In p ps -> Z.land (cell g' p) 8 = 0) /\
    le_grid (parsed solution1) g'.
Proof.
  assert (Hwf : wf blank_puzzle) by (apply wfb_sound; vm_compute; reflexivity).
  assert (Hs : in_square 0) by (unfold in_square; lia).
  assert (Hd : is_digit 8) by (vm_compute; tauto).
  assert (Hsol : solved (parsed solution1))
    by (apply solvedb_sound; vm_compute; reflexivity).
  assert (Hc : cell (parsed solution1) 0 = 8) by (vm_compute; reflexivity).
  split; [exact Hwf|]. split; [exact Hs|]. split; [exact Hd|].
  split; [exact Hsol|]. split; [exact Hc|].
  destruct (fill_sets_and_eliminates Hwf Hs Hd)
    as (ps & ok & g' & Eps & Hlen & _ & _ & Ef & Esp & _ & _ & Hok & Hsound).
  destruct (Hsound (parsed solution1) Hsol (le_blank (proj1 Hsol)) Hc)
    as [-> Hle].
  destruct (Hok eq_refl) as (Hcell & Hall & _).
  exists ps, g'. auto 10.
Defined.

(** ** C9 *)

(** C9: the example puzzle is parsed, initialised and searched from depth 0
    to the grid that reads as the expected solution, and [verify] accepts
    that grid against the puzzle. *)
Theorem norvig_example_solved :
  exists p r w' sol,
    parseGrid (runes puzzle1) = Done (inl p) /\
    solve p (World new_gridpool 0) = Done (r, w') /\
    deref r w' = Done (sol, w') /\
    map digit_of_cell sol = digits_of_string solution1 /\
    verify (Some sol) p = Done true.
Proof.
  exists (parsed puzzle1), (Fresh (parsed solution1)),
    (World new_gridpool 0), (parsed solution1).
  split; [vm_compute; reflexivity|].
  split; [vm_compute; reflexivity|].
  split; [vm_compute; reflexivity|].
  split; vm_compute; reflexivity.
Qed.

(** ** C10 *)

(** C10: a grid returned by [parseGrid] has 81 entries, each of them one of
    the nine single-bit values or the universal set 511, and none zero. *)
Theorem parseGrid_cells (l : list rune) (g : grid) :
  parseGrid l = Done (inl g) ->
  length g = 81%nat /\
  forall x, In x g ->
    ((exists k, 0 <= k <= 8 /\ x = Z.shiftl 1 k) \/ x = ALL_DIGITS) /\ x <> 0.
Proof.
  rewrite parseGrid_spec.
  destruct (Nat.ltb_spec (meaningful_count l) 81) as [Hlt|Hge];
    [discriminate|].
  destruct (Nat.ltb_spec 81 (meaningful_count l)) as [Hgt|Hle];
    [discriminate|].
  intros H. inversion H; subst g. clear H. split.
  - rewrite length_map. unfold meaningful_count in *. lia.
  - intros x Hx. apply in_map_iff in Hx. destruct Hx as (r & <- & Hr).
    apply filter_In in Hr. destruct Hr as [_ Hm].
    unfold cell_of_rune.
    destruct ((r_1 <=? r) && (r <=? r_9)) eqn:Edig.
    + apply andb_true_iff in Edig. destruct Edig as [H1 H2].
      apply Z.leb_le in H1. apply Z.leb_le in H2. unfold r_1, r_9 in *.
      split.
      * left. exists (r - 49). split; [lia | reflexivity].
      * rewrite Z.shiftl_1_l. apply Z.pow_nonzero; lia.
    + split; [now right | unfold ALL_DIGITS; lia].
Qed.

(** C10, on the line of the example puzzle. *)
Lemma parseGrid_cells_witness :
  parseGrid (runes puzzle1) = Done (inl (parsed puzzle1)) /\
  length (parsed puzzle1) = 81%nat /\
  forall x, In x (parsed puzzle1) ->
    ((exists k, 0 <= k <= 8 /\ x = Z.shiftl 1 k) \/ x = ALL_DIGITS) /\ x <> 0.
Proof.
  assert (E : parseGrid (runes puzzle1) = Done (inl (parsed puzzle1)))
    by (vm_compute; reflexivity).
  split; [exact E | exact (@parseGrid_cells _ _ E)].
Defined.

(** * Further properties *)

(** X1: [eliminate(grid, s, d)] ends without panic on every 81-cell grid.
    It returns true and leaves the grid alone when [d] is no candidate of
    [s]; in every case [d] is no candidate of [s] afterwards and no cell has
    gained a candidate; when it returns true no cell that had a candidate is
    empty; and it returns true, keeping that grid inside, whenever the grid
    has a solved grid inside whose digit at [s] is not [d]. *)
Theorem eliminate_removes_candidate (g : grid) (s d : Z) :
  wf g -> in_square s -> is_digit d ->
  exists ok g',
    eliminate fill s d g = Done (ok, g') /\
    le_grid g' g /\ Z.land (cell g' s) d = 0 /\
    (Z.land (cell g s) d = 0 -> ok = true /\ g' = g) /\
    (ok = true -> keeps g g') /\
    (forall sol, solved sol -> le_grid sol g -> cell sol s <> d ->
                 ok = true /\ le_grid sol g').
Proof.
  intros Hwf Hs Hd. assert (B := bits_bound Hwf).
  assert (Hb : bits g <= Z.of_nat FUEL) by (unfold FUEL; lia).
  destruct (total_both
              (eliminate_total (fill_fuel_ok FUEL) Hwf Hs Hd Hb)
              (eliminate_facts (fill_fuel_knows FUEL) Hwf Hs Hd Hb))
    as (ok & g' & E & (Hle & Hwo & Hk) & (_ & Hsound)).
  exists ok, g'. split; [exact E|]. split; [exact Hle|].
  split; [exact Hwo|]. split; [|split; [exact Hk | exact Hsound]].
  intros E0. assert (E' := @eliminate_absent g s d Hwf Hs E0).
  change (eliminate fill s d g) with (eliminate (fill_fuel FUEL) s d g) in E'.
  rewrite E in E'. inversion E'. split; reflexivity.
Qed.

(** X1, for the digit 1 in square 1 of the blank grid. *)
Lemma eliminate_removes_candidate_witness :
  wf blank_puzzle /\ in_square 1 /\ is_digit 1 /\
  exists g', eliminate fill 1 1 blank_puzzle = Done (true, g') /\
             cell g' 1 = 510 /\
             le_grid (parsed solution1) g'.
Proof.
  assert (Hwf : wf blank_puzzle) by (apply wfb_sound; vm_compute; reflexivity).
  assert (Hs : in_square 1) by (unfold in_square; lia).
  assert (Hd : is_digit 1) by (vm_compute; tauto).
  split; [exact Hwf|]. split; [exact Hs|]. split; [exact Hd|].
  destruct (eliminate_removes_candidate Hwf Hs Hd)
    as (ok & g' & E & _ & _ & _ & _ & Hsound).
  assert (Hsol : solved (parsed solution1))
    by (apply solvedb_sound; vm_compute; reflexivity).
  destruct (Hsound (parsed solution1) Hsol (le_blank (proj1 Hsol)))
    as [-> Hle]; [vm_compute; discriminate|].
  exists g'. split; [exact E|]. split; [|exact Hle].
  vm_compute in E. inversion E. reflexivity.
Defined.

(** X2: in a grid where the digit of every determined square is a candidate
    of none of its peers and no cell is empty, a [fill] that returns the
    grid leaves a grid of the same kind: propagation is carried through for
    every square it determines. *)
Theorem fill_keeps_grid_consistent (g : grid) (s d : Z) :
  wf g -> in_square s -> is_digit d -> consistent g -> nonempty g ->
  exists ok g',
    fill s d g = Done (ok, g') /\
    (ok = true -> consistent g' /\ nonempty g' /\ le_grid g' g).
Proof.
  intros Hwf Hs Hd Hc Hne.
  destruct (fill_knows_all Hwf Hs Hd) as (ok & g' & E & Hfacts).
  exists ok, g'. split; [exact E|]. intros ->.
  destruct (@fill_keeps_consistent g g' s d Hwf Hs Hd Hc Hne Hfacts)
    as (_ & Hle & Hc' & Hne').
  auto.
Qed.

(** X2, for the digit 1 in square 0 of the blank grid. *)
Lemma fill_keeps_grid_consistent_witness :
  wf blank_puzzle /\ in_square 0 /\ is_digit 1 /\
  consistent blank_puzzle /\ nonempty blank_puzzle /\
  exists g', fill 0 1 blank_puzzle = Done (true, g') /\
             consistent g' /\ nonempty g'.
Proof.
  assert (Hs : in_square 0) by (unfold in_square; lia).
  assert (Hd : is_digit 1) by (vm_compute; tauto).
  destruct blank_consistent as (Hwf & Hc & Hne).
  split; [exact Hwf|]. split; [exact Hs|]. split; [exact Hd|].
  split; [exact Hc|]. split; [exact Hne|].
  destruct (@fill_keeps_grid_consistent blank_puzzle 0 1 Hwf Hs Hd Hc Hne)
    as (ok & g' & E & Hok).
  destruct ok; [|vm_compute in E; discriminate E].
  destruct (Hok eq_refl) as (Hc' & Hne' & _).
  exists g'. auto.
Defined.

(** X3: the grid pool does not show in what [search] finds.  Called at
    level 0 on an 81-cell grid, with any pool of 81 arrays, [search] returns
    the grid that the same backtracking finds when every level works on a
    copy of its own ([plain_search]), or nil when that finds none. *)
Theorem search_ignores_pool (g : grid) (w : world) :
  wf g -> pool_ok w ->
  exists r w',
    search (Fresh g) 0 w = Done (r, w') /\
    plain_search 82 g = Done (contents r w').
Proof.
  intros Hwf Hp. assert (B := open_cells_bound Hwf).
  destruct (search_total Hwf Hp) as (r & w' & E & _).
  exists r, w'. split; [exact E|].
  apply (@search_plain g (Fresh g) 0 w r w' Hp eq_refl Hwf); [lia | lia|].
  exact E.
Qed.

(** X3, on the blank grid with the pool of [solveList]. *)
Lemma search_ignores_pool_witness :
  wf blank_puzzle /\ pool_ok (World new_gridpool 0) /\
  exists r w',
    search (Fresh blank_puzzle) 0 (World new_gridpool 0) = Done (r, w') /\
    plain_search 82 blank_puzzle = Done (contents r w').
Proof.
  split; [exact blank_wf|]. split; [exact (pool_ok_new 0)|].
  exact (search_ignores_pool blank_wf (pool_ok_new 0)).
Defined.

(** X4: started on a grid without empty cell in which every determined
    square has been propagated to its peers, [search] is sound and complete:
    a grid it returns is solved (one digit in every cell, all nine digits in
    every row, column and block) and lies inside the grid given, and it
    returns one whenever a solved grid lies inside. *)
Theorem search_finds_solved_grids (g : grid) (w : world) :
  wf g -> pool_ok w -> consistent g -> nonempty g ->
  exists r w',
    search (Fresh g) 0 w = Done (r, w') /\
    (r = Nil \/
     exists g', deref r w' = Done (g', w') /\ solved g' /\ le_grid g' g) /\
    ((exists sol, solved sol /\ le_grid sol g) -> r <> Nil).
Proof.
  intros Hwf Hp Hc Hne. assert (B := open_cells_bound Hwf).
  destruct (search_total Hwf Hp) as (r & w' & E & _ & _ & Hr).
  exists r, w'. split; [exact E|]. split.
  - destruct Hr as [->|(g' & Eg & _)]; [now left|]. right. exists g'.
    split; [exact Eg|].
    apply (@search_sound g (Fresh g) 0 w r w' g' Hp eq_refl Hwf); try lia;
      assumption.
  - intros (sol & Hsol & Hle) ->.
    destruct (@search_complete g (Fresh g) 0 w sol Hp eq_refl Hwf
                ltac:(lia) ltac:(lia) Hsol Hle)
      as (r & w2 & g2 & E2 & Eg & _).
    rewrite E in E2. inversion E2; subst r w2. discriminate Eg.
Qed.

(** X4, on the blank grid, which has the example solution inside. *)
Lemma search_finds_solved_grids_witness :
  wf blank_puzzle /\ pool_ok (World new_gridpool 0) /\
  consistent blank_puzzle /\ nonempty blank_puzzle /\
  exists r w' g',
    search (Fresh blank_puzzle) 0 (World new_gridpool 0) = Done (r, w') /\
    deref r w' = Done (g', w') /\ solved g'.
Proof.
  destruct blank_consistent as (Hwf & Hc & Hne).
  split; [exact Hwf|]. split; [exact (pool_ok_new 0)|].
  split; [exact Hc|]. split; [exact Hne|].
  destruct (@search_finds_solved_grids blank_puzzle (World new_gridpool 0)
              Hwf (pool_ok_new 0) Hc Hne)
    as (r & w' & E & Hr & Hfound).
  destruct Hr as [->|(g' & Eg & Hsol & _)].
  - exfalso. apply Hfound; [|reflexivity].
    exists (parsed solution1).
    destruct example_solves as [Hs _].
    split; [exact Hs | exact (le_blank (proj1 Hs))].
  - exists r, w', g'. auto.
Defined.

(** X5: [initialize] ends on every parsed puzzle and returns an 81-cell
    grid.  When the puzzle has a solution, every [fill] it makes succeeds
    and the solution lies inside the grid returned; when every [fill] has
    succeeded, the grid returned lies inside the puzzle (each given square
    holds its digit), has no empty cell, and every determined square is
    propagated to its peers. *)
Theorem initialize_propagates_givens (p : grid) :
  puzzle_ok p ->
  exists log g,
    initialize p = Done (Fresh g) /\ initialize_calls p = Done log /\
    wf g /\
    (forall sol, solves sol p -> all_ok log /\ le_grid sol g) /\
    (all_ok log -> le_grid g p /\ nonempty g /\ consistent g).
Proof.
  intros Hp.
  destruct (initialize_facts Hp) as (log & g & _ & Ei & Ec & Hwf & Hok & Hsol).
  exists log, g. split; [exact Ei|]. split; [exact Ec|]. split; [exact Hwf|].
  split; [exact Hsol|]. intros Hall.
  destruct (Hok Hall) as (Hc & Hne & Hle). auto.
Qed.

(** X5, on the example puzzle. *)
Lemma initialize_propagates_givens_witness :
  puzzle_ok (parsed puzzle1) /\
  exists log g,
    initialize (parsed puzzle1) = Done (Fresh g) /\
    initialize_calls (parsed puzzle1) = Done log /\
    all_ok log /\ le_grid (parsed solution1) g /\ le_grid g (parsed puzzle1).
Proof.
  split; [exact example_puzzle_ok|].
  destruct (initialize_propagates_givens example_puzzle_ok)
    as (log & g & Ei & Ec & _ & Hsol & Hok).
  destruct (Hsol _ example_solves) as [Hall Hle].
  exists log, g. split; [exact Ei|]. split; [exact Ec|].
  split; [exact Hall|]. split; [exact Hle | apply (Hok Hall)].
Defined.

(** X6: the two working lines of [solveList], [initialize] followed by
    [search] from level 0, solve every parsed puzzle that has a solution:
    they return a grid that is a solution of the puzzle, and [verify]
    accepts it.  They return nil only for a puzzle without solution. *)
Theorem solve_returns_solution (p : grid) (w : world) :
  puzzle_ok p -> pool_ok w ->
  exists r w',
    solve p w = Done (r, w') /\
    ((exists sol, solves sol p) ->
     exists g', deref r w' = Done (g', w') /\ solves g' p /\
                verify (Some g') p = Done true) /\
    (r = Nil -> forall sol, ~ solves sol p).
Proof.
  intros Hp Hw.
  destruct (initialize_facts Hp) as (log & g & _ & Ei & _ & Hwf & Hok & Hsol).
  assert (B := open_cells_bound Hwf).
  destruct (search_total Hwf Hw) as (r & w' & Es & _).
  assert (E : solve p w = Done (r, w')).
  { unfold solve, bind, lift. rewrite Ei. exact Es. }
  assert (Hfound : forall sol, solves sol p ->
            exists g', deref r w' = Done (g', w') /\ solves g' p).
  { intros sol Hs. destruct (Hsol sol Hs) as [Hall Hle].
    destruct (Hok Hall) as (Hc & Hne & Hlep).
    destruct (@search_complete g (Fresh g) 0 w sol Hw eq_refl Hwf
                ltac:(lia) ltac:(lia) (proj1 Hs) Hle)
      as (r2 & w2 & g2 & E2 & Eg & _).
    rewrite Es in E2. inversion E2; subst r2 w2.
    exists g2. split; [exact Eg|].
    destruct (@search_sound g (Fresh g) 0 w r w' g2 Hw eq_refl Hwf
                ltac:(lia) ltac:(lia) Hc Hne Es Eg) as [Hs2 Hle2].
    split; [exact Hs2 | eapply le_grid_trans; eassumption]. }
  exists r, w'. split; [exact E|]. split.
  - intros (sol & Hs). destruct (Hfound sol Hs) as (g' & Eg & Hs').
    exists g'. split; [exact Eg|]. split; [exact Hs'|].
    now apply verify_solves.
  - intros -> sol Hs. destruct (Hfound sol Hs) as (g' & Eg & _).
    discriminate Eg.
Qed.

(** X6, on the example puzzle. *)
Lemma solve_returns_solution_witness :
  puzzle_ok (parsed puzzle1) /\ pool_ok (World new_gridpool 0) /\
  solves (parsed solution1) (parsed puzzle1) /\
  exists r w' g',
    solve (parsed puzzle1) (World new_gridpool 0) = Done (r, w') /\
    deref r w' = Done (g', w') /\ solves g' (parsed puzzle1) /\
    verify (Some g') (parsed puzzle1) = Done true.
Proof.
  split; [exact example_puzzle_ok|]. split; [exact (pool_ok_new 0)|].
  split; [exact example_solves|].
  destruct (@solve_returns_solution (parsed puzzle1) (World new_gridpool 0)
              example_puzzle_ok (pool_ok_new 0))
    as (r & w' & E & Hfound & _).
  destruct (Hfound (ex_intro (fun sol => solves sol (parsed puzzle1)) _ example_solves)) as (g' & Eg & Hs & Hv).
  exists r, w', g'. auto.
Defined.

(** X7: when every [fill] of [initialize] has succeeded, whatever grid
    [initialize] followed by [search] returns is a solution of the puzzle:
    a solved grid that shows every given digit. *)
Theorem solve_result_is_solution (p : grid) (w : world) :
  puzzle_ok p -> pool_ok w ->
  exists log r w',
    initialize_calls p = Done log /\ solve p w = Done (r, w') /\
    (all_ok log ->
     r = Nil \/ exists g', deref r w' = Done (g', w') /\ solves g' p).
Proof.
  intros Hp Hw.
  destruct (initialize_facts Hp) as (log & g & _ & Ei & Ec & Hwf & Hok & _).
  assert (B := open_cells_bound Hwf).
  destruct (search_total Hwf Hw) as (r & w' & Es & _ & _ & Hr).
  exists log, r, w'. split; [exact Ec|]. split.
  { unfold solve, bind, lift. rewrite Ei. exact Es. }
  intros Hall. destruct (Hok Hall) as (Hc & Hne & Hlep).
  destruct Hr as [->|(g' & Eg & _)]; [now left|]. right. exists g'.
  split; [exact Eg|].
  destruct (@search_sound g (Fresh g) 0 w r w' g' Hw eq_refl Hwf
              ltac:(lia) ltac:(lia) Hc Hne Es Eg) as [Hs2 Hle2].
  split; [exact Hs2 | eapply le_grid_trans; eassumption].
Qed.

(** X7, on the example puzzle. *)
Lemma solve_result_is_solution_witness :
  puzzle_ok (parsed puzzle1) /\ pool_ok (World new_gridpool 0) /\
  exists log r w',
    initialize_calls (parsed puzzle1) = Done log /\
    solve (parsed puzzle1) (World new_gridpool 0) = Done (r, w') /\
    (all_ok log ->
     r = Nil \/
     exists g', deref r w' = Done (g', w') /\ solves g' (parsed puzzle1)).
Proof.
  split; [exact example_puzzle_ok|]. split; [exact (pool_ok_new 0)|].
  exact (solve_result_is_solution example_puzzle_ok (pool_ok_new 0)).
Defined.

(** X8: [verify] accepts every solved grid that shows the digit of every
    determined square of the puzzle. *)
Theorem verify_accepts_solutions (g p : grid) :
  solved g -> wf p ->
  (forall s, in_square s -> cands p s = 1 -> cell g s = cell p s) ->
  verify (Some g) p = Done true.
Proof. intros Hs Hp Hg. now apply verify_solved. Qed.

(** X8, for the example solution against the blank puzzle. *)
Lemma verify_accepts_solutions_witness :
  solved (parsed solution1) /\ wf blank_puzzle /\
  (forall s, in_square s -> cands blank_puzzle s = 1 ->
             cell (parsed solution1) s = cell blank_puzzle s) /\
  verify (Some (parsed solution1)) blank_puzzle = Done true.
Proof.
  destruct example_solves as [Hs _].
  assert (Hg : forall s, in_square s -> cands blank_puzzle s = 1 ->
                 cell (parsed solution1) s = cell blank_puzzle s).
  { intros s Hsq H1. exfalso.
    destruct blank_consistent as (_ & _ & _).
    unfold cands, cell, blank_puzzle in H1.
    rewrite nth_repeat_lt in H1 by (unfold in_square in Hsq; lia).
    discriminate H1. }
  split; [exact Hs|]. split; [exact blank_wf|]. split; [exact Hg|].
  exact (verify_accepts_solutions Hs blank_wf Hg).
Defined.

(** X9: [verify] rejects the nil grid, and a grid it accepts has exactly one
    digit in every cell and shows the digit of every determined square of
    the puzzle. *)
Theorem verify_accepted_grid (g p : grid) :
  wf g -> wf p ->
  verify None p = Done false /\
  exists b, verify (Some g) p = Done b /\
    (b = true ->
     forall s, in_square s ->
       is_digit (cell g s) /\ (cands p s = 1 -> cell g s = cell p s)).
Proof.
  intros Hg Hp. split; [reflexivity|].
  rewrite (verify_spec Hg Hp). eexists. split; [reflexivity|].
  intros H s Hs. apply andb_true_iff in H. destruct H as [H _].
  rewrite forallb_forall in H.
  assert (Hin : In s SQUARES).
  { change SQUARES with (upto 81). apply In_upto. unfold in_square in Hs. lia. }
  specialize (H s Hin). unfold square_ok in H.
  apply andb_true_iff in H. destruct H as [H1 H2]. apply Z.eqb_eq in H1.
  split; [apply ones_one; [apply wf_cell, Hg | exact H1]|].
  intros Hc. rewrite Hc in H2. simpl in H2. now apply Z.eqb_eq.
Qed.

(** X9, for the example solution against the example puzzle. *)
Lemma verify_accepted_grid_witness :
  wf (parsed solution1) /\ wf (parsed puzzle1) /\
  verify None (parsed puzzle1) = Done false /\
  exists b, verify (Some (parsed solution1)) (parsed puzzle1) = Done b /\
    (b = true ->
     forall s, in_square s ->
       is_digit (cell (parsed solution1) s) /\
       (cands (parsed puzzle1) s = 1 ->
        cell (parsed solution1) s = cell (parsed puzzle1) s)).
Proof.
  assert (Hg : wf (parsed solution1)) by (apply wfb_sound; vm_compute; reflexivity).
  assert (Hp : wf (parsed puzzle1)) by (apply wfb_sound; vm_compute; reflexivity).
  split; [exact Hg|]. split; [exact Hp|].
  exact (verify_accepted_grid Hg Hp).
Defined.

(** X10: [cross(rows, cols)], for row and column numbers in 0..8, has one
    square for every pair of a row and a column, and holds exactly the
    squares whose row is among [rows] and whose column is among [cols]. *)
Theorem cross_rows_and_columns (rows cols : list Z) :
  (forall r, In r rows -> 0 <= r < 9) ->
  (forall c, In c cols -> 0 <= c < 9) ->
  length (cross rows cols) = (length rows * length cols)%nat /\
  forall x, In x (cross rows cols) <->
            in_square x /\ In (x / 9) rows /\ In (x mod 9) cols.
Proof.
  intros Hr Hc. split.
  - unfold cross. clear Hr. induction rows as [|r rows IH]; [reflexivity|].
    cbn [flat_map]. rewrite length_app, length_map, IH. cbn [length]. lia.
  - intros x. unfold cross, N. rewrite in_flat_map. split.
    + intros (r & Hin & Hx). apply in_map_iff in Hx.
      destruct Hx as (c & <- & Hcin).
      specialize (Hr r Hin). specialize (Hc c Hcin).
      replace ((9 * r + c) / 9) with r by (apply Z.div_unique with c; lia).
      replace ((9 * r + c) mod 9) with c by (apply Z.mod_unique with r; lia).
      unfold in_square. repeat split; try assumption; lia.
    + intros (Hsq & Hrow & Hcol). exists (x / 9). split; [exact Hrow|].
      apply in_map_iff. exists (x mod 9). split; [|exact Hcol].
      symmetry. apply Z.div_mod. lia.
Qed.

(** X10, for the block of the rows 3 to 5 and the columns 0 to 2. *)
Lemma cross_rows_and_columns_witness :
  (forall r, In r [3; 4; 5] -> 0 <= r < 9) /\
  (forall c, In c [0; 1; 2] -> 0 <= c < 9) /\
  cross [3; 4; 5] [0; 1; 2] = [27; 28; 29; 36; 37; 38; 45; 46; 47] /\
  length (cross [3; 4; 5] [0; 1; 2]) = 9%nat /\
  forall x, In x (cross [3; 4; 5] [0; 1; 2]) <->
            in_square x /\ In (x / 9) [3; 4; 5] /\ In (x mod 9) [0; 1; 2].
Proof.
  assert (Hr : forall r, In r [3; 4; 5] -> 0 <= r < 9)
    by (simpl; intros r Hin; lia).
  assert (Hc : forall c, In c [0; 1; 2] -> 0 <= c < 9)
    by (simpl; intros c Hin; lia).
  split; [exact Hr|]. split; [exact Hc|]. split; [reflexivity|].
  exact (cross_rows_and_columns _ _ Hr Hc).
Defined.

(** X11: the table [PEERS] that [init] builds: the peers of a square are
    exactly the 20 other squares of its row, its column and its 3x3 block,
    each once, and a square is a peer of each of its peers. *)
Theorem peers_share_row_column_block (s : Z) :
  in_square s ->
  exists ps,
    index PEERS s = Done ps /\ length ps = 20%nat /\ NoDup ps /\
    (forall p, In p ps <-> in_square p /\ shares_unit s p = true) /\
    (forall p, In p ps -> exists ps', index PEERS p = Done ps' /\ In s ps').
Proof.
  intros Hs.
  assert (H := @upto_all 81
    (fun s => match index PEERS s with
              | Done ps =>
                  (length ps =? 20)%nat && nodupb ps
                  && squares_where (shares_unit s) ps
                  && forallb (fun p => match index PEERS p with
                                       | Done ps' => member s ps'
                                       | _ => false
                                       end) ps
              | _ => false
              end) ltac:(vm_compute; reflexivity) s Hs).
  cbv beta in H. destruct (index PEERS s) as [ps| |]; try discriminate.
  apply andb_true_iff in H. destruct H as [H H4].
  apply andb_true_iff in H. destruct H as [H H3].
  apply andb_true_iff in H. destruct H as [H1 H2].
  exists ps. split; [reflexivity|].
  split; [now apply Nat.eqb_eq|]. split; [now apply nodupb_spec|]. split.
  - intros p. now apply squares_where_spec.
  - intros p Hp. rewrite forallb_forall in H4. specialize (H4 p Hp).
    destruct (index PEERS p) as [ps'| |]; try discriminate.
    exists ps'. split; [reflexivity | now apply member_spec].
Qed.

(** X11, for the square in the middle of the grid. *)
Lemma peers_share_row_column_block_witness :
  in_square 40 /\
  exists ps,
    index PEERS 40 = Done ps /\ length ps = 20%nat /\ NoDup ps /\
    (forall p, In p ps <-> in_square p /\ shares_unit 40 p = true) /\
    (forall p, In p ps -> exists ps', index PEERS p = Done ps' /\ In 40 ps').
Proof.
  assert (Hs : in_square 40) by (unfold in_square; lia).
  split; [exact Hs | exact (peers_share_row_column_block Hs)].
Defined.

(** X12: the tables [ALL_UNITS] and [UNITS] that [init] builds: there are 27
    units, and the three units of a square are its row, its column and its
    3x3 block, in this order. *)
Theorem units_are_row_column_block (s : Z) :
  in_square s ->
  length ALL_UNITS = 27%nat /\
  exists row col blk,
    index UNITS s = Done [row; col; blk] /\
    In row ALL_UNITS /\ In col ALL_UNITS /\ In blk ALL_UNITS /\
    (forall t, In t row <-> in_square t /\ t / 9 = s / 9) /\
    (forall t, In t col <-> in_square t /\ t mod 9 = s mod 9) /\
    (forall t, In t blk <->
               in_square t /\ t / 27 = s / 27 /\
               (t mod 9) / 3 = (s mod 9) / 3).
Proof.
  intros Hs. split; [reflexivity|].
  assert (H := @upto_all 81
    (fun s => match index UNITS s with
              | Done [row; col; blk] =>
                  squares_where (fun t => t / 9 =? s / 9) row
                  && squares_where (fun t => t mod 9 =? s mod 9) col
                  && squares_where
                       (fun t => (t / 27 =? s / 27)
                                 && ((t mod 9) / 3 =? (s mod 9) / 3)) blk
              | _ => false
              end) ltac:(vm_compute; reflexivity) s Hs).
  cbv beta in H.
  destruct (index UNITS s) as [[|row [|col [|blk [|? ?]]]]| |] eqn:E;
    try discriminate.
  apply andb_true_iff in H. destruct H as [H H3].
  apply andb_true_iff in H. destruct H as [H1 H2].
  exists row, col, blk. split; [reflexivity|].
  split; [apply (units_in_all row Hs E); now left|].
  split; [apply (units_in_all col Hs E); right; now left|].
  split; [apply (units_in_all blk Hs E); right; right; now left|].
  split; [|split].
  - intros t. rewrite (squares_where_spec _ _ t H1). now rewrite Z.eqb_eq.
  - intros t. rewrite (squares_where_spec _ _ t H2). now rewrite Z.eqb_eq.
  - intros t. rewrite (squares_where_spec _ _ t H3).
    now rewrite andb_true_iff, !Z.eqb_eq.
Qed.

(** X12, for the square in the middle of the grid. *)
Lemma units_are_row_column_block_witness :
  in_square 40 /\
  index UNITS 40
  = Done [[36; 37; 38; 39; 40; 41; 42; 43; 44];
          [4; 13; 22; 31; 40; 49; 58; 67; 76];
          [30; 31; 32; 39; 40; 41; 48; 49; 50]] /\
  length ALL_UNITS = 27%nat /\
  exists row col blk,
    index UNITS 40 = Done [row; col; blk] /\
    In row ALL_UNITS /\ In col ALL_UNITS /\ In blk ALL_UNITS /\
    (forall t, In t row <-> in_square t /\ t / 9 = 40 / 9) /\
    (forall t, In t col <-> in_square t /\ t mod 9 = 40 mod 9) /\
    (forall t, In t blk <->
               in_square t /\ t / 27 = 40 / 27 /\
               (t mod 9) / 3 = (40 mod 9) / 3).
Proof.
  assert (Hs : in_square 40) by (unfold in_square; lia).
  split; [exact Hs|]. split; [vm_compute; reflexivity|].
  exact (units_are_row_column_block Hs).
Defined.


(** X14: [parseGrid] reads the reverse of a line as the reverse of the
    grid: a line it accepts is accepted reversed, with the cells in reverse
    order, and a line it rejects is rejected reversed. *)
Theorem parseGrid_of_reversed_line (l : list rune) :
  exists l',
    reverse l = Done l' /\
    (forall g, parseGrid l = Done (inl g) ->
               parseGrid l' = Done (inl (rev g))) /\
    (forall e, parseGrid l = Done (inr e) ->
               exists e', parseGrid l' = Done (inr e')).
Proof.
  exists (rev l). split; [apply reverse_is_rev|].
  rewrite !parseGrid_answer. unfold parse_answer.
  rewrite meaningful_count_rev, filter_rev, map_rev.
  destruct (meaningful_count l <? 81)%nat;
    [split; [discriminate | eauto]|].
  destruct (81 <? meaningful_count l)%nat;
    [split; [discriminate | eauto]|].
  split; [|discriminate].
  intros g H. inversion H. reflexivity.
Qed.


(** X16: what [rowString] writes is read back by [parseGrid]: for every
    puzzle grid (81 cells, each one digit or blank) the nine rows written by
    [rowString], put one after the other, make a line that [parseGrid]
    accepts and turns into the same grid; blanks are written as dots,
    digits as themselves, and the spaces and bars between them do not
    count. *)
Theorem rowString_parses_back (p : grid) :
  puzzle_ok p ->
  exists text,
    rows_text ROWS p = Done text /\
    filter meaningful text = map rune_of_cell p /\
    parseGrid text = Done (inl p).
Proof.
  intros Hp.
  assert (Hrows : forall rs, (forall r, In r rs -> In r ROWS) ->
    exists text,
      rows_text rs p = Done text /\
      filter meaningful text
      = map (fun t => rune_of_cell (cell p t))
          (flat_map (fun r => map (fun i => r * 9 + Z.of_nat i) (seq 0 9)) rs)).
  { induction rs as [|r rs IH]; intros Hrs.
    - exists []. split; reflexivity.
    - destruct (@rowString_puzzle p r Hp (Hrs r (or_introl eq_refl)))
        as (row & Er & Hf).
      destruct IH as (rest & Erest & Hfrest);
        [intros r0 H0; apply Hrs; now right|].
      exists (row ++ rest). cbn [rows_text]. rewrite Er. cbn [rbind].
      rewrite Erest. cbn [rbind]. split; [reflexivity|].
      rewrite filter_app, Hf, Hfrest. cbn [flat_map].
      now rewrite map_app. }
  destruct (Hrows ROWS (fun r H => H)) as (text & Et & Hf).
  assert (Hcells : filter meaningful text = map rune_of_cell p).
  { rewrite Hf.
    change (flat_map (fun r => map (fun i => r * 9 + Z.of_nat i) (seq 0 9)) ROWS)
      with (upto 81).
    transitivity (map rune_of_cell (map (cell p) (upto 81)));
      [now rewrite map_map | now rewrite (@grid_cells p (proj1 Hp))]. }
  exists text. split; [exact Et|]. split; [exact Hcells|].
  rewrite parseGrid_spec. unfold meaningful_count. rewrite Hcells, length_map.
  rewrite (proj1 Hp). change (81 <? 81)%nat with false. cbv iota.
  apply f_equal. apply f_equal. rewrite map_map.
  transitivity (map (fun x : Z => x) p); [|apply map_id].
  apply map_ext_in. intros x Hx.
  destruct (In_nth _ _ 0 Hx) as (i & Hi & <-).
  assert (Hsq : in_square (Z.of_nat i))
    by (rewrite (proj1 Hp) in Hi; unfold in_square; lia).
  assert (Hc := proj2 Hp _ Hsq). unfold cell in Hc. rewrite Nat2Z.id in Hc.
  destruct Hc as [Hd|Hb]; [apply (digit_text Hd)|].
  rewrite Hb. reflexivity.
Qed.

(** X16, on the example puzzle. *)
Lemma rowString_parses_back_witness :
  puzzle_ok (parsed puzzle1) /\
  rowString (parsed puzzle1) 0
  = Done (runes ". . 3 | . 2 . | 6 . . ") /\
  exists text,
    rows_text ROWS (parsed puzzle1) = Done text /\
    filter meaningful text = map rune_of_cell (parsed puzzle1) /\
    parseGrid text = Done (inl (parsed puzzle1)).
Proof.
  split; [exact example_puzzle_ok|].
  split; [vm_compute; reflexivity|].
  exact (rowString_parses_back example_puzzle_ok).
Defined.
